(** * YuE-UI [song.py]: lyric parser, song segments and generation cache

    A shallow embedding of [source/song.py] and the properties of its
    token-alignment subsystem.

    Conventions of the embedding:
    - a Python [str] is a [string]; each [ascii] is one code point in
      0..255 and is classified the way Python classifies that code point;
    - a Python [int] is a [Z] (sizes and loop indices that are never
      negative are [nat]);
    - a Python [float] is an IEEE binary64 value, [spec_float] with
      [prec = 53] and [emax = 1024];
    - a Python [list] is a [list], indexed with [!!] and updated with
      [<[ i := x ]>]; an index out of range raises [IndexError];
    - a [dict] with string keys is a [gmap string _];
    - a call that may raise returns a [result]; [try_except] is the
      [try: ... except: ...] statement. *)

From Stdlib Require Import ZArith Ascii String SpecFloat DecimalString DecimalN.
From stdpp Require Import base option list gmap strings.

(** ** Python primitives *)

Module Py.

(** The exceptions the modelled code can meet. *)
Inductive exn : Set :=
| ValueError
| OverflowError
| IndexError
| EinopsError.

Inductive result (A : Type) : Type :=
| Ok (a : A)
| Raise (e : exn).
Arguments Ok {A} a.
Arguments Raise {A} e.

Definition bind {A B} (m : result A) (f : A -> result B) : result B :=
  match m with
  | Ok a => f a
  | Raise e => Raise e
  end.

(** [try: body  except: handler] with a bare [except]. *)
Definition try_except {A} (body : result A) (handler : exn -> result A) : result A :=
  match body with
  | Ok a => Ok a
  | Raise e => handler e
  end.

Definition is_ok {A} (m : result A) : bool :=
  match m with
  | Ok _ => true
  | Raise _ => false
  end.

(** [for x in xs: st = body(x, st)], stopping at the first exception. *)
Fixpoint for_each {A St} (xs : list A) (body : A -> St -> result St) (st : St) : result St :=
  match xs with
  | [] => Ok st
  | x :: xs' => bind (body x st) (for_each xs' body)
  end.

(** [enumerate(xs)] counted from [i]. *)
Fixpoint enumerate_from {A} (i : nat) (xs : list A) : list (nat * A) :=
  match xs with
  | [] => []
  | x :: xs' => (i, x) :: enumerate_from (S i) xs'
  end.
Definition enumerate {A} (xs : list A) : list (nat * A) := enumerate_from 0 xs.

(** [itertools.takewhile] *)
Fixpoint takewhile {A} (p : A -> bool) (xs : list A) : list A :=
  match xs with
  | [] => []
  | x :: xs' => if p x then x :: takewhile p xs' else []
  end.

(** [xs[i]] for [i >= 0] *)
Definition getitem {A} (xs : list A) (i : nat) : result A :=
  match xs !! i with
  | Some x => Ok x
  | None => Raise IndexError
  end.

(** [xs[i] = x] for [i >= 0] *)
Definition setitem {A} (xs : list A) (i : nat) (x : A) : result (list A) :=
  if decide (i < length xs) then Ok (<[ i := x ]> xs) else Raise IndexError.

(** [len(xs)] as a Python integer *)
Definition len {A} (xs : list A) : Z := Z.of_nat (length xs).

(** One bound of a slice, as [PySlice_AdjustIndices] does for step 1:
    a negative bound counts from the end, and the result is clipped to
    [0 .. len]. *)
Definition slice_bound (n i : Z) : Z :=
  if (i <? 0)%Z then Z.max 0 (i + n) else Z.min i n.

(** [xs[start:stop]] *)
Definition slice {A} (xs : list A) (start stop : Z) : list A :=
  let lo := slice_bound (len xs) start in
  let hi := slice_bound (len xs) stop in
  take (Z.to_nat (hi - lo)) (drop (Z.to_nat lo) xs).

(** [xs[:-1]] *)
Definition drop_last {A} (xs : list A) : list A := slice xs 0 (-1).

(** *** Characters and strings *)

Definition code (c : ascii) : N := N_of_ascii c.

Definition between (lo hi : N) (c : ascii) : bool :=
  ((lo <=? code c) && (code c <=? hi))%N.

(** [c.isspace()] on code points 0..255: TAB..CR, FS..US, space, NEL, NBSP. *)
Definition isspace (c : ascii) : bool :=
  between 9 13 c || between 28 32 c || (code c =? 133)%N || (code c =? 160)%N.

(** ASCII decimal digits, the only decimal digits below code point 256. *)
Definition isdigit (c : ascii) : bool := between 48 57 c.

Definition digit_value (c : ascii) : N := (code c - 48)%N.

(** The [\w] class of [re] on [str] patterns, code points 0..255:
    alphanumerics (letters, and characters with a numeric value) and [_]. *)
Definition isword (c : ascii) : bool :=
  between 48 57 c || between 65 90 c || (code c =? 95)%N || between 97 122 c
  || (code c =? 170)%N || between 178 179 c || (code c =? 181)%N
  || between 185 186 c || between 188 190 c
  || between 192 214 c || between 216 246 c || between 248 255 c.

(** [c.lower()] on code points 0..255 *)
Definition lower_char (c : ascii) : ascii :=
  if between 65 90 c || between 192 214 c || between 216 222 c
  then ascii_of_N (code c + 32) else c.

Fixpoint lower (s : string) : string :=
  match s with
  | EmptyString => EmptyString
  | String c s' => String (lower_char c) (lower s')
  end.

Fixpoint lstrip (s : string) : string :=
  match s with
  | EmptyString => EmptyString
  | String c s' => if isspace c then lstrip s' else s
  end.

Fixpoint rstrip (s : string) : string :=
  match s with
  | EmptyString => EmptyString
  | String c s' =>
      match rstrip s' with
      | EmptyString => if isspace c then EmptyString else String c EmptyString
      | r => String c r
      end
  end.

(** [s.strip()] *)
Definition strip (s : string) : string := rstrip (lstrip s).

(** [s.endswith(c)] for a one-character suffix *)
Fixpoint endswith (s : string) (c : ascii) : bool :=
  match s with
  | EmptyString => false
  | String a EmptyString => bool_decide (a = c)
  | String _ s' => endswith s' c
  end.

(** [s[:-1]] *)
Fixpoint str_drop_last (s : string) : string :=
  match s with
  | EmptyString => EmptyString
  | String _ EmptyString => EmptyString
  | String a s' => String a (str_drop_last s')
  end.

(** A line feed, ["\n"]. *)
Definition LF : string := String "010" EmptyString.

(** [sep.join(parts)] *)
Fixpoint join (sep : string) (parts : list string) : string :=
  match parts with
  | [] => EmptyString
  | [p] => p
  | p :: rest => p +:+ sep +:+ join sep rest
  end.

(** *** [int(str)] and [float(str)] *)

(** White space skipped around a number: the ASCII white space of C, and
    the white space above code point 127. *)
Definition isspace_num (c : ascii) : bool :=
  between 9 13 c || (code c =? 32)%N || (code c =? 133)%N || (code c =? 160)%N.

Fixpoint lstrip_num (s : string) : string :=
  match s with
  | EmptyString => EmptyString
  | String c s' => if isspace_num c then lstrip_num s' else s
  end.

Fixpoint rstrip_num (s : string) : string :=
  match s with
  | EmptyString => EmptyString
  | String c s' =>
      match rstrip_num s' with
      | EmptyString => if isspace_num c then EmptyString else String c EmptyString
      | r => String c r
      end
  end.

Definition strip_num (s : string) : string := rstrip_num (lstrip_num s).

(** An optional sign; [true] is minus. *)
Definition sign (s : string) : bool * string :=
  match s with
  | String "-" s' => (true, s')
  | String "+" s' => (false, s')
  | _ => (false, s)
  end.

(** The rest of [digit (["_"] digit)*] after its first digit: the value,
    the number of digits read and the unread input. An underscore that is
    not followed by a digit is left unread. *)
Fixpoint digits_rest (acc : N) (n : nat) (s : string) : N * nat * string :=
  match s with
  | String c s' =>
      if isdigit c then digits_rest (10 * acc + digit_value c) (S n) s'
      else if bool_decide (c = "_"%char) then
        match s' with
        | String d s'' =>
            if isdigit d then digits_rest (10 * acc + digit_value d) (S n) s''
            else (acc, n, s)
        | EmptyString => (acc, n, s)
        end
      else (acc, n, s)
  | EmptyString => (acc, n, s)
  end.

(** [digitpart ::= digit (["_"] digit)*]; no digit at all reads nothing. *)
Definition digitpart (s : string) : N * nat * string :=
  match s with
  | String c s' => if isdigit c then digits_rest (digit_value c) 1 s' else (0%N, 0, s)
  | EmptyString => (0%N, 0, s)
  end.

(** [sys.get_int_max_str_digits()], as the interpreter starts with it. *)
Definition max_str_digits : nat := 4300.

(** [int(s)] in base 10; a numeral of more digits than the interpreter
    converts is refused. *)
Definition int (s : string) : result Z :=
  let '(neg, s1) := sign (strip_num s) in
  match digitpart s1 with
  | (_, O, _) => Raise ValueError
  | (v, n, EmptyString) =>
      if (max_str_digits <? n)%nat then Raise ValueError
      else Ok (if neg then - Z.of_N v else Z.of_N v)%Z
  | _ => Raise ValueError
  end.

Definition prec : Z := 53.
Definition emax : Z := 1024.

(** The binary64 value nearest to [(-1)^neg * m * 10^e], ties to even. *)
Definition float_of_decimal (neg : bool) (m : N) (e : Z) : spec_float :=
  match m with
  | N0 => S754_zero neg
  | Npos p =>
      if (0 <=? e)%Z then
        binary_normalize prec emax
          (if neg then - (Zpos p * 10 ^ e) else Zpos p * 10 ^ e)%Z 0 false
      else
        let '(q, e', l) := SFdiv_core_binary prec emax (Zpos p) 0 (10 ^ (- e))%Z 0 in
        binary_round_aux prec emax neg q e' l
  end.

Definition lower_ascii (c : ascii) : ascii :=
  if between 65 90 c then ascii_of_N (code c + 32) else c.

Fixpoint lower_ascii_str (s : string) : string :=
  match s with
  | EmptyString => EmptyString
  | String c s' => String (lower_ascii c) (lower_ascii_str s')
  end.

(** The exponent part [("e" | "E") [sign] digitpart], when there is one. *)
Definition exponent (s : string) : option (Z * string) :=
  match s with
  | EmptyString => Some (0%Z, s)
  | String c s' =>
      if bool_decide (c = "e"%char) || bool_decide (c = "E"%char) then
        let '(neg, s1) := sign s' in
        match digitpart s1 with
        | (_, O, _) => None
        | (v, _, rest) => Some ((if neg then - Z.of_N v else Z.of_N v)%Z, rest)
        end
      else Some (0%Z, s)
  end.

(** [floatnumber ::= ([digitpart] "." digitpart | digitpart ["."]) [exponent]] *)
Definition floatnumber (neg : bool) (s : string) : result spec_float :=
  let '(ip, ni, s1) := digitpart s in
  let '(fp, nf, s2) :=
    match s1 with
    | String "." s1' => digitpart s1'
    | _ => (0%N, 0, s1)
    end in
  match ni + nf with
  | O => Raise ValueError
  | _ =>
      match exponent s2 with
      | Some (ex, EmptyString) =>
          Ok (float_of_decimal neg (ip * 10 ^ N.of_nat nf + fp) (ex - Z.of_nat nf))
      | _ => Raise ValueError
      end
  end.

(** [float(s)] *)
Definition float (s : string) : result spec_float :=
  let '(neg, s1) := sign (strip_num s) in
  let w := lower_ascii_str s1 in
  if bool_decide (w = "inf"%string) || bool_decide (w = "infinity"%string)
  then Ok (S754_infinity neg)
  else if bool_decide (w = "nan"%string) then Ok S754_nan
  else floatnumber neg s1.

(** [float * float] *)
Definition fmul (x y : spec_float) : spec_float := SFmul prec emax x y.

(** An integer as a float, as in the mixed product [x * 50]. *)
Definition float_of_int (n : Z) : spec_float := binary_normalize prec emax n 0 false.

(** [int(x)] for a float [x]: truncation toward zero. *)
Definition int_of_float (x : spec_float) : result Z :=
  match x with
  | S754_nan => Raise ValueError
  | S754_infinity _ => Raise OverflowError
  | S754_zero _ => Ok 0%Z
  | S754_finite s m e =>
      let a := Z.shiftl (Zpos m) e in
      Ok (if s then - a else a)%Z
  end.

(** The binary64 value nearest to [(-1)^neg * p / d], ties to even; a
    quotient too large for a float raises. *)
Definition round_quotient (neg : bool) (p d : positive) : result spec_float :=
  let '(q, e, l) := SFdiv_core_binary prec emax (Zpos p) 0 (Zpos d) 0 in
  match binary_round_aux prec emax neg q e l with
  | S754_infinity _ => Raise OverflowError
  | x => Ok x
  end.

(** [a / d] for an integer [a] and a positive integer [d] *)
Definition truediv (a : Z) (d : positive) : result spec_float :=
  match a with
  | Z0 => Ok (S754_zero false)
  | Zpos p => round_quotient false p d
  | Zneg p => round_quotient true p d
  end.

(** A number in a list: an [int] or a [float]. *)
Inductive number : Set :=
| PyInt (n : Z)
| PyFloat (x : spec_float).

(** The integer a float is, when it is one. *)
Definition float_integer (x : spec_float) : option Z :=
  match x with
  | S754_zero _ => Some 0%Z
  | S754_finite s m e =>
      if (0 <=? e)%Z then
        Some (if s then - (Zpos m * 2 ^ e) else Zpos m * 2 ^ e)%Z
      else if (Zpos m mod 2 ^ (- e) =? 0)%Z then
        Some (if s then - (Zpos m / 2 ^ (- e)) else Zpos m / 2 ^ (- e))%Z
      else None
  | _ => None
  end.

(** [x == y] for two numbers: an [int] and a [float] are compared by their
    exact values. *)
Definition number_eqb (x y : number) : bool :=
  match x, y with
  | PyInt a, PyInt b => (a =? b)%Z
  | PyFloat a, PyInt b | PyInt b, PyFloat a =>
      match float_integer a with
      | Some v => (v =? b)%Z
      | None => false
      end
  | PyFloat a, PyFloat b => SFeqb a b
  end.

End Py.

(** ** The fragment of [re] the parser uses *)

Module Re.

(** A set of characters that one pattern item matches. *)
Inductive cset : Set :=
| CChar (c : ascii)   (* a literal, as [#] or [\[] *)
| CAny                (* [.] under [re.DOTALL] *)
| CWord.              (* [\w] *)

Definition cset_mem (cs : cset) (c : ascii) : bool :=
  match cs with
  | CChar a => bool_decide (a = c)
  | CAny => true
  | CWord => Py.isword c
  end.

Inductive regex : Set :=
| One (cs : cset)            (* one character of the set *)
| StarLazy (cs : cset)       (* [x*?] *)
| PlusGreedy (cs : cset)     (* [x+] *)
| Seq (r1 r2 : regex)        (* [r1 r2] *)
| Alt (r1 r2 : regex)        (* [r1|r2] *)
| Opt (r : regex)            (* [r?], greedy *)
| Group (n : nat) (r : regex)  (* [(r)], the capture group number [n] *)
| LookAhead (r : regex)      (* [(?=r)] *)
| EndZ.                      (* [\Z] *)

(** The text of each group that took part in the match. *)
Abbreviation captures := (gmap nat string).

(** The characters of [s] in front of its suffix [rest]. *)
Definition consumed (s rest : string) : string :=
  substring 0 (String.length s - String.length rest) s.

Definition or_else {R} (a b : option R) : option R :=
  match a with
  | Some x => Some x
  | None => b
  end.

(** The backtracking matcher: [exec r s caps k] matches [r] at the front
    of [s] and hands the unread input to the continuation [k]; when [k]
    fails the next way of matching [r] is tried, in the order of [re]. *)
Fixpoint exec (r : regex) {R : Type} (s : string) (caps : captures)
    (k : string -> captures -> option R) {struct r} : option R :=
  match r with
  | One cs =>
      match s with
      | String c s' => if cset_mem cs c then k s' caps else None
      | EmptyString => None
      end
  | StarLazy cs =>
      (fix loop (s : string) : option R :=
         or_else (k s caps)
           match s with
           | String c s' => if cset_mem cs c then loop s' else None
           | EmptyString => None
           end) s
  | PlusGreedy cs =>
      (fix loop (s : string) : option R :=
         match s with
         | String c s' => if cset_mem cs c then or_else (loop s') (k s' caps) else None
         | EmptyString => None
         end) s
  | Seq r1 r2 => exec r1 s caps (fun s' caps' => exec r2 s' caps' k)
  | Alt r1 r2 => or_else (exec r1 s caps k) (exec r2 s caps k)
  | Opt r1 => or_else (exec r1 s caps k) (k s caps)
  | Group n r1 => exec r1 s caps (fun s' caps' => k s' (<[ n := consumed s s' ]> caps'))
  | LookAhead r1 =>
      match exec r1 s caps (fun _ caps' => Some caps') with
      | Some caps' => k s caps'
      | None => None
      end
  | EndZ =>
      match s with
      | EmptyString => k s caps
      | String _ _ => None
      end
  end.

(** [re.match] at the front of [s]: the length of the match and its groups. *)
Definition match_here (r : regex) (s : string) : option (nat * captures) :=
  exec r s ∅ (fun rest caps => Some (String.length s - String.length rest, caps)).

(** The scan of [re.findall]: [skip] characters of [s] still belong to the
    match found last; after them the leftmost match is looked for again.
    (A match of the empty string moves on by one character; the patterns
    of this file match at least two characters.) *)
Fixpoint scan (r : regex) (s : string) (skip : nat) : list captures :=
  match skip, s with
  | S n, String _ s' => scan r s' n
  | S _, EmptyString => []
  | O, _ =>
      match match_here r s with
      | Some (n, caps) =>
          caps :: match s with
                  | String _ s' => scan r s' (n - 1)
                  | EmptyString => []
                  end
      | None =>
          match s with
          | String _ s' => scan r s' 0
          | EmptyString => []
          end
      end
  end.

(** [re.findall(r, s, re.DOTALL)], one entry per match. *)
Definition findall (r : regex) (s : string) : list captures := scan r s 0.

(** A group of a [findall] entry; a group that took no part is [''] . *)
Definition group (caps : captures) (n : nat) : string := default EmptyString (caps !! n).

End Re.

(** ** The two array calls of [merged_stage1_tracks]

    [numpy] and [einops] are libraries the program calls; what follows is
    what the two calls do on lists of lists of Python integers. An array
    holds its items in one dtype, which [np.array] finds from the items. *)

Module Np.
Import Py.

(** The dtypes [np.array] gives to lists of integers. *)
Inductive dtype : Set :=
| Int64
| UInt64
| Float64
| Object.

(** The dtype of one integer: [int64] where it fits, [uint64] from [2^63]
    up to [2^64 - 1], and a Python object beyond. *)
Definition dtype_of_int (n : Z) : dtype :=
  if ((- 2 ^ 63 <=? n) && (n <? 2 ^ 63))%Z then Int64
  else if ((0 <=? n) && (n <? 2 ^ 64))%Z then UInt64
  else Object.

(** The dtype that holds items of two dtypes: [int64] with [uint64] gives
    [float64]. *)
Definition promote (a b : dtype) : dtype :=
  match a, b with
  | Object, _ | _, Object => Object
  | Float64, _ | _, Float64 => Float64
  | Int64, Int64 => Int64
  | UInt64, UInt64 => UInt64
  | Int64, UInt64 | UInt64, Int64 => Float64
  end.

(** The dtype of an array of these items; an array without items is of
    [float64]. *)
Definition common_dtype (items : list Z) : dtype :=
  match items with
  | [] => Float64
  | n :: rest => foldl (fun dt m => promote dt (dtype_of_int m)) (dtype_of_int n) rest
  end.

(** An integer as an array of the dtype holds it and as [tolist] gives it
    back: a [float64] array holds the nearest float. *)
Definition stored (dt : dtype) (n : Z) : number :=
  match dt with
  | Float64 => PyFloat (float_of_int n)
  | _ => PyInt n
  end.

(** An array of one or of two dimensions; the rows of [Array2] are all of
    the length [ncols]. *)
Inductive ndarray : Set :=
| Array1 (items : list number)
| Array2 (ncols : nat) (rows : list (list number)).

(** [np.array(rows)]: no row gives an empty array of one dimension, rows of
    one length give an array of two dimensions, of the dtype of all the
    items, and rows of different lengths are refused. *)
Definition array (rows : list (list Z)) : result ndarray :=
  match rows with
  | [] => Ok (Array1 [])
  | r :: rest =>
      if forallb (fun r' => Nat.eqb (length r') (length r)) rest
      then Ok (Array2 (length r) (map (map (stored (common_dtype (concat rows)))) rows))
      else Raise ValueError
  end.

(** The items of a [b] by [n] array in the order [(n b)]: for each column,
    its item in each row. *)
Fixpoint time_major {A} (n : nat) (rows : list (list A)) : list A :=
  match n with
  | O => []
  | S n' => omap head rows ++ time_major n' (map tail rows)
  end.

(** [rearrange(x, "b n -> (n b)", b=b)], then [.tolist()]: the pattern
    needs two dimensions, the first of them of size [b]. *)
Definition rearrange_bn_nb (x : ndarray) (b : nat) : result (list number) :=
  match x with
  | Array1 _ => Raise EinopsError
  | Array2 ncols rows =>
      if decide (length rows = b) then Ok (time_major ncols rows)
      else Raise EinopsError
  end.

End Np.

(** ** [song.py] *)

Import Py.

Definition NrStages : nat := 2.
Definition NrTracks : nat := 2.
Definition DefaultTrackLength : Z := 1500.
Definition DefaultSystemPrompt : string :=
  "Generate music from the given lyrics segment by segment.".

(** A tag value: the integer of a [length] tag, or the text as it stands. *)
Inductive TagValue : Set :=
| TagInt (n : Z)
| TagStr (s : string).

Global Instance TagValue_eq_dec : EqDecision TagValue.
Proof. solve_decision. Defined.

Definition parse_tag (tag_name tag_data : string) : result TagValue :=
  if bool_decide (tag_name = "length"%string) then
    if endswith tag_data "t" then
      bind (int (str_drop_last tag_data)) (fun n => Ok (TagInt n))
    else
      bind (float tag_data) (fun x =>
      bind (int_of_float (fmul x (float_of_int 50))) (fun n => Ok (TagInt n)))
  else Ok (TagStr tag_data).

(** [(#.*?(?=\[))?\[(\w+)\](.*?)(?=\[|\Z|#)] *)
Definition pattern : Re.regex :=
  Re.Seq
    (Re.Opt (Re.Group 1
       (Re.Seq (Re.One (Re.CChar "#"))
       (Re.Seq (Re.StarLazy Re.CAny)
               (Re.LookAhead (Re.One (Re.CChar "[")))))))
  (Re.Seq (Re.One (Re.CChar "["))
  (Re.Seq (Re.Group 2 (Re.PlusGreedy Re.CWord))
  (Re.Seq (Re.One (Re.CChar "]"))
  (Re.Seq (Re.Group 3 (Re.StarLazy Re.CAny))
          (Re.LookAhead
             (Re.Alt (Re.One (Re.CChar "["))
             (Re.Alt Re.EndZ
                     (Re.One (Re.CChar "#"))))))))).

(** [#(\w+)(.*?)(?=#|\Z)] *)
Definition tag_pattern : Re.regex :=
  Re.Seq (Re.One (Re.CChar "#"))
  (Re.Seq (Re.Group 1 (Re.PlusGreedy Re.CWord))
  (Re.Seq (Re.Group 2 (Re.StarLazy Re.CAny))
          (Re.LookAhead (Re.Alt (Re.One (Re.CChar "#")) Re.EndZ)))).

Module SongSegment.

Record t : Type := mk {
  _name : string;
  _tags : gmap string TagValue;
  _lyrics : string;
  _tracks : list (list (list Z))
}.

Definition create_empty_tracks : list (list (list Z)) :=
  replicate NrStages (replicate NrTracks []).

Definition create (name : string) (tags : gmap string TagValue) (lyrics : string) : t :=
  {| _name := name; _tags := tags; _lyrics := lyrics; _tracks := create_empty_tracks |}.

Definition as_str (self : t) : string :=
  "[" +:+ _name self +:+ "]" +:+ LF +:+ _lyrics self +:+ LF +:+ LF.

Definition name (self : t) : string := _name self.

Definition has_changed (self other : t) : bool :=
  bool_decide (_name self = _name other)
  && bool_decide (_tags self = _tags other)
  && bool_decide (_lyrics self = _lyrics other).

Definition track (self : t) (istage itrack : nat) : result (list Z) :=
  bind (getitem (_tracks self) istage) (fun row => getitem row itrack).

Definition cached_length (self : t) (istage itrack : nat) : result Z :=
  bind (track self istage itrack) (fun tr => Ok (len tr)).

Definition track_length (self : t) : option TagValue := _tags self !! "length"%string.

Definition set_track (self : t) (istage itrack : nat) (tr : list Z) : result t :=
  bind (getitem (_tracks self) istage) (fun row =>
  bind (setitem row itrack tr) (fun row' =>
  Ok {| _name := _name self; _tags := _tags self; _lyrics := _lyrics self;
        _tracks := <[ istage := row' ]> (_tracks self) |})).

(** [copy.deepcopy] of a value is that value. *)
Definition merge (self other : t) : t :=
  {| _name := _name self; _tags := _tags self; _lyrics := _lyrics self;
     _tracks := _tracks other |}.

(** Interleave stage 1 track data [V V V] [I I I] -> [V I V I V I] *)
Definition merged_stage1_tracks (self : t) : result (list number) :=
  bind (getitem (_tracks self) 0) (fun tracks0 =>
  bind (Np.array tracks0) (fun codec_ids =>
  Np.rearrange_bn_nb codec_ids NrTracks)).

End SongSegment.

(** The body of the [for tag in raw_tags] loop. *)
Definition parse_lyrics_tag (tag : Re.captures) (tags : gmap string TagValue)
    : result (gmap string TagValue) :=
  let tag_name := Re.group tag 1 in
  let tag_data := Re.group tag 2 in
  let tag_name := lower (strip tag_name) in
  let tag_data := strip tag_data in
  try_except
    (bind (parse_tag tag_name tag_data) (fun v => Ok (<[ tag_name := v ]> tags)))
    (fun _ => Ok tags).

(** The body of the [for segment in raw_segments] loop. *)
Definition parse_lyrics_segment (segment : Re.captures) (segments : list SongSegment.t)
    : result (list SongSegment.t) :=
  let tag_block := Re.group segment 1 in
  let section_name := Re.group segment 2 in
  let lyrics := Re.group segment 3 in
  let raw_tags := Re.findall tag_pattern tag_block in
  bind (for_each raw_tags parse_lyrics_tag ∅) (fun tags =>
  Ok (segments ++ [SongSegment.create (strip section_name) tags (strip lyrics)])).

Definition parse_lyrics (lyrics : string) : result (list SongSegment.t) :=
  let raw_segments := Re.findall pattern lyrics in
  for_each raw_segments parse_lyrics_segment [].

Module Song.

Record t : Type := mk {
  _segments : list SongSegment.t;
  _audio_prompt : list Z;
  _default_track_length : Z;
  _system_prompt : string;
  _raw_lyrics : string;
  _lyrics : string;
  _genre : string
}.

(** [Song()] *)
Definition init : t :=
  {| _segments := []; _audio_prompt := [];
     _default_track_length := DefaultTrackLength;
     _system_prompt := DefaultSystemPrompt;
     _raw_lyrics := ""; _lyrics := ""; _genre := "" |}.

Definition with_segments (self : t) (segs : list SongSegment.t) : t :=
  {| _segments := segs; _audio_prompt := _audio_prompt self;
     _default_track_length := _default_track_length self;
     _system_prompt := _system_prompt self;
     _raw_lyrics := _raw_lyrics self; _lyrics := _lyrics self;
     _genre := _genre self |}.

Definition with_raw_lyrics (self : t) (text : string) : t :=
  {| _segments := _segments self; _audio_prompt := _audio_prompt self;
     _default_track_length := _default_track_length self;
     _system_prompt := _system_prompt self;
     _raw_lyrics := text; _lyrics := _lyrics self;
     _genre := _genre self |}.

Definition with_lyrics (self : t) (text : string) : t :=
  {| _segments := _segments self; _audio_prompt := _audio_prompt self;
     _default_track_length := _default_track_length self;
     _system_prompt := _system_prompt self;
     _raw_lyrics := _raw_lyrics self; _lyrics := text;
     _genre := _genre self |}.

(** [str(song)] *)
Definition str (self : t) : string := _lyrics self.

(** [len(song)] *)
Definition __len__ (self : t) : nat := length (_segments self).

(** [song[index]] *)
Definition __getitem__ (self : t) (index : nat) : result SongSegment.t :=
  getitem (_segments self) index.

Definition segments (self : t) : list SongSegment.t := _segments self.

Definition lyrics (self : t) : string := _lyrics self.

(** The body of the merge loop of [_prepare_lyrics]: the new segment at
    [iseg] takes the tracks of the old one. *)
Definition merge_step (old_segments : list SongSegment.t)
    (e : nat * SongSegment.t) (new_segments : list SongSegment.t)
    : result (list SongSegment.t) :=
  let '(iseg, segment) := e in
  bind (getitem old_segments iseg) (fun old =>
  setitem new_segments iseg (SongSegment.merge segment old)).

Definition _prepare_lyrics (self : t) : result t :=
  bind (parse_lyrics (strip (_raw_lyrics self))) (fun new_segments =>
  bind (for_each
          (takewhile (fun e => bool_decide (fst e < length (_segments self)))
                     (enumerate new_segments))
          (merge_step (_segments self)) new_segments) (fun new_segments =>
  let self := with_segments self new_segments in
  let structured_lyrics := map SongSegment.as_str (_segments self) in
  Ok (with_lyrics self (join LF structured_lyrics)))).

Definition set_lyrics (self : t) (lyrics_text : string) : result t :=
  _prepare_lyrics (with_raw_lyrics self lyrics_text).

(** [segment.set_track(istage, itrack, track)] on the segment [song[iseg]] *)
Definition set_track (self : t) (iseg istage itrack : nat) (tr : list Z) : result t :=
  bind (__getitem__ self iseg) (fun segment =>
  bind (SongSegment.set_track segment istage itrack tr) (fun segment' =>
  Ok (with_segments self (<[ iseg := segment' ]> (_segments self))))).

Definition clear_cache (self : t) (istage : nat) : result t :=
  for_each (seq 0 (length (_segments self)))
    (fun iseg self =>
       for_each (seq 0 NrTracks)
         (fun itrack self => set_track self iseg istage itrack []) self)
    self.

Definition merge_segments (self : t) (istage : nat) : result (list (list Z)) :=
  for_each (seq 0 NrTracks)
    (fun itrack tracks =>
       bind (for_each (_segments self)
               (fun segment track_full =>
                  bind (SongSegment.track segment istage itrack) (fun tr =>
                  Ok (track_full ++ tr)))
               []) (fun track_full =>
       Ok (tracks ++ [track_full])))
    [].

Definition default_track_length (self : t) : Z := _default_track_length self.

Definition set_default_track_length (self : t) (track_length : Z) : t :=
  {| _segments := _segments self; _audio_prompt := _audio_prompt self;
     _default_track_length := track_length;
     _system_prompt := _system_prompt self;
     _raw_lyrics := _raw_lyrics self; _lyrics := _lyrics self;
     _genre := _genre self |}.

Definition set_system_prompt (self : t) (system_prompt : string) : t :=
  {| _segments := _segments self; _audio_prompt := _audio_prompt self;
     _default_track_length := _default_track_length self;
     _system_prompt := system_prompt;
     _raw_lyrics := _raw_lyrics self; _lyrics := _lyrics self;
     _genre := _genre self |}.

Definition system_prompt (self : t) : string := _system_prompt self.

Definition set_audio_prompt (self : t) (audio_prompt : list Z) : t :=
  {| _segments := _segments self; _audio_prompt := audio_prompt;
     _default_track_length := _default_track_length self;
     _system_prompt := _system_prompt self;
     _raw_lyrics := _raw_lyrics self; _lyrics := _lyrics self;
     _genre := _genre self |}.

Definition audio_prompt (self : t) : list Z := _audio_prompt self.

Definition set_genre (self : t) (genre_text : string) : t :=
  {| _segments := _segments self; _audio_prompt := _audio_prompt self;
     _default_track_length := _default_track_length self;
     _system_prompt := _system_prompt self;
     _raw_lyrics := _raw_lyrics self; _lyrics := _lyrics self;
     _genre := genre_text |}.

Definition genre (self : t) : string := _genre self.

(** The body of the loop of [length]: the [length] tag of the segment, or
    the default track length when the segment has none, is added to the
    sum. A tag value that is a [str] cannot be added to an [int]: [None] is
    the [TypeError] of that sum. *)
Definition length_step (self : t) (segment : SongSegment.t) (length : Z) : option Z :=
  match SongSegment.track_length segment with
  | Some (TagInt n) => Some (length + n)%Z
  | Some (TagStr _) => None
  | None => Some (length + _default_track_length self)%Z
  end.

(** [song.length()], in tokens *)
Definition length (self : t) : option Z :=
  foldl (fun length segment => length ≫= length_step self segment) (Some 0%Z)
        (_segments self).

(** [song.length_seconds()]: [None] is the [TypeError] of [length], and the
    division raises for a quotient too large for a float. *)
Definition length_seconds (self : t) : option (result spec_float) :=
  length self ≫= fun n => Some (truediv n 50).

End Song.

Module GenerationCache.

(** A boundary record [(name, start, end)]. *)
Definition boundary : Type := string * Z * Z.

Record t : Type := mk {
  _tracks : list (list (list Z));
  _segments : list boundary
}.

(** [GenerationCache(nr_stages)] *)
Definition init (nr_stages : nat) : t :=
  {| _tracks := replicate nr_stages []; _segments := [] |}.

Definition add_segment (self : t) (name : string) (start end_ : Z) : t :=
  {| _tracks := _tracks self; _segments := _segments self ++ [(name, start, end_)] |}.

Definition add_tracks (self : t) (stageidx : nat) (tracks : list (list Z)) : result t :=
  bind (setitem (_tracks self) stageidx tracks) (fun trs =>
  Ok {| _tracks := trs; _segments := _segments self |}).

Definition segments (self : t) : list boundary := _segments self.

Definition track (self : t) (stageidx trackidx : nat) : list Z :=
  match _tracks self !! stageidx with
  | Some stage => default [] (stage !! trackidx)
  | None => []
  end.

(** The [while iseg >= 0] loop of [rewind]; the counter is [iseg + 1], so
    that it is zero exactly when the loop ends. *)
Fixpoint rewind_loop (n : nat) (tokens : Z) (segs : list boundary)
    : result (list boundary) :=
  match n with
  | O => Ok segs
  | S iseg =>
      bind (getitem segs iseg) (fun '(name, start, end_) =>
      let length := (end_ - start)%Z in
      if (tokens >? length)%Z then
        rewind_loop iseg (tokens - length)%Z (drop_last segs)
      else
        setitem segs iseg (name, start, (end_ - tokens)%Z))
  end.

Definition rewind (self : t) (timems : Z) : result t :=
  let tokens := (timems / 20)%Z in
  bind (rewind_loop (length (_segments self)) tokens (_segments self)) (fun segs =>
  Ok {| _tracks := _tracks self; _segments := segs |}).

(** The body of the boundary loop of [create_from_song]; the state is the
    cache with the cursor [dataidx]. *)
Definition boundary_step (segment : SongSegment.t) (st : t * Z) : result (t * Z) :=
  let '(cache, dataidx) := st in
  bind (SongSegment.cached_length segment 0 0) (fun segment_length =>
  if (segment_length =? 0)%Z then Ok (cache, dataidx)
  else
    let next_dataidx := (dataidx + segment_length)%Z in
    Ok (add_segment cache (SongSegment.name segment) dataidx next_dataidx, next_dataidx)).

Definition create_from_song (song : Song.t) : result t :=
  let cache := init NrStages in
  bind (for_each (seq 0 NrStages)
          (fun istage cache =>
             bind (Song.merge_segments song istage) (add_tracks cache istage))
          cache) (fun cache =>
  bind (for_each (Song.segments song) boundary_step (cache, 0%Z)) (fun st =>
  Ok (fst st))).

Definition elem_size (istage : nat) : Z := if decide (istage = 1) then 8%Z else 1%Z.

(** The positions [transfer_to_song] slices a flat buffer of [n] elements
    at, for one boundary record and stage; [None] is the [continue]. *)
Definition slice_range (n : Z) (istage : nat) (start_token end_token : Z) : option (Z * Z) :=
  let start_pos := (start_token * elem_size istage)%Z in
  let end_pos := (end_token * elem_size istage)%Z in
  if (start_pos >? n)%Z || (n =? 0)%Z then None
  else
    let end_pos := if (end_pos >? n)%Z then n else end_pos in
    Some (start_pos, end_pos).

(** The body of the innermost loop of [transfer_to_song]. *)
Definition transfer_track (self : t) (isegment : nat) (start_token end_token : Z)
    (istage itrack : nat) (song : Song.t) : result Song.t :=
  let tr := track self istage itrack in
  match slice_range (len tr) istage start_token end_token with
  | None => Ok song
  | Some (start_pos, end_pos) =>
      Song.set_track song isegment istage itrack (slice tr start_pos end_pos)
  end.

(** The body of the loop over the boundary records. *)
Definition transfer_segment (self : t) (nr_segments : nat) (e : nat * boundary)
    (song : Song.t) : result Song.t :=
  let '(isegment, (_, start_token, end_token)) := e in
  if decide (isegment < nr_segments) then
    for_each (seq 0 NrStages)
      (fun istage song =>
         for_each (seq 0 NrTracks)
           (fun itrack song =>
              transfer_track self isegment start_token end_token istage itrack song)
           song)
      song
  else Ok song.

Definition transfer_to_song (self : t) (song : Song.t) : result Song.t :=
  let nr_segments := Song.__len__ song in
  for_each (enumerate (_segments self)) (transfer_segment self nr_segments) song.

End GenerationCache.

(** ** [GenerationCache] with its lists as shared objects

    [rewind] and [add_segment] write into the list of boundary records,
    [add_tracks] writes into the list of stages, and [load] takes the lists
    of a snapshot as they are, without a copy. To follow what a cache and a
    snapshot share, the lists live in a store here and a cache holds
    references to them; [view] is the cache of [GenerationCache] that such
    a cache stands for. *)

Module Shared.

(** The list objects: the lists of boundary records and the lists of
    stages. A reference is the place of a list in the store; a place the
    store does not have reads as an empty list. *)
Record store : Type := mk_store {
  records : list (list GenerationCache.boundary);
  stages : list (list (list (list Z)))
}.

Definition read_records (h : store) (r : nat) : list GenerationCache.boundary :=
  default [] (records h !! r).

Definition read_stages (h : store) (r : nat) : list (list (list Z)) :=
  default [] (stages h !! r).

Definition write_records (h : store) (r : nat) (segs : list GenerationCache.boundary)
    : store :=
  {| records := <[ r := segs ]> (records h); stages := stages h |}.

Definition write_stages (h : store) (r : nat) (trs : list (list (list Z))) : store :=
  {| records := records h; stages := <[ r := trs ]> (stages h) |}.

(** A new list object, and the reference to it. *)
Definition new_records (h : store) (segs : list GenerationCache.boundary) : store * nat :=
  ({| records := records h ++ [segs]; stages := stages h |}, length (records h)).

Definition new_stages (h : store) (trs : list (list (list Z))) : store * nat :=
  ({| records := records h; stages := stages h ++ [trs] |}, length (stages h)).

(** A [GenerationCache] object: the references its two attributes hold. *)
Record t : Type := mk {
  _tracks : nat;
  _segments : nat
}.

(** [GenerationCache(nr_stages)] *)
Definition init (h : store) (nr_stages : nat) : store * t :=
  let '(h, trs) := new_stages h (replicate nr_stages []) in
  let '(h, segs) := new_records h [] in
  (h, {| _tracks := trs; _segments := segs |}).

(** [self._segments.append((name, start, end))] *)
Definition add_segment (h : store) (self : t) (name : string) (start end_ : Z) : store :=
  write_records h (_segments self) (read_records h (_segments self) ++ [(name, start, end_)]).

(** [self._tracks[stageidx] = tracks] *)
Definition add_tracks (h : store) (self : t) (stageidx : nat) (tracks : list (list Z))
    : result store :=
  bind (setitem (read_stages h (_tracks self)) stageidx tracks) (fun trs =>
  Ok (write_stages h (_tracks self) trs)).

(** [segments] hands out the list itself. *)
Definition segments (self : t) : nat := _segments self.

Definition track (h : store) (self : t) (stageidx trackidx : nat) : list Z :=
  match read_stages h (_tracks self) !! stageidx with
  | Some stage => default [] (stage !! trackidx)
  | None => []
  end.

(** The loop of [rewind]: [self._segments[:-1]] is a new list, to which
    the attribute is set; [self._segments[iseg] = ...] writes into the list
    the attribute holds. *)
Fixpoint rewind_loop (n : nat) (tokens : Z) (h : store) (self : t) : result (store * t) :=
  match n with
  | O => Ok (h, self)
  | S iseg =>
      bind (getitem (read_records h (_segments self)) iseg) (fun '(name, start, end_) =>
      let length := (end_ - start)%Z in
      if (tokens >? length)%Z then
        let '(h', r) := new_records h (drop_last (read_records h (_segments self))) in
        rewind_loop iseg (tokens - length)%Z h' {| _tracks := _tracks self; _segments := r |}
      else
        bind (setitem (read_records h (_segments self)) iseg (name, start, (end_ - tokens)%Z))
          (fun segs => Ok (write_records h (_segments self) segs, self)))
  end.

Definition rewind (h : store) (self : t) (timems : Z) : result (store * t) :=
  let tokens := (timems / 20)%Z in
  rewind_loop (length (read_records h (_segments self))) tokens h self.

(** [save]: the dict holds copies of the two lists, made by
    [copy.deepcopy]. The dict is the mapping from its keys to the
    references it holds. *)
Definition save (h : store) (self : t) : store * gmap string nat :=
  let '(h, trs) := new_stages h (read_stages h (_tracks self)) in
  let '(h, segs) := new_records h (read_records h (_segments self)) in
  (h, {[ "tracks"%string := trs; "segments"%string := segs ]}).

(** [load]: the attributes are set to the lists of the dict, where it has
    them. *)
Definition load (self : t) (data : gmap string nat) : t :=
  {| _tracks := default (_tracks self) (data !! "tracks"%string);
     _segments := default (_segments self) (data !! "segments"%string) |}.

(** The content of the lists a cache holds. *)
Definition view (h : store) (self : t) : GenerationCache.t :=
  {| GenerationCache._tracks := read_stages h (_tracks self);
     GenerationCache._segments := read_records h (_segments self) |}.

(** The store holds the lists of the cache. *)
Definition allocated (h : store) (self : t) : Prop :=
  _tracks self < length (stages h) /\ _segments self < length (records h).

End Shared.

(** ** Vocabulary of the properties *)

(** The number of tokens a boundary record spans. *)
Definition boundary_length (b : GenerationCache.boundary) : Z :=
  let '(_, start, end_) := b in (end_ - start)%Z.

(** The total cached length of a boundary table. *)
Definition total_length (segs : list GenerationCache.boundary) : Z :=
  foldr (fun b acc => (boundary_length b + acc)%Z) 0%Z segs.

(** A boundary record does not end before it starts. *)
Definition boundary_ordered (b : GenerationCache.boundary) : bool :=
  (0 <=? boundary_length b)%Z.

Definition cache_ordered (c : GenerationCache.t) : bool :=
  forallb boundary_ordered (GenerationCache._segments c).

(** [rewind] dropped every record and kept the flat buffers. *)
Definition rewind_empties (c : GenerationCache.t) (timems : Z) : Prop :=
  exists c', GenerationCache.rewind c timems = Ok c'
    /\ GenerationCache._segments c' = []
    /\ GenerationCache._tracks c' = GenerationCache._tracks c.

(** The total cached length after the rewinds [ds], one after the other. *)
Definition remaining (c : GenerationCache.t) (ds : list Z) : result Z :=
  bind (for_each ds (fun d c => GenerationCache.rewind c d) c) (fun c' =>
  Ok (total_length (GenerationCache._segments c'))).

(** The name and the value of a raw tag as [parse_lyrics] hands them to
    [parse_tag]. *)
Definition tag_name_of (tag : Re.captures) : string := lower (strip (Re.group tag 1)).
Definition tag_data_of (tag : Re.captures) : string := strip (Re.group tag 2).

(** The tags of a tag block whose value coerces, in order, with the value. *)
Definition kept_tags (raw_tags : list Re.captures) : list (string * TagValue) :=
  omap (fun tag =>
          match parse_tag (tag_name_of tag) (tag_data_of tag) with
          | Ok v => Some (tag_name_of tag, v)
          | Raise _ => None
          end) raw_tags.

(** The mapping a list of entries makes; a later entry replaces an earlier
    one of the same name. *)
Definition tags_of (entries : list (string * TagValue)) : gmap string TagValue :=
  foldl (fun m e => <[ e.1 := e.2 ]> m) ∅ entries.

(** The segment of one match of [pattern]: the trimmed header and body, and
    the tags of its block that coerce. *)
Definition segment_of_match (m : Re.captures) : SongSegment.t :=
  SongSegment.create
    (strip (Re.group m 2))
    (tags_of (kept_tags (Re.findall tag_pattern (Re.group m 1))))
    (strip (Re.group m 3)).

(** The positional merge: a new segment takes the tracks of the old segment
    at its position, while there is one. *)
Fixpoint merge_forward (old new : list SongSegment.t) {struct new} : list SongSegment.t :=
  match new, old with
  | n :: new', o :: old' => SongSegment.merge n o :: merge_forward old' new'
  | _, _ => new
  end.

(** A segment has its [NrStages] lists of [NrTracks] buffers, as
    [create_empty_tracks] makes them and [set_track] and [merge] keep them. *)
Definition segment_shaped (seg : SongSegment.t) : bool :=
  bool_decide (length (SongSegment._tracks seg) = NrStages)
  && forallb (fun row => bool_decide (length row = NrTracks)) (SongSegment._tracks seg).

Definition song_shaped (song : Song.t) : bool :=
  forallb segment_shaped (Song._segments song).

(** The buffer of a segment for a stage and a track (empty where the
    segment has none). *)
Definition tracks_of (seg : SongSegment.t) (istage itrack : nat) : list Z :=
  match SongSegment._tracks seg !! istage with
  | Some row => default [] (row !! itrack)
  | None => []
  end.

(** The stage-0, track-0 cached length of a segment. *)
Definition cached0 (seg : SongSegment.t) : Z := len (tracks_of seg 0 0).

Definition generated (seg : SongSegment.t) : bool := negb (cached0 seg =? 0)%Z.

(** The buffers of the segments for a stage and a track, one after the other. *)
Definition flat_of (istage itrack : nat) (segs : list SongSegment.t) : list Z :=
  concat (map (fun seg => tracks_of seg istage itrack) segs).

(** The boundary table of section 4.5: a record for each segment with
    stage-0, track-0 tokens, from the cursor [dataidx] on. *)
Fixpoint boundaries (dataidx : Z) (segs : list SongSegment.t)
    : list GenerationCache.boundary :=
  match segs with
  | [] => []
  | seg :: rest =>
      if (cached0 seg =? 0)%Z then boundaries dataidx rest
      else (SongSegment._name seg, dataidx, (dataidx + cached0 seg)%Z)
             :: boundaries (dataidx + cached0 seg)%Z rest
  end.

(** No segment without stage-0, track-0 tokens comes before one with. *)
Fixpoint generated_first (segs : list SongSegment.t) : bool :=
  match segs with
  | [] => true
  | seg :: rest =>
      if generated seg then generated_first rest
      else forallb (fun s => negb (generated s)) rest
  end.

(** The buffers of a stage and track follow the boundary table: each
    segment holds [elem_size] elements for each of its stage-0, track-0
    tokens, until one segment holds fewer and those after it hold none. *)
Fixpoint filled (istage itrack : nat) (segs : list SongSegment.t) : bool :=
  match segs with
  | [] => true
  | seg :: rest =>
      let n := len (tracks_of seg istage itrack) in
      let full := (cached0 seg * GenerationCache.elem_size istage)%Z in
      if (n =? full)%Z then filled istage itrack rest
      else (n <? full)%Z
           && forallb (fun s => (len (tracks_of s istage itrack) =? 0)%Z) rest
  end.

Definition song_aligned (song : Song.t) : bool :=
  forallb (fun istage =>
             forallb (fun itrack => filled istage itrack (Song._segments song))
                     (seq 0 NrTracks))
          (seq 0 NrStages).

(** What [transfer_to_song] leaves in a buffer that held [old], for a
    boundary record from [start_token] to [end_token]. *)
Definition new_track (c : GenerationCache.t) (start_token end_token : Z)
    (istage itrack : nat) (old : list Z) : list Z :=
  let tr := GenerationCache.track c istage itrack in
  match GenerationCache.slice_range (len tr) istage start_token end_token with
  | None => old
  | Some (start_pos, end_pos) => slice tr start_pos end_pos
  end.

(** A segment after the transfer of one boundary record. *)
Definition transfer_one (c : GenerationCache.t) (b : GenerationCache.boundary)
    (seg : SongSegment.t) : SongSegment.t :=
  let '(_, start_token, end_token) := b in
  {| SongSegment._name := SongSegment._name seg;
     SongSegment._tags := SongSegment._tags seg;
     SongSegment._lyrics := SongSegment._lyrics seg;
     SongSegment._tracks :=
       imap (fun istage row =>
               imap (fun itrack old => new_track c start_token end_token istage itrack old) row)
            (SongSegment._tracks seg) |}.

(** The segments after the transfer: the record at a position goes to the
    segment at that position. *)
Fixpoint transfer_all (c : GenerationCache.t) (table : list GenerationCache.boundary)
    (segs : list SongSegment.t) {struct table} : list SongSegment.t :=
  match table, segs with
  | b :: table', seg :: segs' => transfer_one c b seg :: transfer_all c table' segs'
  | _, _ => segs
  end.

(** The end of the last record, or the cursor when there is none. *)
Definition table_end (dataidx : Z) (table : list GenerationCache.boundary) : Z :=
  match last table with
  | Some (_, _, end_) => end_
  | None => dataidx
  end.

(** The decimal numeral of a natural number. *)
Definition decimal (n : N) : string := NilZero.string_of_uint (N.to_uint n).

(** The binary64 float of a positive integer of at most 53 binary digits:
    the integer, shifted to a mantissa of 53 digits. *)
Definition binary64_of_pos (v : positive) : spec_float :=
  S754_finite false
    (Pos.shiftl v (Z.to_N (53 - Zpos (digits2_pos v))))
    (Zpos (digits2_pos v) - 53).

(** The songs the methods of the program make, starting from [Song()]. *)
Inductive song_reachable : Song.t -> Prop :=
| reach_init : song_reachable Song.init
| reach_set_lyrics song text song' :
    song_reachable song ->
    Song.set_lyrics song text = Ok song' ->
    song_reachable song'
| reach_set_track song iseg istage itrack tr song' :
    song_reachable song ->
    Song.set_track song iseg istage itrack tr = Ok song' ->
    song_reachable song'
| reach_clear_cache song istage song' :
    song_reachable song ->
    Song.clear_cache song istage = Ok song' ->
    song_reachable song'
| reach_transfer c song song' :
    song_reachable song ->
    GenerationCache.transfer_to_song c song = Ok song' ->
    song_reachable song'.

(** A segment with the buffers of a stage emptied, as [clear_cache] leaves it. *)
Definition clear_stage (istage : nat) (seg : SongSegment.t) : SongSegment.t :=
  {| SongSegment._name := SongSegment._name seg;
     SongSegment._tags := SongSegment._tags seg;
     SongSegment._lyrics := SongSegment._lyrics seg;
     SongSegment._tracks := <[ istage := replicate NrTracks [] ]> (SongSegment._tracks seg) |}.

(** The tokens a segment counts for in [Song.length]: its [length] tag, or
    the default track length when it has none. *)
Definition segment_length (default_length : Z) (seg : SongSegment.t) : Z :=
  match SongSegment.track_length seg with
  | Some (TagInt n) => n
  | _ => default_length
  end.

(** The [length] tag of a segment, when it has one, is an integer. *)
Definition length_tag_is_int (seg : SongSegment.t) : bool :=
  match SongSegment.track_length seg with
  | Some (TagStr _) => false
  | _ => true
  end.

(** *** What the patterns match, without the matcher *)

(** A character at which the lyrics of a section end: [[] or [#]. *)
Definition is_stop (c : ascii) : bool :=
  bool_decide (c = "["%char) || bool_decide (c = "#"%char).

(** The longest front of [s] made of word characters, and what follows it. *)
Fixpoint span_word (s : string) : string * string :=
  match s with
  | String c s' =>
      if isword c then let '(w, r) := span_word s' in (String c w, r)
      else (EmptyString, s)
  | EmptyString => (EmptyString, EmptyString)
  end.

(** The front of [s] up to its first [[] or [#], and what follows it. *)
Fixpoint span_body (s : string) : string * string :=
  match s with
  | String c s' =>
      if is_stop c then (EmptyString, s)
      else let '(b, r) := span_body s' in (String c b, r)
  | EmptyString => (EmptyString, EmptyString)
  end.

(** A section at the front of [s]: [[], one word character or more, []],
    and the text up to the next [[] or [#]. Its name, its text, and what is
    left of [s]. *)
Definition section_at (s : string) : option (string * string * string) :=
  match s with
  | String "[" s1 =>
      match span_word s1 with
      | (String c w, String "]" s2) =>
          let '(b, r) := span_body s2 in Some (String c w, b, r)
      | _ => None
      end
  | _ => None
  end.

(** The first place in [s] at which a section stands: what is left of [s]
    there, with the section. *)
Fixpoint find_section (s : string) : option (string * (string * string * string)) :=
  match section_at s with
  | Some h => Some (s, h)
  | None =>
      match s with
      | String _ s' => find_section s'
      | EmptyString => None
      end
  end.

(** One match of [pattern] at the front of [s]: a section, or a [#] with
    the first section after it; its length and its groups. *)
Definition pattern_match (s : string) : option (nat * Re.captures) :=
  match s with
  | String "#" s1 =>
      match find_section s1 with
      | Some (t, (name, body, rest)) =>
          Some (String.length s - String.length rest,
                <[ 3 := body ]> (<[ 2 := name ]> (<[ 1 := Re.consumed s t ]> ∅)))
      | None => None
      end
  | _ =>
      match section_at s with
      | Some (name, body, rest) =>
          Some (String.length s - String.length rest,
                <[ 3 := body ]> (<[ 2 := name ]> ∅))
      | None => None
      end
  end.

(** Every character of [s] satisfies [p]. *)
Fixpoint all_chars (p : ascii -> bool) (s : string) : bool :=
  match s with
  | String c s' => p c && all_chars p s'
  | EmptyString => true
  end.

(** A segment as the parser makes it: a name of word characters, one at
    least, and lyrics without [[] and [#] and without white space at their
    ends. *)
Definition canonical_segment (seg : SongSegment.t) : bool :=
  negb (bool_decide (SongSegment._name seg = EmptyString))
  && all_chars isword (SongSegment._name seg)
  && all_chars (fun c => negb (is_stop c)) (SongSegment._lyrics seg)
  && bool_decide (strip (SongSegment._lyrics seg) = SongSegment._lyrics seg).

(** [s] is at its end, or goes on with a character that satisfies [p]. *)
Definition ends_or_starts (p : ascii -> bool) (s : string) : bool :=
  match s with
  | String c _ => p c
  | EmptyString => true
  end.

(** The sections [[name] body], one after the other. *)
Fixpoint blocks (l : list (string * string)) : string :=
  match l with
  | [] => EmptyString
  | (name, body) :: l' => "[" +:+ name +:+ "]" +:+ body +:+ blocks l'
  end.

(** A segment without its tags. *)
Definition without_tags (seg : SongSegment.t) : SongSegment.t :=
  {| SongSegment._name := SongSegment._name seg;
     SongSegment._tags := ∅;
     SongSegment._lyrics := SongSegment._lyrics seg;
     SongSegment._tracks := SongSegment._tracks seg |}.

(** A section that [blocks] can hold: a name of word characters, one at
    least, and a text without [[] and [#]. *)
Definition block_ok (nb : string * string) : Prop :=
  nb.1 <> EmptyString /\ all_chars isword nb.1 = true
  /\ all_chars (fun c => negb (is_stop c)) nb.2 = true.

(** The section a segment is printed as, in front of more text. *)
Definition printed (seg : SongSegment.t) : string * string :=
  (SongSegment._name seg, LF +:+ SongSegment._lyrics seg +:+ LF +:+ LF +:+ LF).

(** The front of [s] up to its first [#], and what follows it. *)
Fixpoint span_value (s : string) : string * string :=
  match s with
  | String c s' =>
      if bool_decide (c = "#"%char) then (EmptyString, s)
      else let '(v, r) := span_value s' in (String c v, r)
  | EmptyString => (EmptyString, EmptyString)
  end.

(** A tag at the front of [s]: [#], one word character or more, and the
    text up to the next [#]. Its name, its value, and what is left of [s]. *)
Definition tag_at (s : string) : option (string * string * string) :=
  match s with
  | String "#" s1 =>
      match span_word s1 with
      | (String c w, r) => let '(v, rest) := span_value r in Some (String c w, v, rest)
      | _ => None
      end
  | _ => None
  end.

(** A script, written down: for each section its tags, [#name] and the
    value behind it, then [[name]] and the lyrics. *)
Definition tags_text (tags : list (string * string)) : string :=
  foldr (fun kv text => "#" +:+ kv.1 +:+ kv.2 +:+ text) EmptyString tags.

Fixpoint script_of (items : list (list (string * string) * string * string)) : string :=
  match items with
  | [] => EmptyString
  | (tags, name, lyrics) :: items' =>
      tags_text tags +:+ "[" +:+ name +:+ "]" +:+ lyrics +:+ script_of items'
  end.

(** The tags a section of a script is written with, as the parser keeps
    them: under the name in lower case the value without the white space
    around it, coerced; a tag whose value does not coerce is left out. *)
Definition tags_written (tags : list (string * string)) : gmap string TagValue :=
  foldl (fun m kv =>
           match parse_tag (lower kv.1) (strip kv.2) with
           | Ok v => <[ lower kv.1 := v ]> m
           | Raise _ => m
           end) ∅ tags.

(** A tag that can be read back: its name is one word character or more,
    its value does not go on with a word character and holds no [#] and
    no [[]. *)
Definition tag_ok (kv : string * string) : Prop :=
  kv.1 <> EmptyString
  /\ all_chars isword kv.1 = true
  /\ ends_or_starts (fun c => negb (isword c)) kv.2 = true
  /\ all_chars (fun c => negb (is_stop c)) kv.2 = true.

(** A section that can be read back: such tags, a name of one word
    character or more, and lyrics without [[] and [#]. *)
Definition item_ok (item : list (string * string) * string * string) : Prop :=
  Forall tag_ok item.1.1
  /\ item.1.2 <> EmptyString
  /\ all_chars isword item.1.2 = true
  /\ all_chars (fun c => negb (is_stop c)) item.2 = true.

(** * Properties *)

(** ** Lists, slices and loops *)

Section PyLists.
Context {A : Type}.
Implicit Types (xs ys : list A) (x y : A).

Lemma getitem_Ok xs i x : xs !! i = Some x -> getitem xs i = Ok x.
Proof. unfold getitem. by intros ->. Qed.

Lemma getitem_snoc xs x : getitem (xs ++ [x]) (length xs) = Ok x.
Proof. apply getitem_Ok. by rewrite lookup_app_r, Nat.sub_diag. Qed.

Lemma setitem_Ok xs i x : i < length xs -> setitem xs i x = Ok (<[ i := x ]> xs).
Proof. unfold setitem. intros. by case_decide. Qed.

Lemma setitem_snoc xs x y : setitem (xs ++ [x]) (length xs) y = Ok (xs ++ [y]).
Proof.
  rewrite setitem_Ok by (rewrite length_app; simpl; lia).
  f_equal. rewrite insert_app_r_alt, Nat.sub_diag by lia. done.
Qed.

Lemma slice_spec xs (lo hi : nat) :
  lo <= hi <= length xs ->
  slice xs (Z.of_nat lo) (Z.of_nat hi) = take (hi - lo) (drop lo xs).
Proof.
  intros H. unfold slice, slice_bound, len.
  repeat case_match; try lia.
  f_equal; [| f_equal]; lia.
Qed.

Lemma drop_last_snoc xs x : drop_last (xs ++ [x]) = xs.
Proof.
  unfold drop_last, slice, slice_bound, len.
  rewrite length_app. simpl.
  rewrite Z.min_l, Z.sub_0_r, Z.max_r by lia.
  replace (Z.to_nat _) with (length xs) by lia.
  change (Z.to_nat 0) with 0%nat. by rewrite drop_0, take_app_length.
Qed.

End PyLists.

(** ** [GenerationCache.rewind] *)

Section Rewind.
Import GenerationCache.
Implicit Types (segs : list boundary) (tokens : Z).
Local Open Scope Z_scope.

Lemma total_length_snoc segs b :
  total_length (segs ++ [b]) = total_length segs + boundary_length b.
Proof. induction segs as [|a segs IH]; simpl; lia. Qed.

(** One turn of the loop, seen from the last record. *)
Lemma rewind_loop_snoc segs name start end_ tokens :
  rewind_loop (length (segs ++ [(name, start, end_)])) tokens (segs ++ [(name, start, end_)])
  = if tokens >? end_ - start
    then rewind_loop (length segs) (tokens - (end_ - start)) segs
    else Ok (segs ++ [(name, start, end_ - tokens)]).
Proof.
  rewrite length_app, Nat.add_1_r. simpl.
  rewrite getitem_snoc. simpl.
  by rewrite drop_last_snoc, setitem_snoc.
Qed.

(** The loop ends without an exception, whatever the table holds. *)
Lemma rewind_loop_total segs tokens :
  exists segs', rewind_loop (length segs) tokens segs = Ok segs'.
Proof.
  revert tokens. induction segs as [|[[name start] end_] segs IH] using rev_ind; intros tokens.
  - by exists [].
  - rewrite rewind_loop_snoc. case_match; eauto.
Qed.

Lemma forallb_snoc {A} (p : A -> bool) xs x :
  forallb p (xs ++ [x]) = forallb p xs && p x.
Proof. rewrite forallb_app. simpl. by rewrite andb_true_r. Qed.

Lemma total_length_nonneg segs :
  forallb boundary_ordered segs = true -> 0 <= total_length segs.
Proof.
  induction segs as [|b segs IH]; simpl; [lia|].
  intros [Hb Hs]%andb_prop. unfold boundary_ordered in Hb. apply IH in Hs. lia.
Qed.

(** Rewinding keeps every record ordered, for any duration. *)
Lemma rewind_loop_ordered segs tokens segs' :
  forallb boundary_ordered segs = true ->
  rewind_loop (length segs) tokens segs = Ok segs' ->
  forallb boundary_ordered segs' = true.
Proof.
  revert tokens. induction segs as [|[[name start] end_] segs IH] using rev_ind; intros tokens.
  - simpl. by intros _ [= <-].
  - rewrite rewind_loop_snoc, forallb_snoc.
    intros [Hs Hb]%andb_prop. unfold boundary_ordered in Hb. simpl in Hb.
    case_match eqn:Hcmp.
    + by apply IH.
    + intros [= <-]. rewrite forallb_snoc, Hs. unfold boundary_ordered. simpl. lia.
Qed.

(** More tokens than any tail of the table holds: every record goes. *)
Lemma rewind_loop_exceeds segs tokens :
  forallb boundary_ordered segs = true ->
  total_length segs < tokens ->
  rewind_loop (length segs) tokens segs = Ok [].
Proof.
  revert tokens. induction segs as [|[[name start] end_] segs IH] using rev_ind; intros tokens.
  - done.
  - rewrite rewind_loop_snoc, forallb_snoc, total_length_snoc.
    intros [Hs Hb]%andb_prop Hlt. unfold boundary_ordered in Hb. simpl in *.
    pose proof (total_length_nonneg _ Hs).
    case_match eqn:Hcmp; [|lia].
    apply IH; [done|lia].
Qed.

(** What is left after a rewind of an ordered, non-empty table. *)
Lemma rewind_loop_total_length segs tokens segs' :
  forallb boundary_ordered segs = true ->
  segs <> [] ->
  rewind_loop (length segs) tokens segs = Ok segs' ->
  total_length segs' = Z.max 0 (total_length segs - tokens)
  /\ (segs' = [] -> total_length segs < tokens).
Proof.
  revert tokens. induction segs as [|[[name start] end_] segs IH] using rev_ind; intros tokens.
  - done.
  - rewrite rewind_loop_snoc, forallb_snoc, total_length_snoc.
    intros [Hs Hb]%andb_prop _. unfold boundary_ordered in Hb. simpl in *.
    pose proof (total_length_nonneg _ Hs).
    case_match eqn:Hcmp.
    + destruct (decide (segs = [])) as [->|Hne].
      * simpl. intros [= <-]. simpl. lia.
      * intros Hr. destruct (IH _ Hs Hne Hr) as [-> Himp].
        split; [lia|]. intros E. specialize (Himp E). lia.
    + intros [= <-]. rewrite total_length_snoc. simpl. split; [lia|].
      by intros ?%app_eq_nil%proj2.
Qed.

End Rewind.

Section RewindClaims.
Import GenerationCache.
Local Open Scope Z_scope.

Lemma rewind_Ok c timems :
  exists segs',
    rewind_loop (length (_segments c)) (timems / 20) (_segments c) = Ok segs'
    /\ rewind c timems = Ok {| _tracks := _tracks c; _segments := segs' |}.
Proof.
  destruct (rewind_loop_total (_segments c) (timems / 20)) as [segs' H].
  exists segs'. split; [done|]. unfold rewind. by rewrite H.
Qed.

(** [rewind] keeps the cache ordered. *)
Lemma rewind_ordered c timems c' :
  cache_ordered c = true -> rewind c timems = Ok c' -> cache_ordered c' = true.
Proof.
  intros Ho. destruct (rewind_Ok c timems) as (segs' & Hl & ->). intros [= <-].
  unfold cache_ordered in *. simpl. eauto using rewind_loop_ordered.
Qed.

(** The total left by one rewind of an ordered cache. *)
Lemma rewind_total c timems :
  cache_ordered c = true ->
  exists c', rewind c timems = Ok c' /\ cache_ordered c' = true
    /\ (_segments c = [] -> _segments c' = [])
    /\ (_segments c <> [] ->
          total_length (_segments c') = Z.max 0 (total_length (_segments c) - timems / 20)
          /\ (_segments c' = [] -> total_length (_segments c) < timems / 20)).
Proof.
  intros Ho. destruct (rewind_Ok c timems) as (segs' & Hl & Hr).
  eexists. split; [exact Hr|]. split; [by eapply rewind_ordered|]. simpl. split.
  - intros E. rewrite E in Hl. simpl in Hl. congruence.
  - intros Hne. by eapply rewind_loop_total_length.
Qed.

(** C2, as the code has it: a rewind by strictly more tokens than an
    ordered cache holds, or of a cache whose boundary table is empty
    already, leaves the boundary table empty, keeps the flat buffers and
    raises nothing. *)
Theorem rewind_beyond_total_empties c timems :
  cache_ordered c = true ->
  total_length (_segments c) < timems / 20 \/ _segments c = [] ->
  rewind_empties c timems.
Proof.
  intros Ho Hlt. destruct (rewind_Ok c timems) as (segs' & Hl & Hr).
  exists {| _tracks := _tracks c; _segments := segs' |}.
  split; [done|]. split; [|done]. simpl.
  destruct Hlt as [Hlt|Hnil].
  - rewrite rewind_loop_exceeds in Hl by done. congruence.
  - rewrite Hnil in Hl. simpl in Hl. congruence.
Qed.

(** A rewind by exactly the cached length keeps a record of length zero:
    the table is not empty. *)
Lemma rewind_exact_total_keeps_record :
  let c := {| _tracks := [[[1; 2; 3; 4; 5; 6; 7; 8; 9; 10]; []]; [[]; []]];
              _segments := [("verse"%string, 0, 10)] |} in
  total_length (_segments c) <= 200 / 20
  /\ rewind c 200 = Ok {| _tracks := _tracks c; _segments := [("verse"%string, 0, 0)] |}
  /\ ~ rewind_empties c 200.
Proof.
  split; [by vm_compute|]. split; [reflexivity|].
  intros (c' & Hr & Hs & _). vm_compute in Hr. injection Hr as <-. discriminate.
Qed.

Lemma rewind_beyond_total_empties_witness :
  let c := {| _tracks := [[[1; 2; 3; 4; 5; 6; 7; 8; 9; 10]; []]; [[]; []]];
              _segments := [("intro"%string, 0, 4); ("verse"%string, 4, 10)] |} in
  rewind_empties c 220.
Proof.
  intros c. apply (rewind_beyond_total_empties c 220); [reflexivity|left; reflexivity].
Defined.

(** The order of the records matters: with a record that ends before it
    starts, more tokens than the total can leave records behind. *)
Lemma rewind_unordered_not_emptied :
  let c := {| _tracks := []; _segments := [("a"%string, 0, -5); ("b"%string, 0, 10)] |} in
  total_length (_segments c) < 120 / 20 /\ ~ rewind_empties c 120.
Proof.
  split; [by vm_compute|].
  intros (c' & Hr & Hs & _). vm_compute in Hr. injection Hr as <-. discriminate.
Qed.

Lemma remaining_one c d :
  remaining c [d] = bind (rewind c d) (fun c' => Ok (total_length (_segments c'))).
Proof. unfold remaining. simpl. by destruct (rewind c d). Qed.

Lemma remaining_two c d1 d2 :
  remaining c [d1; d2] = bind (rewind c d1) (fun c1 => remaining c1 [d2]).
Proof. unfold remaining. simpl. by destruct (rewind c d1). Qed.

(** C3, as the code has it: two rewinds in a row of an ordered cache leave
    at least as much as one rewind of the summed duration, since each
    duration is floored to whole tokens on its own; they leave the same
    when the two remainders modulo 20 ms do not add up to a token. *)
Theorem rewind_split_keeps_no_less c d1 d2 :
  cache_ordered c = true ->
  0 <= d2 ->
  exists a b,
    remaining c [d1; d2] = Ok a
    /\ remaining c [d1 + d2] = Ok b
    /\ b <= a
    /\ (d1 mod 20 + d2 mod 20 < 20 -> a = b).
Proof.
  intros Ho Hd2.
  destruct (rewind_total c d1 Ho) as (c1 & Hr1 & Ho1 & Hnil1 & Hne1).
  destruct (rewind_total c1 d2 Ho1) as (c2 & Hr2 & _ & Hnil2 & Hne2).
  destruct (rewind_total c (d1 + d2) Ho) as (c12 & Hr12 & _ & Hnil12 & Hne12).
  exists (total_length (_segments c2)), (total_length (_segments c12)).
  rewrite remaining_two, Hr1. simpl. rewrite !remaining_one, Hr2, Hr12. simpl.
  split; [done|]. split; [done|].
  assert (Hdiv : d1 / 20 + d2 / 20 <= (d1 + d2) / 20
                 /\ (d1 mod 20 + d2 mod 20 < 20 -> (d1 + d2) / 20 = d1 / 20 + d2 / 20)
                 /\ 0 <= d2 / 20) by (Z.div_mod_to_equations; lia).
  destruct Hdiv as (Hle & Heq & Hpos).
  destruct (decide (_segments c = [])) as [E|Hne].
  { rewrite (Hnil12 E), (Hnil2 (Hnil1 E)). simpl. lia. }
  destruct (Hne1 Hne) as [Ht1 He1]. destruct (Hne12 Hne) as [Ht12 _].
  pose proof (total_length_nonneg (_segments c) Ho) as Hnn.
  destruct (decide (_segments c1 = [])) as [E1|Hne1'].
  { rewrite (Hnil2 E1), Ht12. specialize (He1 E1). simpl. lia. }
  destruct (Hne2 Hne1') as [Ht2 _].
  rewrite Ht2, Ht12, Ht1. lia.
Qed.

(** Two rewinds of 10 ms drop nothing, one rewind of 20 ms drops a token:
    the split rewind leaves more, not less. *)
Lemma rewind_split_leaves_more :
  let c := {| _tracks := [[[1; 2; 3; 4; 5; 6; 7; 8; 9; 10]; []]; [[]; []]];
              _segments := [("verse"%string, 0, 10)] |} in
  0 <= 10
  /\ remaining c [10; 10] = Ok 10
  /\ remaining c [10 + 10] = Ok 9
  /\ ~ (exists a b,
          remaining c [10; 10] = Ok a /\ remaining c [10 + 10] = Ok b /\ a <= b).
Proof.
  split; [lia|]. split; [reflexivity|]. split; [reflexivity|].
  intros (a & b & Ha & Hb & Hle). vm_compute in Ha, Hb.
  injection Ha as <-. injection Hb as <-. lia.
Qed.

(** Three segments of 1000 tokens: 500 ms and 500 ms drop 50 tokens, as
    1000 ms at once does. *)
Lemma rewind_split_keeps_no_less_witness :
  let c := {| _tracks := [];
              _segments := [("a"%string, 0, 1000); ("b"%string, 1000, 2000);
                            ("c"%string, 2000, 3000)] |} in
  exists a b,
    remaining c [500; 500] = Ok a /\ remaining c [500 + 500] = Ok b
    /\ b <= a /\ (500 mod 20 + 500 mod 20 < 20 -> a = b).
Proof.
  intros c. apply (rewind_split_keeps_no_less c 500 500); [reflexivity|lia].
Defined.

Lemma rewind_500_500_is_1000 :
  let c := {| _tracks := [];
              _segments := [("a"%string, 0, 1000); ("b"%string, 1000, 2000);
                            ("c"%string, 2000, 3000)] |} in
  total_length (_segments c) = 3000
  /\ remaining c [500; 500] = Ok 2950
  /\ remaining c [1000] = Ok 2950.
Proof. repeat split; reflexivity. Qed.

(** With a record that ends before it starts the comparison can go the
    other way. *)
Lemma rewind_split_unordered :
  let c := {| _tracks := []; _segments := [("a"%string, 0, -4); ("b"%string, 0, 10)] |} in
  remaining c [19; 201] = Ok (-4) /\ remaining c [19 + 201] = Ok 0.
Proof. split; reflexivity. Qed.
End RewindClaims.

(** ** The parser *)

Section Parser.
Implicit Types (tags : gmap string TagValue) (raw : list Re.captures).

Lemma parse_lyrics_tag_Ok tag tags :
  parse_lyrics_tag tag tags
  = Ok match parse_tag (tag_name_of tag) (tag_data_of tag) with
       | Ok v => <[ tag_name_of tag := v ]> tags
       | Raise _ => tags
       end.
Proof.
  unfold parse_lyrics_tag. fold (tag_name_of tag) (tag_data_of tag).
  by destruct (parse_tag _ _).
Qed.

(** The tag loop never raises: it inserts the tags that coerce. *)
Lemma parse_tags_Ok raw tags :
  for_each raw parse_lyrics_tag tags
  = Ok (foldl (fun m e => <[ e.1 := e.2 ]> m) tags (kept_tags raw)).
Proof.
  revert tags. induction raw as [|tag raw IH]; intros tags; [done|].
  simpl. rewrite parse_lyrics_tag_Ok. simpl. rewrite IH. unfold kept_tags. simpl.
  by destruct (parse_tag _ _).
Qed.

Lemma parse_lyrics_segment_Ok m segs :
  parse_lyrics_segment m segs = Ok (segs ++ [segment_of_match m]).
Proof. unfold parse_lyrics_segment. by rewrite parse_tags_Ok. Qed.

Lemma parse_segments_Ok (ms : list Re.captures) segs :
  for_each ms parse_lyrics_segment segs = Ok (segs ++ map segment_of_match ms).
Proof.
  revert segs. induction ms as [|m ms IH]; intros segs; simpl.
  - by rewrite app_nil_r.
  - rewrite parse_lyrics_segment_Ok. simpl. by rewrite IH, <- app_assoc.
Qed.

(** [parse_lyrics] is total: one segment per match of [pattern]. *)
Lemma parse_lyrics_Ok script :
  parse_lyrics script = Ok (map segment_of_match (Re.findall pattern script)).
Proof. unfold parse_lyrics. by rewrite parse_segments_Ok. Qed.

Lemma tags_of_fold_lookup (es : list (string * TagValue)) tags k :
  is_Some (foldl (fun m e => <[ e.1 := e.2 ]> m) tags es !! k)
  <-> is_Some (tags !! k) \/ exists v, (k, v) ∈ es.
Proof.
  revert tags. induction es as [|[k' v'] es IH]; intros tags; simpl.
  - split; [auto|]. intros [?|[v Hv]]; [done|]. by apply elem_of_nil in Hv.
  - rewrite IH. simpl. destruct (decide (k' = k)) as [->|Hne].
    + rewrite lookup_insert_eq. split; [|by eauto].
      intros _. right. exists v'. left.
    + rewrite lookup_insert_ne by done. split.
      * intros [?|[v Hv]]; [by left|]. right. exists v. by right.
      * intros [?|[v Hv]]; [by left|]. right. exists v.
        apply elem_of_cons in Hv as [[= -> ->]|Hv]; done.
Qed.

(** A name is in the mapping of a block exactly when one of the block's tags
    of that name coerces. *)
Lemma kept_tags_lookup raw k :
  is_Some (tags_of (kept_tags raw) !! k)
  <-> exists tag, tag ∈ raw /\ tag_name_of tag = k
        /\ is_ok (parse_tag (tag_name_of tag) (tag_data_of tag)) = true.
Proof.
  unfold tags_of. rewrite tags_of_fold_lookup, lookup_empty. split.
  - intros [[? [=]]|[v Hv]]. unfold kept_tags in Hv.
    apply list_elem_of_omap in Hv as (tag & Hin & Hp).
    exists tag. destruct (parse_tag _ _) eqn:E; [|done].
    injection Hp as <- <-. done.
  - intros (tag & Hin & <- & Hok). right.
    destruct (parse_tag (tag_name_of tag) (tag_data_of tag)) as [v|] eqn:E; [|done].
    exists v. unfold kept_tags. apply list_elem_of_omap. exists tag. by rewrite E.
Qed.
End Parser.

(** ** Numerals *)

Ltac eval_digit :=
  repeat match goal with
  | |- context [isdigit ?c] => change (isdigit c) with true; cbv iota
  | |- context [digit_value ?c] =>
      let v := eval vm_compute in (digit_value c) in change (digit_value c) with v
  end.

Section Numerals.
Local Open Scope N_scope.

Lemma digits_rest_pos d p k :
  digits_rest (Npos p) k (NilEmpty.string_of_uint d)
  = (Npos (Pos.of_uint_acc d p), (k + String.length (NilEmpty.string_of_uint d))%nat,
     EmptyString).
Proof.
  revert p k. induction d as [|d IH|d IH|d IH|d IH|d IH|d IH|d IH|d IH|d IH|d IH]; intros p k;
    [simpl; by rewrite Nat.add_0_r|..];
    cbn [NilEmpty.string_of_uint digits_rest Pos.of_uint_acc String.length]; eval_digit;
    match goal with
    | |- context [Pos.of_uint_acc d ?q] =>
        replace (10 * N.pos p + _) with (N.pos q) by lia;
        rewrite IH; do 2 f_equal; lia
    end.
Qed.

Lemma digits_rest_zero d k :
  digits_rest 0 k (NilEmpty.string_of_uint d)
  = (N.of_uint d, (k + String.length (NilEmpty.string_of_uint d))%nat, EmptyString).
Proof.
  revert k. induction d as [|d IH|d IH|d IH|d IH|d IH|d IH|d IH|d IH|d IH|d IH]; intros k;
    [simpl; by rewrite Nat.add_0_r|..];
    cbn [NilEmpty.string_of_uint digits_rest String.length]; eval_digit;
    [change (10 * 0 + 0) with 0;
     rewrite IH; unfold N.of_uint; cbn [Pos.of_uint]; do 2 f_equal; lia|..];
    match goal with
    | |- context [digits_rest (_ + N.pos ?q) _ _] =>
        change (10 * 0 + N.pos q) with (N.pos q);
        rewrite digits_rest_pos; unfold N.of_uint; cbn [Pos.of_uint]; do 2 f_equal; lia
    end.
Qed.

Lemma rstrip_num_digits d :
  rstrip_num (NilEmpty.string_of_uint d) = NilEmpty.string_of_uint d.
Proof.
  induction d; simpl; [done|..]; rewrite IHd; by destruct (NilEmpty.string_of_uint d).
Qed.

Lemma strip_num_digits d :
  d <> Decimal.Nil -> strip_num (NilEmpty.string_of_uint d) = NilEmpty.string_of_uint d.
Proof.
  intros Hd. unfold strip_num.
  replace (lstrip_num (NilEmpty.string_of_uint d)) with (NilEmpty.string_of_uint d)
    by (by destruct d).
  apply rstrip_num_digits.
Qed.

(** The digits of a numeral are read to its end. *)
Lemma digitpart_digits d :
  d <> Decimal.Nil ->
  digitpart (NilEmpty.string_of_uint d)
  = (N.of_uint d, String.length (NilEmpty.string_of_uint d), EmptyString).
Proof.
  intros Hd. destruct d as [|d|d|d|d|d|d|d|d|d|d]; [done|..];
    cbn [NilEmpty.string_of_uint digitpart String.length]; eval_digit;
    [by rewrite digits_rest_zero|..];
    match goal with
    | |- context [digits_rest (N.pos ?q) _ _] => by rewrite digits_rest_pos
    end.
Qed.

Lemma decimal_digits (n : N) :
  exists d, d <> Decimal.Nil /\ decimal n = NilEmpty.string_of_uint d /\ N.of_uint d = n.
Proof.
  unfold decimal. pose proof (DecimalN.Unsigned.of_to n) as H.
  destruct (N.to_uint n) as [|d|d|d|d|d|d|d|d|d|d] eqn:E;
    [exists (Decimal.D0 Decimal.Nil); by rewrite <- H|..];
    eexists; (split; [|split; [reflexivity|exact H]]); done.
Qed.

(** [int] reads a decimal numeral back. *)
Lemma int_decimal (n : N) :
  (String.length (decimal n) <= max_str_digits)%nat -> int (decimal n) = Ok (Z.of_N n).
Proof.
  destruct (decimal_digits n) as (d & Hd & -> & Hval). intros Hlen.
  unfold int. rewrite strip_num_digits by done.
  replace (sign (NilEmpty.string_of_uint d)) with (false, NilEmpty.string_of_uint d)
    by (by destruct d).
  rewrite digitpart_digits, Hval by done.
  destruct (String.length (NilEmpty.string_of_uint d)) as [|m] eqn:E; [by destruct d|].
  by apply Nat.ltb_ge in Hlen as ->.
Qed.

Lemma endswith_snoc s c : endswith (s +:+ String c EmptyString) c = true.
Proof.
  induction s as [|a s IH]; simpl; [by apply bool_decide_eq_true|].
  rewrite IH. by destruct (s +:+ _).
Qed.

Lemma str_drop_last_snoc s c : str_drop_last (s +:+ String c EmptyString) = s.
Proof.
  induction s as [|a s IH]; simpl; [done|].
  rewrite IH. destruct s; [done|]. done.
Qed.

(** [int] of a float cuts the fraction off, toward zero. *)
Lemma int_of_float_truncates s m e :
  (e < 0)%Z ->
  int_of_float (S754_finite s m e)
  = Ok (if s then - (Zpos m / 2 ^ (- e)) else Zpos m / 2 ^ (- e))%Z.
Proof.
  intros He. unfold int_of_float.
  by rewrite Z.shiftl_div_pow2 by lia.
Qed.
End Numerals.

(** ** Floats that are whole numbers *)

Section WholeFloats.
Local Open Scope Z_scope.

Lemma iter_pos_iter {A} (f : A -> A) n x : SpecFloat.iter_pos f n x = Pos.iter f x n.
Proof.
  revert x. induction n as [n IH|n IH|]; intros x; simpl; [|by rewrite !IH|done].
  by rewrite !IH, !Pos.iter_swap.
Qed.

(** Shifting out the zeros that a shift to the left put in loses nothing. *)
Lemma shr_exact k q :
  Pos.iter shr_1 {| shr_m := Zpos (Pos.iter xO q k); shr_r := false; shr_s := false |} k
  = {| shr_m := Zpos q; shr_r := false; shr_s := false |}.
Proof.
  induction k as [|k IH] using Pos.peano_ind; [done|].
  by rewrite Pos.iter_succ_r, Pos.iter_succ.
Qed.

Lemma digits2_pos_shiftl q (k : N) :
  Zpos (digits2_pos (Pos.shiftl q k)) = Zpos (digits2_pos q) + Z.of_N k.
Proof.
  unfold Pos.shiftl. destruct k as [|k]; [lia|].
  induction k as [|k IH] using Pos.peano_ind; [simpl; lia|].
  rewrite Pos.iter_succ. cbn [digits2_pos]. lia.
Qed.

(** A mantissa of 53 digits with zeros below it is rounded to itself. *)
Lemma binary_round_aux_exact s T (k : N) E :
  Zpos (digits2_pos T) = 53 ->
  -1074 <= E <= 971 ->
  binary_round_aux prec emax s (Zpos (Pos.shiftl T k)) (E - Z.of_N k) loc_Exact
  = S754_finite s T E.
Proof.
  intros HT HE. unfold binary_round_aux.
  assert (Hfexp : forall d, d = 53 -> fexp prec emax (d + E) = E).
  { intros d ->. unfold fexp, emin, prec, emax. lia. }
  assert (H1 : shr_fexp prec emax (Zpos (Pos.shiftl T k)) (E - Z.of_N k) loc_Exact
               = ({| shr_m := Zpos T; shr_r := false; shr_s := false |}, E)).
  { unfold shr_fexp. cbn [Zdigits2]. rewrite digits2_pos_shiftl, HT.
    replace (53 + Z.of_N k + (E - Z.of_N k)) with (53 + E) by lia.
    rewrite Hfexp by done.
    replace (E - (E - Z.of_N k)) with (Z.of_N k) by lia.
    unfold shr, shr_record_of_loc, Pos.shiftl.
    destruct k as [|k]; cbn [Z.of_N]; [by rewrite Z.sub_0_r|].
    rewrite iter_pos_iter, shr_exact. f_equal. lia. }
  rewrite H1. cbn [shr_m loc_of_shr_record round_nearest_even].
  assert (H2 : shr_fexp prec emax (Zpos T) E loc_Exact
               = ({| shr_m := Zpos T; shr_r := false; shr_s := false |}, E)).
  { unfold shr_fexp. cbn [Zdigits2]. rewrite HT, Hfexp by done. by rewrite Z.sub_diag. }
  rewrite H2. cbn [shr_m]. unfold emax, prec.
  replace (E <=? 1024 - 53) with true by lia. done.
Qed.

Lemma digits2_pos_size v : digits2_pos v = Pos.size v.
Proof. induction v; simpl; by rewrite ?IHv. Qed.

(** A positive number of [d] binary digits lies from [2^(d-1)] up to [2^d]. *)
Lemma digits2_pos_spec v :
  2 ^ (Zpos (digits2_pos v) - 1) <= Zpos v < 2 ^ Zpos (digits2_pos v).
Proof.
  rewrite digits2_pos_size. split.
  - pose proof (Pos.size_le v) as H.
    assert (H' : 2 ^ Zpos (Pos.size v) <= 2 * Zpos v) by (rewrite <- Pos2Z.inj_pow; lia).
    replace (Zpos (Pos.size v)) with (Z.succ (Zpos (Pos.size v) - 1)) in H' by lia.
    rewrite Z.pow_succ_r in H' by lia. lia.
  - pose proof (Pos.size_gt v) as H. rewrite <- Pos2Z.inj_pow. lia.
Qed.

Lemma digits2_pos_le v (n : Z) : Zpos v < 2 ^ n -> Zpos (digits2_pos v) <= n.
Proof.
  intros H. destruct (digits2_pos_spec v) as [Hlo _].
  destruct (Z.le_gt_cases (Zpos (digits2_pos v)) n) as [|Hgt]; [done|].
  assert (2 ^ n <= 2 ^ (Zpos (digits2_pos v) - 1)); [|lia].
  apply Z.pow_le_mono_r; [lia|]. lia.
Qed.

Lemma Zpos_shiftl v (k : N) : Zpos (Pos.shiftl v k) = Zpos v * 2 ^ Z.of_N k.
Proof.
  unfold Pos.shiftl. destruct k as [|k]; [simpl; lia|].
  induction k as [|k IH] using Pos.peano_ind; [simpl; lia|].
  rewrite Pos.iter_succ. cbn [Z.of_N] in *. rewrite Pos2Z.inj_xO, IH.
  rewrite Pos2Z.inj_succ, Z.pow_succ_r by lia. lia.
Qed.

(** An integer of at most 53 digits is a float exactly. *)
Lemma binary_normalize_pos v :
  Zpos (digits2_pos v) <= 53 ->
  binary_normalize prec emax (Zpos v) 0 false = binary64_of_pos v.
Proof.
  intros Hd. unfold binary_normalize, binary_round, binary64_of_pos.
  assert (Hfexp : fexp prec emax (Zpos (digits2_pos v) + 0) = Zpos (digits2_pos v) - 53)
    by (unfold fexp, emin, prec, emax; lia).
  rewrite Hfexp. unfold shl_align. rewrite Z.sub_0_r.
  destruct (Zpos (digits2_pos v) - 53) as [|j|j] eqn:Ej; [|lia|].
  - replace (53 - Zpos (digits2_pos v)) with 0 by lia.
    apply (binary_round_aux_exact false v 0 0); lia.
  - replace (53 - Zpos (digits2_pos v)) with (Zpos j) by lia.
    change (Z.to_N (Zpos j)) with (Npos j).
    apply (binary_round_aux_exact false (Pos.shiftl v (Npos j)) 0 (Zneg j)); [|lia].
    rewrite digits2_pos_shiftl. cbn [Z.of_N]. lia.
Qed.

(** The product of two such floats is exact when it has at most 53 digits. *)
Lemma binary64_mul a b :
  Zpos (digits2_pos (a * b)) <= 53 ->
  SFmul prec emax (binary64_of_pos a) (binary64_of_pos b) = binary64_of_pos (a * b).
Proof.
  intros Hab.
  destruct (digits2_pos_spec a) as [Ha1 Ha2]. destruct (digits2_pos_spec b) as [Hb1 Hb2].
  destruct (digits2_pos_spec (a * b)) as [Hab1 Hab2].
  set (da := Zpos (digits2_pos a)) in *. set (db := Zpos (digits2_pos b)) in *.
  set (dab := Zpos (digits2_pos (a * b))) in *.
  assert (Hda : 1 <= da) by (unfold da; lia). assert (Hdb : 1 <= db) by (unfold db; lia).
  assert (Hlow : da + db - 2 < dab).
  { apply (Z.pow_lt_mono_r_iff 2); [lia|lia|].
    replace (da + db - 2) with ((da - 1) + (db - 1)) by lia.
    rewrite Z.pow_add_r by lia.
    assert (2 ^ (da - 1) * 2 ^ (db - 1) <= Zpos a * Zpos b).
    { apply Z.mul_le_mono_nonneg; lia. }
    lia. }
  assert (Hale : da <= dab).
  { destruct (Z.le_gt_cases da dab) as [|Hgt]; [done|].
    assert (2 ^ dab <= 2 ^ (da - 1)) by (apply Z.pow_le_mono_r; lia).
    assert (Zpos a <= Zpos (a * b)) by nia. lia. }
  assert (Hble : db <= dab).
  { destruct (Z.le_gt_cases db dab) as [|Hgt]; [done|].
    assert (2 ^ dab <= 2 ^ (db - 1)) by (apply Z.pow_le_mono_r; lia).
    assert (Zpos b <= Zpos (a * b)) by nia. lia. }
  unfold binary64_of_pos, SFmul. fold da db dab. cbn [xorb].
  set (T := Pos.shiftl (a * b) (Z.to_N (53 - dab))).
  set (k := Z.to_N (53 + dab - da - db)).
  assert (Hmul : (Pos.shiftl a (Z.to_N (53 - da)) * Pos.shiftl b (Z.to_N (53 - db)))%positive
                 = Pos.shiftl T k).
  { apply Pos2Z.inj. unfold T, k. rewrite Pos2Z.inj_mul, !Zpos_shiftl, Pos2Z.inj_mul.
    rewrite !Z2N.id by lia.
    replace (53 - da) with ((53 - dab) + (dab - da)) at 1 by lia.
    replace (53 + dab - da - db) with ((dab - da) + (53 - db)) by lia.
    rewrite !Z.pow_add_r by lia. ring_simplify. nia. }
  rewrite Hmul.
  replace (da - 53 + (db - 53)) with ((dab - 53) - Z.of_N k) by (unfold k; lia).
  apply binary_round_aux_exact; [|lia].
  unfold T. rewrite digits2_pos_shiftl. fold dab. lia.
Qed.

Lemma int_of_binary64 v :
  Zpos (digits2_pos v) <= 53 -> int_of_float (binary64_of_pos v) = Ok (Zpos v).
Proof.
  intros Hd. unfold int_of_float, binary64_of_pos. f_equal.
  rewrite Z.shiftl_div_pow2 by lia. rewrite Zpos_shiftl, Z2N.id by lia.
  replace (- (Zpos (digits2_pos v) - 53)) with (53 - Zpos (digits2_pos v)) by lia.
  apply Z.div_mul. apply Z.pow_nonzero; lia.
Qed.

(** [float] reads the decimal numeral of such an integer exactly. *)
Lemma float_decimal (v : positive) :
  Zpos (digits2_pos v) <= 53 -> float (decimal (Npos v)) = Ok (binary64_of_pos v).
Proof.
  intros Hv. destruct (decimal_digits (Npos v)) as (d & Hd & -> & Hval).
  unfold float. rewrite strip_num_digits by done.
  replace (sign (NilEmpty.string_of_uint d)) with (false, NilEmpty.string_of_uint d)
    by (by destruct d).
  replace (bool_decide (lower_ascii_str (NilEmpty.string_of_uint d) = "inf"%string)) with false
    by (by destruct d).
  replace (bool_decide (lower_ascii_str (NilEmpty.string_of_uint d) = "infinity"%string)) with false
    by (by destruct d).
  replace (bool_decide (lower_ascii_str (NilEmpty.string_of_uint d) = "nan"%string)) with false
    by (by destruct d).
  cbn [orb]. unfold floatnumber.
  rewrite digitpart_digits, Hval by done.
  destruct (String.length (NilEmpty.string_of_uint d)) as [|m] eqn:E; [by destruct d|].
  cbn [digitpart exponent Nat.add].
  f_equal. unfold float_of_decimal.
  change (N.pos v * 10 ^ N.of_nat 0 + 0)%N with (N.pos v * 1 + 0)%N.
  rewrite N.mul_1_r, N.add_0_r. change (0 - Z.of_nat 0) with 0. cbn [Z.leb Z.compare].
  change (10 ^ 0) with 1. rewrite Z.mul_1_r. by apply binary_normalize_pos.
Qed.

(** Whole seconds are fifty frames each. *)
Lemma length_tag_whole_seconds (n : N) :
  (50 * n < 2 ^ 53)%N -> parse_tag "length" (decimal n) = Ok (TagInt (50 * Z.of_N n)).
Proof.
  intros Hn. unfold parse_tag. rewrite bool_decide_eq_true_2 by done.
  destruct n as [|v]; [by vm_compute|].
  destruct (decimal_digits (Npos v)) as (d & Hd & Hs & Hval).
  replace (endswith (decimal (Npos v)) "t") with false.
  2: { rewrite Hs. clear. induction d; simpl; try done; by destruct (NilEmpty.string_of_uint d). }
  assert (Hv50 : Zpos (digits2_pos (v * 50)) <= 53).
  { apply digits2_pos_le. lia. }
  assert (Hv : Zpos (digits2_pos v) <= 53).
  { apply digits2_pos_le. lia. }
  rewrite float_decimal by done. cbn [bind]. unfold fmul.
  replace (float_of_int 50) with (binary64_of_pos 50) by (by vm_compute).
  rewrite binary64_mul by done. rewrite int_of_binary64 by done. cbn [bind].
  do 2 f_equal. lia.
Qed.
End WholeFloats.

Section ParserClaims.
Local Open Scope string_scope.

(** C8: a [length] value that ends in [t] is the integer in front of the
    [t]; any other [length] value is read as a float, multiplied by 50 and
    truncated. So [#length 3.0] gives 150 and [#length 200t] gives 200. *)
Theorem length_tag_value :
  (forall tag_data,
     parse_tag "length" tag_data
     = if endswith tag_data "t"
       then bind (int (str_drop_last tag_data)) (fun n => Ok (TagInt n))
       else bind (float tag_data) (fun x =>
            bind (int_of_float (fmul x (float_of_int 50))) (fun n => Ok (TagInt n))))
  /\ (forall prefix,
        parse_tag "length" (prefix +:+ "t") = bind (int prefix) (fun n => Ok (TagInt n)))
  /\ (forall n : N,
        (String.length (decimal n) <= max_str_digits)%nat ->
        parse_tag "length" (decimal n +:+ "t") = Ok (TagInt (Z.of_N n)))
  /\ (forall n : N,
        (50 * n < 2 ^ 53)%N ->
        parse_tag "length" (decimal n) = Ok (TagInt (50 * Z.of_N n)))
  /\ parse_lyrics ("#length 3.0" +:+ LF +:+ "[verse]" +:+ LF +:+ "hello")
     = Ok [SongSegment.create "verse" {[ "length" := TagInt 150 ]} "hello"]
  /\ parse_lyrics ("#length 200t" +:+ LF +:+ "[chorus]" +:+ LF +:+ "la")
     = Ok [SongSegment.create "chorus" {[ "length" := TagInt 200 ]} "la"].
Proof.
  assert (Hprefix : forall prefix,
             parse_tag "length" (prefix +:+ "t") = bind (int prefix) (fun n => Ok (TagInt n))).
  { intros prefix. unfold parse_tag. rewrite bool_decide_eq_true_2 by done.
    by rewrite endswith_snoc, str_drop_last_snoc. }
  split; [|split; [|split; [|split; [|split]]]].
  - intros tag_data. unfold parse_tag. by rewrite bool_decide_eq_true_2.
  - exact Hprefix.
  - intros n Hlen. by rewrite Hprefix, int_decimal.
  - exact length_tag_whole_seconds.
  - by vm_compute.
  - by vm_compute.
Qed.

(** The product is rounded to binary64 before it is truncated: 0.58 s are
    28 frames, not 29. *)
Lemma length_tag_rounds_then_truncates :
  parse_tag "length" "0.58" = Ok (TagInt 28)
  /\ parse_tag "length" "0.1" = Ok (TagInt 5)
  /\ parse_tag "length" "1e1" = Ok (TagInt 500)
  /\ parse_tag "length" "-0.5" = Ok (TagInt (-25))
  /\ parse_tag "length" "1_0t" = Ok (TagInt 10).
Proof. repeat split; by vm_compute. Qed.

(** A [length] value that is no number raises, whichever way it is read. *)
Lemma length_tag_failures :
  parse_tag "length" "notanumber" = Raise ValueError
  /\ parse_tag "length" "t" = Raise ValueError
  /\ parse_tag "length" "3.5t" = Raise ValueError
  /\ parse_tag "length" "inf" = Raise OverflowError
  /\ parse_tag "length" "nan" = Raise ValueError
  /\ parse_tag "length" "" = Raise ValueError.
Proof. repeat split; by vm_compute. Qed.

(** C9: no script makes the parse fail. There is one segment for each
    header the pattern finds; its tags are those of its block that coerce,
    a tag that does not coerce is left out and the tags after it are still
    read. So [#length notanumber] in front of [[bridge]] gives a segment
    with no [length] tag. *)
Theorem bad_tag_dropped_parse_continues :
  (forall script,
     parse_lyrics script = Ok (map segment_of_match (Re.findall pattern script)))
  /\ (forall raw_tags k,
        is_Some (tags_of (kept_tags raw_tags) !! k)
        <-> exists tag, tag ∈ raw_tags /\ tag_name_of tag = k
              /\ is_ok (parse_tag (tag_name_of tag) (tag_data_of tag)) = true)
  /\ parse_lyrics ("#length notanumber" +:+ LF +:+ "[bridge]" +:+ LF +:+ "x")
     = Ok [SongSegment.create "bridge" ∅ "x"]
  /\ parse_lyrics ("#length notanumber #genre rock" +:+ LF +:+ "[bridge]" +:+ LF +:+ "x"
                   +:+ LF +:+ "#length 2" +:+ LF +:+ "[outro]" +:+ LF +:+ "y")
     = Ok [SongSegment.create "bridge" {[ "genre" := TagStr "rock" ]} "x";
           SongSegment.create "outro" {[ "length" := TagInt 100 ]} "y"].
Proof.
  split; [exact parse_lyrics_Ok|]. split; [exact kept_tags_lookup|].
  split; by vm_compute.
Qed.
End ParserClaims.

(** ** [Song.set_lyrics] *)

Section SetLyrics.
Implicit Types (old new : list SongSegment.t) (song : Song.t).

Lemma takewhile_enumerate_merge old_segments old new before :
  length before + length old = length old_segments ->
  (forall i o, old !! i = Some o -> old_segments !! (length before + i) = Some o) ->
  for_each
    (takewhile (fun e => bool_decide (fst e < length old_segments))
               (enumerate_from (length before) new))
    (Song.merge_step old_segments) (before ++ new)
  = Ok (before ++ merge_forward old new).
Proof.
  revert old before. induction new as [|n new IH]; intros old before Hlen Hold; simpl.
  - done.
  - destruct old as [|o old]; simpl in *.
    + rewrite bool_decide_eq_false_2 by lia. done.
    + rewrite bool_decide_eq_true_2 by lia. simpl.
      rewrite (getitem_Ok _ _ o) by (specialize (Hold 0 o eq_refl); by rewrite Nat.add_0_r in Hold).
      simpl. rewrite setitem_Ok by (rewrite length_app; simpl; lia). simpl.
      rewrite insert_app_r_alt, Nat.sub_diag by lia. simpl.
      replace (before ++ SongSegment.merge n o :: new)
        with ((before ++ [SongSegment.merge n o]) ++ new) by (by rewrite <- app_assoc).
      replace (S (length before)) with (length (before ++ [SongSegment.merge n o]))
        by (rewrite length_app; simpl; lia).
      rewrite (IH old).
      * by rewrite <- app_assoc.
      * rewrite length_app. simpl. lia.
      * intros i o' Hi. rewrite length_app. simpl.
        replace (length before + 1 + i) with (length before + S i) by lia. by apply Hold.
Qed.

Lemma merge_loop_Ok old new :
  for_each
    (takewhile (fun e => bool_decide (fst e < length old)) (enumerate new))
    (Song.merge_step old) new
  = Ok (merge_forward old new).
Proof. by apply (takewhile_enumerate_merge old old new []). Qed.

(** [set_lyrics] never raises, and what it leaves in the song. *)
Lemma set_lyrics_Ok song text :
  let new := merge_forward (Song._segments song)
               (map segment_of_match (Re.findall pattern (strip text))) in
  Song.set_lyrics song text
  = Ok (Song.with_lyrics (Song.with_segments (Song.with_raw_lyrics song text) new)
          (join LF (map SongSegment.as_str new))).
Proof.
  intros new. unfold Song.set_lyrics, Song._prepare_lyrics. simpl.
  rewrite parse_lyrics_Ok. simpl. rewrite merge_loop_Ok. done.
Qed.

Lemma merge_forward_length old new : length (merge_forward old new) = length new.
Proof.
  revert old. induction new as [|n new IH]; intros [|o old]; simpl; auto.
Qed.

Lemma merge_forward_lookup old new i :
  merge_forward old new !! i
  = match new !! i, old !! i with
    | Some n, Some o => Some (SongSegment.merge n o)
    | r, _ => r
    end.
Proof.
  revert old i. induction new as [|n new IH]; intros [|o old] [|i]; simpl; try done.
  by destruct (new !! i).
Qed.

Lemma join_concat sep parts : join sep parts = String.concat sep parts.
Proof.
  induction parts as [|p parts IH]; [done|].
  simpl. destruct parts; [done|]. by rewrite IH.
Qed.
End SetLyrics.

Section SetLyricsClaims.
Implicit Types (old new : list SongSegment.t) (song : Song.t).
Local Open Scope string_scope.

(** C4, as the code has it: after [set_lyrics] the lyrics field is the
    strings "[name]\nlyrics\n\n" of the current segments, in order, joined
    by one line feed between two segments; with at most one segment that is
    their plain concatenation. *)
Theorem lyrics_joined_by_line_feed song text :
  exists song',
    Song.set_lyrics song text = Ok song'
    /\ Song.str song'
       = String.concat LF
           (map (fun seg => "[" +:+ SongSegment._name seg +:+ "]" +:+ LF
                              +:+ SongSegment._lyrics seg +:+ LF +:+ LF)
                (Song.segments song'))
    /\ (length (Song.segments song') <= 1 ->
        Song.str song'
        = String.concat ""
            (map (fun seg => "[" +:+ SongSegment._name seg +:+ "]" +:+ LF
                               +:+ SongSegment._lyrics seg +:+ LF +:+ LF)
                 (Song.segments song'))).
Proof.
  eexists. split; [apply set_lyrics_Ok|]. simpl.
  rewrite join_concat. split; [done|].
  destruct (merge_forward _ _) as [|a [|b l]]; simpl; [done|done|lia].
Qed.

(** With two segments a line feed stands between the two strings: the
    lyrics field is not their plain concatenation. *)
Lemma lyrics_of_two_segments_not_concatenated :
  exists song',
    Song.set_lyrics Song.init ("[a]" +:+ LF +:+ "x" +:+ LF +:+ "[b]" +:+ LF +:+ "y") = Ok song'
    /\ map (fun seg => (SongSegment._name seg, SongSegment._lyrics seg)) (Song.segments song')
       = [("a", "x"); ("b", "y")]
    /\ Song.str song'
       = "[a]" +:+ LF +:+ "x" +:+ LF +:+ LF +:+ LF +:+ "[b]" +:+ LF +:+ "y" +:+ LF +:+ LF
    /\ Song.str song'
       <> String.concat ""
            (map (fun seg => "[" +:+ SongSegment._name seg +:+ "]" +:+ LF
                               +:+ SongSegment._lyrics seg +:+ LF +:+ LF)
                 (Song.segments song')).
Proof.
  eexists. split; [apply set_lyrics_Ok|]. by vm_compute.
Qed.

Lemma merge_forward_tracks_same_length old new :
  length old = length new ->
  map SongSegment._tracks (merge_forward old new) = map SongSegment._tracks old.
Proof.
  revert old. induction new as [|n new IH]; intros [|o old]; simpl; try done.
  intros [= Hlen]. by rewrite IH.
Qed.

(** C7: after a re-parse the segment at a position that had a segment
    before holds that segment's tracks, whatever became of its name, tags or
    lyrics; a segment at a new position holds empty tracks; and when the
    parse gives as many segments as the song had, as it does for the same
    text, every segment keeps its tracks. *)
Theorem reparse_merges_by_position song text :
  exists new song',
    parse_lyrics (strip text) = Ok new
    /\ Song.set_lyrics song text = Ok song'
    /\ length (Song.segments song') = length new
    /\ (forall i n, new !! i = Some n ->
          exists seg',
            Song.segments song' !! i = Some seg'
            /\ SongSegment._name seg' = SongSegment._name n
            /\ SongSegment._tags seg' = SongSegment._tags n
            /\ SongSegment._lyrics seg' = SongSegment._lyrics n
            /\ SongSegment._tracks seg'
               = match Song.segments song !! i with
                 | Some old => SongSegment._tracks old
                 | None => SongSegment.create_empty_tracks
                 end)
    /\ (length (Song.segments song) = length new ->
        map SongSegment._tracks (Song.segments song')
        = map SongSegment._tracks (Song.segments song)).
Proof.
  eexists _, _. split; [apply parse_lyrics_Ok|]. split; [apply set_lyrics_Ok|].
  simpl. split; [apply merge_forward_length|]. split.
  - intros i n Hn. rewrite merge_forward_lookup, Hn.
    apply list_lookup_fmap_Some in Hn as (m & -> & Hm).
    unfold Song.segments. destruct (Song._segments song !! i) as [o|]; eauto 10.
  - intros Hlen. by apply merge_forward_tracks_same_length.
Qed.

Lemma merge_forward_self new : merge_forward new new = new.
Proof. induction new as [|[] new IH]; simpl; [done|]. by rewrite IH. Qed.

Lemma merge_forward_again old new :
  merge_forward (merge_forward old new) new = merge_forward old new.
Proof.
  revert old. induction new as [|n new IH]; intros [|o old]; simpl; try done.
  - by rewrite merge_forward_self; destruct n.
  - by rewrite IH.
Qed.

(** Setting the same text twice changes nothing the second time. *)
Lemma set_lyrics_twice song text song' :
  Song.set_lyrics song text = Ok song' -> Song.set_lyrics song' text = Ok song'.
Proof.
  rewrite set_lyrics_Ok. intros [= <-]. rewrite set_lyrics_Ok. simpl.
  by rewrite merge_forward_again.
Qed.
End SetLyricsClaims.

(** ** [SongSegment.merged_stage1_tracks] *)

Section Interleave.
Implicit Types (seg : SongSegment.t).

Lemma time_major_two_length {A} (t0 t1 : list A) :
  length t0 = length t1 ->
  length (Np.time_major (length t0) [t0; t1]) = 2 * length t0.
Proof.
  revert t1. induction t0 as [|a t0 IH]; intros [|b t1]; simpl; try done.
  intros [= Hlen]. rewrite (IH t1 Hlen). lia.
Qed.

Lemma time_major_two_lookup {A} (t0 t1 : list A) k :
  length t0 = length t1 ->
  k < length t0 ->
  Np.time_major (length t0) [t0; t1] !! (2 * k) = t0 !! k
  /\ Np.time_major (length t0) [t0; t1] !! (2 * k + 1) = t1 !! k.
Proof.
  revert t1 k. induction t0 as [|a t0 IH]; intros [|b t1] k Hlen Hk;
    [by inversion Hk|by inversion Hk|done|].
  injection Hlen as Hlen. simpl in Hk.
  change (Np.time_major (length (a :: t0)) [a :: t0; b :: t1])
    with (a :: b :: Np.time_major (length t0) [t0; t1]).
  destruct k as [|k]; [done|].
  replace (2 * S k) with (S (S (2 * k))) by lia.
  replace (S (S (2 * k)) + 1) with (S (S (2 * k + 1))) by lia.
  cbn [lookup list_lookup]. apply IH; [done|lia].
Qed.

(** Items of the signed 64-bit range make an [int64] array. *)
Lemma common_dtype_int64 (items : list Z) :
  Forall (fun n => - 2 ^ 63 <= n < 2 ^ 63)%Z items ->
  items <> [] ->
  Np.common_dtype items = Np.Int64.
Proof.
  assert (Hone : forall n, (- 2 ^ 63 <= n < 2 ^ 63)%Z -> Np.dtype_of_int n = Np.Int64).
  { intros n Hn. unfold Np.dtype_of_int.
    replace (- 2 ^ 63 <=? n)%Z with true by lia. by replace (n <? 2 ^ 63)%Z with true by lia. }
  destruct items as [|n rest]; [done|]. intros [Hn Hrest]%Forall_cons _.
  cbn [Np.common_dtype]. rewrite (Hone n Hn).
  induction Hrest as [|m rest Hm _ IH]; [done|]. cbn [foldl]. by rewrite (Hone m Hm).
Qed.

(** C6, as the code has it: two tracks of one length [N] are interleaved
    into [2N] items, track 0 at the even places and track 1 at the odd
    ones, each item as the array holds it; for tracks of integers of the
    signed 64-bit range, as token ids are, these are the integers
    themselves. Two tracks of different lengths make the call raise. *)
Theorem interleave_two_tracks seg (t0 t1 : list Z) rest :
  SongSegment._tracks seg = [t0; t1] :: rest ->
  (length t0 = length t1 ->
   exists out,
     SongSegment.merged_stage1_tracks seg = Ok out
     /\ length out = 2 * length t0
     /\ (forall k, k < length t0 ->
           out !! (2 * k) = Np.stored (Np.common_dtype (t0 ++ t1)) <$> t0 !! k
           /\ out !! (2 * k + 1) = Np.stored (Np.common_dtype (t0 ++ t1)) <$> t1 !! k)
     /\ (Forall (fun n => - 2 ^ 63 <= n < 2 ^ 63)%Z (t0 ++ t1) ->
         forall k, k < length t0 ->
           out !! (2 * k) = PyInt <$> t0 !! k
           /\ out !! (2 * k + 1) = PyInt <$> t1 !! k))
  /\ (length t0 <> length t1 ->
      exists e, SongSegment.merged_stage1_tracks seg = Raise e).
Proof.
  intros Htr. unfold SongSegment.merged_stage1_tracks. rewrite Htr.
  cbn [getitem lookup list_lookup bind Np.array forallb]. split.
  - intros Hlen.
    assert (Heqb : Nat.eqb (length t1) (length t0) = true) by (by apply Nat.eqb_eq).
    rewrite Heqb. cbn [andb bind Np.rearrange_bn_nb map length].
    rewrite decide_True by done. cbn [concat]. rewrite app_nil_r.
    set (dt := Np.common_dtype (t0 ++ t1)).
    assert (Hl0 : length (map (Np.stored dt) t0) = length t0) by apply length_map.
    assert (Hl1 : length (map (Np.stored dt) t0) = length (map (Np.stored dt) t1))
      by (by rewrite !length_map).
    assert (Hlookup : forall k, k < length t0 ->
              Np.time_major (length t0) [map (Np.stored dt) t0; map (Np.stored dt) t1]
                !! (2 * k) = Np.stored dt <$> t0 !! k
              /\ Np.time_major (length t0) [map (Np.stored dt) t0; map (Np.stored dt) t1]
                   !! (2 * k + 1) = Np.stored dt <$> t1 !! k).
    { intros k Hk. rewrite <- Hl0, <- !list_lookup_fmap.
      apply time_major_two_lookup; [done|]. by rewrite Hl0. }
    eexists. split; [done|]. split; [|split; [exact Hlookup|]].
    + rewrite <- Hl0 at 1. rewrite time_major_two_length by done. by rewrite Hl0.
    + intros Hint k Hk. destruct (Hlookup k Hk) as [-> ->].
      assert (Hdt : dt = Np.Int64).
      { apply common_dtype_int64; [done|]. destruct t0; [simpl in Hk; lia|done]. }
      by rewrite Hdt.
  - intros Hne. apply not_eq_sym, Nat.eqb_neq in Hne. rewrite Hne. simpl. eauto.
Qed.

Lemma interleave_two_tracks_witness :
  let seg := {| SongSegment._name := "verse"; SongSegment._tags := ∅;
                SongSegment._lyrics := "la";
                SongSegment._tracks := [[[10; 11; 12]%Z; [20; 21; 22]%Z]; [[]; []]] |} in
  SongSegment.merged_stage1_tracks seg
  = Ok [PyInt 10; PyInt 20; PyInt 11; PyInt 21; PyInt 12; PyInt 22]
  /\ exists out,
       SongSegment.merged_stage1_tracks seg = Ok out
       /\ length out = 2 * 3
       /\ forall k, k < 3 ->
            out !! (2 * k) = PyInt <$> [10; 11; 12]%Z !! k
            /\ out !! (2 * k + 1) = PyInt <$> [20; 21; 22]%Z !! k.
Proof.
  intros seg. split; [reflexivity|].
  destruct (proj1 (interleave_two_tracks seg [10; 11; 12]%Z [20; 21; 22]%Z [[[]; []]] eq_refl)
                  eq_refl) as (out & Hout & Hlen & _ & Hint).
  exists out. split; [exact Hout|]. split; [exact Hlen|].
  apply Hint. cbn [app]. repeat (apply List.Forall_cons; [lia|]). apply List.Forall_nil.
Defined.

(** Items of two widths: an array that holds an integer below [2^63] and
    an integer from [2^63] on is of [float64], and the list that comes back
    holds floats, the first of them beside the integer it stands for. *)
Lemma interleave_mixed_widths_rounds :
  let seg := {| SongSegment._name := "verse"; SongSegment._tags := ∅;
                SongSegment._lyrics := "la";
                SongSegment._tracks := [[[2 ^ 53 + 1]%Z; [2 ^ 63]%Z]; [[]; []]] |} in
  length [2 ^ 53 + 1]%Z = length [2 ^ 63]%Z
  /\ SongSegment.merged_stage1_tracks seg
     = Ok [PyFloat (S754_finite false 4503599627370496 1);
           PyFloat (S754_finite false 4503599627370496 11)]
  /\ float_integer (S754_finite false 4503599627370496 1) = Some (2 ^ 53)%Z
  /\ number_eqb (PyFloat (S754_finite false 4503599627370496 1)) (PyInt (2 ^ 53 + 1)) = false
  /\ ~ (exists out x,
          SongSegment.merged_stage1_tracks seg = Ok out
          /\ out !! 0 = Some x
          /\ number_eqb x (PyInt (2 ^ 53 + 1)) = true).
Proof.
  intros seg.
  assert (Hout : SongSegment.merged_stage1_tracks seg
                 = Ok [PyFloat (S754_finite false 4503599627370496 1);
                       PyFloat (S754_finite false 4503599627370496 11)]) by (by vm_compute).
  split; [done|]. split; [exact Hout|]. split; [by vm_compute|]. split; [by vm_compute|].
  intros (out & x & Ho & Hx & Heq). rewrite Hout in Ho. injection Ho as <-.
  injection Hx as <-. by vm_compute in Heq.
Qed.

(** Tracks of different lengths, no track and a single track are refused;
    integers from [2^63] on alone, or with one beyond [2^64], come back as
    they are. *)
Lemma interleave_refused :
  let seg tracks := {| SongSegment._name := "verse"; SongSegment._tags := ∅;
                       SongSegment._lyrics := "la"; SongSegment._tracks := tracks |} in
  SongSegment.merged_stage1_tracks (seg [[[1; 2]%Z; [3]%Z]; [[]; []]]) = Raise ValueError
  /\ SongSegment.merged_stage1_tracks (seg [[]; [[]; []]]) = Raise EinopsError
  /\ SongSegment.merged_stage1_tracks (seg [[[1; 2]%Z]; [[]; []]]) = Raise EinopsError
  /\ SongSegment.merged_stage1_tracks (seg []) = Raise IndexError
  /\ SongSegment.merged_stage1_tracks (seg [[[]; []]; [[]; []]]) = Ok []
  /\ SongSegment.merged_stage1_tracks (seg [[[2 ^ 63]%Z; [2 ^ 63 + 1]%Z]; [[]; []]])
     = Ok [PyInt (2 ^ 63); PyInt (2 ^ 63 + 1)]
  /\ SongSegment.merged_stage1_tracks (seg [[[1]%Z; [2 ^ 64]%Z]; [[]; []]])
     = Ok [PyInt 1; PyInt (2 ^ 64)].
Proof. repeat split; by vm_compute. Qed.
End Interleave.

(** ** [GenerationCache.create_from_song] *)

Section CreateFromSong.
Implicit Types (seg : SongSegment.t) (segs : list SongSegment.t) (song : Song.t).
Local Open Scope Z_scope.

Lemma segment_shaped_tracks seg :
  segment_shaped seg = true ->
  exists a b c d, SongSegment._tracks seg = [[a; b]; [c; d]].
Proof.
  unfold segment_shaped. intros [Hl Hr]%andb_prop.
  apply bool_decide_eq_true in Hl.
  destruct (SongSegment._tracks seg) as [|r0 [|r1 [|r2 rest]]]; try done.
  simpl in Hr. rewrite andb_true_r in Hr. apply andb_prop in Hr as [H0 H1].
  apply bool_decide_eq_true in H0, H1.
  destruct r0 as [|a [|b [|? ?]]]; try done.
  destruct r1 as [|c [|d [|? ?]]]; try done.
  by exists a, b, c, d.
Qed.

Lemma track_shaped seg istage itrack :
  segment_shaped seg = true ->
  (istage < NrStages)%nat -> (itrack < NrTracks)%nat ->
  SongSegment.track seg istage itrack = Ok (tracks_of seg istage itrack).
Proof.
  intros (a & b & c & d & Htr)%segment_shaped_tracks Hs Ht.
  unfold SongSegment.track, tracks_of, NrStages, NrTracks in *. rewrite Htr.
  destruct istage as [|[|?]]; [| |lia]; destruct itrack as [|[|?]]; try lia; reflexivity.
Qed.

Lemma flat_loop istage itrack segs acc :
  forallb segment_shaped segs = true ->
  (istage < NrStages)%nat -> (itrack < NrTracks)%nat ->
  for_each segs
    (fun segment track_full =>
       bind (SongSegment.track segment istage itrack) (fun tr => Ok (track_full ++ tr)))
    acc
  = Ok (acc ++ flat_of istage itrack segs).
Proof.
  intros Hsh Hs Ht. revert acc Hsh. induction segs as [|seg segs IH]; intros acc Hsh; simpl.
  - by rewrite app_nil_r.
  - simpl in Hsh. apply andb_prop in Hsh as [Hseg Hsegs].
    rewrite track_shaped by done. simpl. rewrite IH by done.
    unfold flat_of. simpl. by rewrite app_assoc.
Qed.

(** [merge_segments] of a shaped song: the two flat tracks of the stage. *)
Lemma merge_segments_Ok song istage :
  song_shaped song = true ->
  (istage < NrStages)%nat ->
  Song.merge_segments song istage
  = Ok [flat_of istage 0 (Song._segments song); flat_of istage 1 (Song._segments song)].
Proof.
  intros Hsh Hs. unfold Song.merge_segments. simpl.
  rewrite flat_loop by (done || (unfold NrTracks; lia)). simpl.
  rewrite flat_loop by (done || (unfold NrTracks; lia)). done.
Qed.

Lemma boundary_loop segs c dataidx :
  forallb segment_shaped segs = true ->
  for_each segs GenerationCache.boundary_step (c, dataidx)
  = Ok ({| GenerationCache._tracks := GenerationCache._tracks c;
           GenerationCache._segments :=
             GenerationCache._segments c ++ boundaries dataidx segs |},
        dataidx + Z.of_nat (length (flat_of 0 0 segs))).
Proof.
  revert c dataidx. induction segs as [|seg segs IH]; intros c dataidx Hsh; simpl.
  - rewrite app_nil_r, Z.add_0_r. by destruct c.
  - simpl in Hsh. apply andb_prop in Hsh as [Hseg Hsegs].
    unfold SongSegment.cached_length. rewrite track_shaped by (done || (unfold NrStages, NrTracks; lia)).
    simpl. fold (cached0 seg). unfold flat_of. simpl. rewrite length_app. fold (flat_of 0 0 segs).
    destruct (cached0 seg =? 0) eqn:E; simpl.
    + rewrite IH by done. f_equal. f_equal. unfold cached0, len in E. lia.
    + rewrite IH by done. simpl. rewrite <- app_assoc. simpl.
      f_equal. f_equal. unfold cached0, len. lia.
Qed.

(** [create_from_song] of a shaped song does not raise; its flat buffers
    and its boundary table. *)
Lemma create_from_song_Ok song :
  song_shaped song = true ->
  GenerationCache.create_from_song song
  = Ok {| GenerationCache._tracks :=
            [[flat_of 0 0 (Song._segments song); flat_of 0 1 (Song._segments song)];
             [flat_of 1 0 (Song._segments song); flat_of 1 1 (Song._segments song)]];
          GenerationCache._segments := boundaries 0 (Song._segments song) |}.
Proof.
  intros Hsh. unfold GenerationCache.create_from_song. simpl.
  rewrite merge_segments_Ok by (done || (unfold NrStages; lia)). simpl.
  rewrite merge_segments_Ok by (done || (unfold NrStages; lia)). simpl.
  unfold Song.segments. rewrite boundary_loop by done. done.
Qed.
End CreateFromSong.

Section BoundaryTable.
Import GenerationCache.
Implicit Types (seg : SongSegment.t) (segs : list SongSegment.t) (table : list boundary).
Local Open Scope Z_scope.

Lemma boundaries_names dataidx segs :
  map (fun b : boundary => b.1.1) (boundaries dataidx segs)
  = map SongSegment.name (List.filter generated segs).
Proof.
  revert dataidx. induction segs as [|seg segs IH]; intros dataidx; simpl; [done|].
  unfold generated. destruct (cached0 seg =? 0); simpl; by rewrite IH.
Qed.

(** The record at a position belongs to the generated segment at that
    position and spans its stage-0, track-0 tokens. *)
Lemma boundaries_lookup dataidx segs (i : nat) name start end_ seg :
  boundaries dataidx segs !! i = Some (name, start, end_) ->
  List.filter generated segs !! i = Some seg ->
  name = SongSegment.name seg /\ end_ - start = cached0 seg /\ start < end_.
Proof.
  revert dataidx i. induction segs as [|s segs IH]; intros dataidx i; simpl; [done|].
  unfold generated at 1. destruct (cached0 s =? 0) eqn:E; simpl; [exact (IH _ _)|].
  destruct i as [|i]; simpl; [|exact (IH _ _)].
  intros [= <- <- <-] [= <-]. unfold cached0, len in *. repeat split; lia.
Qed.

Lemma table_end_cons dataidx name start end_ table :
  table_end dataidx ((name, start, end_) :: table) = table_end end_ table.
Proof.
  unfold table_end. destruct table as [|b table]; [done|].
  rewrite last_cons_cons.
  destruct (last (b :: table)) as [[[? ?] ?]|] eqn:E; [done|]. by apply last_None in E.
Qed.

Lemma boundaries_end dataidx segs :
  table_end dataidx (boundaries dataidx segs) = dataidx + len (flat_of 0 0 segs).
Proof.
  revert dataidx. induction segs as [|seg segs IH]; intros dataidx; simpl.
  - unfold table_end, len. simpl. lia.
  - unfold flat_of, len. simpl. rewrite length_app. fold (flat_of 0 0 segs).
    destruct (cached0 seg =? 0) eqn:E.
    + rewrite IH. unfold cached0, len in *. lia.
    + rewrite table_end_cons, IH. unfold cached0, len. lia.
Qed.

(** Each record starts where the one before it ends, the first at the cursor. *)
Lemma boundaries_chained dataidx segs :
  (forall name start end_,
     boundaries dataidx segs !! 0%nat = Some (name, start, end_) -> start = dataidx)
  /\ (forall (i : nat) name1 start1 end1 name2 start2 end2,
        boundaries dataidx segs !! i = Some (name1, start1, end1) ->
        boundaries dataidx segs !! S i = Some (name2, start2, end2) ->
        start2 = end1).
Proof.
  revert dataidx. induction segs as [|seg segs IH]; intros dataidx; simpl; [done|].
  destruct (cached0 seg =? 0); [apply IH|].
  destruct (IH (dataidx + cached0 seg)) as [IH0 IHS].
  split.
  - by intros ??? [= <- <- <-].
  - intros [|i] ??????; simpl.
    + intros [= <- <- <-] H. by eapply IH0.
    + apply IHS.
Qed.

Lemma boundaries_ordered dataidx segs :
  forallb boundary_ordered (boundaries dataidx segs) = true.
Proof.
  revert dataidx. induction segs as [|seg segs IH]; intros dataidx; simpl; [done|].
  destruct (cached0 seg =? 0) eqn:E; [apply IH|].
  simpl. rewrite IH, andb_true_r. unfold boundary_ordered, cached0, len in *. simpl.
  apply Z.leb_le. lia.
Qed.

(** C5: the boundary table [create_from_song] makes of a song has one
    record for each segment with stage-0, track-0 tokens, in the order of
    the segments and under the segment's name; a record spans as many
    tokens as its segment has there; the first record starts at 0 and each
    other one where the one before it ends; and the last record ends at the
    length of the flat stage-0, track-0 buffer. A segment without such
    tokens has no record and takes no room. *)
Theorem boundary_table_contiguous (song : Song.t) :
  song_shaped song = true ->
  exists cache,
    create_from_song song = Ok cache
    /\ map (fun b : boundary => b.1.1) (segments cache)
       = map SongSegment.name (List.filter generated (Song.segments song))
    /\ (forall (i : nat) name start end_ seg,
          segments cache !! i = Some (name, start, end_) ->
          List.filter generated (Song.segments song) !! i = Some seg ->
          SongSegment.cached_length seg 0 0 = Ok (end_ - start) /\ start < end_)
    /\ (forall name start end_,
          segments cache !! 0%nat = Some (name, start, end_) -> start = 0)
    /\ (forall (i : nat) name1 start1 end1 name2 start2 end2,
          segments cache !! i = Some (name1, start1, end1) ->
          segments cache !! S i = Some (name2, start2, end2) ->
          start2 = end1)
    /\ (forall name start end_,
          last (segments cache) = Some (name, start, end_) ->
          end_ = len (track cache 0 0)).
Proof.
  intros Hsh. eexists. split; [by apply create_from_song_Ok|].
  unfold segments, Song.segments. simpl.
  split; [apply boundaries_names|]. split; [|split; [|split]].
  - intros i name start end_ seg Hb Hg.
    destruct (boundaries_lookup _ _ _ _ _ _ _ Hb Hg) as (_ & Hlen & Hlt).
    split; [|done]. rewrite Hlen.
    assert (Hseg : segment_shaped seg = true).
    { apply list_elem_of_lookup_2, list_elem_of_In, filter_In in Hg as [Hin _].
      unfold song_shaped in Hsh. rewrite forallb_forall in Hsh. by apply Hsh. }
    unfold SongSegment.cached_length.
    by rewrite track_shaped by (done || (unfold NrStages, NrTracks; lia)).
  - apply boundaries_chained.
  - apply boundaries_chained.
  - intros name start end_ Hlast.
    pose proof (boundaries_end 0 (Song._segments song)) as He.
    unfold table_end in He. rewrite Hlast in He. rewrite He. unfold track. simpl. lia.
Qed.

Lemma boundary_table_contiguous_witness :
  let seg name t0 := {| SongSegment._name := name; SongSegment._tags := ∅;
                        SongSegment._lyrics := "la";
                        SongSegment._tracks := [[t0; t0]; [[]; []]] |} in
  let song := Song.with_segments Song.init
                [seg "intro" [1; 2]; seg "verse" []; seg "chorus" [3; 4; 5]]%string in
  exists cache,
    create_from_song song = Ok cache
    /\ segments cache = [("intro", 0, 2); ("chorus", 2, 5)]%string
    /\ map (fun b : boundary => b.1.1) (segments cache)
       = map SongSegment.name (List.filter generated (Song.segments song))
    /\ (forall name start end_,
          last (segments cache) = Some (name, start, end_) ->
          end_ = len (track cache 0 0)).
Proof.
  intros seg song.
  destruct (boundary_table_contiguous song eq_refl) as (cache & Hc & Hn & _ & _ & _ & Hl).
  exists cache. split; [exact Hc|]. split; [|split; [exact Hn|exact Hl]].
  vm_compute in Hc. injection Hc as <-. reflexivity.
Defined.

(** The cache of a shaped song is ordered, and stays so under [rewind]. *)
Lemma create_from_song_ordered (song : Song.t) cache :
  song_shaped song = true ->
  create_from_song song = Ok cache ->
  cache_ordered cache = true.
Proof.
  intros Hsh. rewrite create_from_song_Ok by done. intros [= <-].
  apply boundaries_ordered.
Qed.
End BoundaryTable.

(** ** [GenerationCache.transfer_to_song] *)

Section TransferToSong.
Import GenerationCache.
Implicit Types (seg : SongSegment.t) (segs : list SongSegment.t) (song : Song.t).
Implicit Types (c : GenerationCache.t) (table : list boundary).
Local Open Scope Z_scope.

Lemma with_segments_twice song segs segs' :
  Song.with_segments (Song.with_segments song segs) segs' = Song.with_segments song segs'.
Proof. reflexivity. Qed.

Lemma with_segments_same song : Song.with_segments song (Song._segments song) = song.
Proof. by destruct song. Qed.

(** [song[i].set_track(...)] on the segment in the middle of the list. *)
Lemma song_set_track_middle song pre seg post istage itrack tr :
  Song.set_track (Song.with_segments song (pre ++ seg :: post)) (length pre) istage itrack tr
  = bind (SongSegment.set_track seg istage itrack tr) (fun seg' =>
    Ok (Song.with_segments song (pre ++ seg' :: post))).
Proof.
  unfold Song.set_track, Song.__getitem__. simpl.
  rewrite (getitem_Ok _ _ seg) by (by rewrite lookup_app_r, Nat.sub_diag).
  simpl. destruct (SongSegment.set_track seg istage itrack tr) as [seg'|]; simpl; [|done].
  rewrite with_segments_twice. do 2 f_equal.
  by rewrite insert_app_r_alt, Nat.sub_diag.
Qed.

Lemma transfer_track_middle c song pre seg post start_token end_token istage itrack :
  transfer_track c (length pre) start_token end_token istage itrack
    (Song.with_segments song (pre ++ seg :: post))
  = match slice_range (len (track c istage itrack)) istage start_token end_token with
    | None => Ok (Song.with_segments song (pre ++ seg :: post))
    | Some (start_pos, end_pos) =>
        bind (SongSegment.set_track seg istage itrack
                (slice (track c istage itrack) start_pos end_pos)) (fun seg' =>
        Ok (Song.with_segments song (pre ++ seg' :: post)))
    end.
Proof.
  unfold transfer_track. destruct (slice_range _ _ _ _) as [[start_pos end_pos]|]; [|done].
  apply song_set_track_middle.
Qed.

(** One boundary record, transferred to the shaped segment at its position. *)
Lemma transfer_segment_middle c song pre seg post b :
  segment_shaped seg = true ->
  transfer_segment c (length (pre ++ seg :: post)) (length pre, b)
    (Song.with_segments song (pre ++ seg :: post))
  = Ok (Song.with_segments song (pre ++ transfer_one c b seg :: post)).
Proof.
  intros (t00 & t01 & t10 & t11 & Htr)%segment_shaped_tracks.
  destruct b as [[name start_token] end_token]. unfold transfer_segment.
  rewrite decide_True by (rewrite length_app; simpl; lia).
  destruct seg as [sname stags slyrics stracks]. simpl in Htr. subst stracks.
  unfold transfer_one, new_track. simpl.
  rewrite transfer_track_middle.
  destruct (slice_range (len (track c 0 0)) 0 start_token end_token) as [[? ?]|];
    simpl; rewrite transfer_track_middle;
    destruct (slice_range (len (track c 0 1)) 0 start_token end_token) as [[? ?]|];
    simpl; rewrite transfer_track_middle;
    destruct (slice_range (len (track c 1 0)) 1 start_token end_token) as [[? ?]|];
    simpl; rewrite transfer_track_middle;
    destruct (slice_range (len (track c 1 1)) 1 start_token end_token) as [[? ?]|];
    reflexivity.
Qed.

Lemma transfer_one_shaped c b seg :
  segment_shaped seg = true -> segment_shaped (transfer_one c b seg) = true.
Proof.
  intros (t00 & t01 & t10 & t11 & Htr)%segment_shaped_tracks.
  destruct b as [[name start_token] end_token].
  unfold segment_shaped, transfer_one. simpl. by rewrite Htr.
Qed.

(** Records beyond the last segment of the song change nothing. *)
Lemma transfer_loop_beyond c table (k n : nat) song :
  (n <= k)%nat ->
  for_each (enumerate_from k table) (transfer_segment c n) song = Ok song.
Proof.
  revert k. induction table as [|[[name s] e] table IH]; intros k Hk; simpl; [done|].
  rewrite decide_False by lia. simpl. apply IH. lia.
Qed.

Lemma transfer_loop c table song before segs :
  forallb segment_shaped segs = true ->
  for_each (enumerate_from (length before) table)
    (transfer_segment c (length (before ++ segs)))
    (Song.with_segments song (before ++ segs))
  = Ok (Song.with_segments song (before ++ transfer_all c table segs)).
Proof.
  revert before segs. induction table as [|b table IH]; intros before segs Hsh; [done|].
  cbn [enumerate_from for_each]. destruct segs as [|seg segs].
  - destruct b as [[name s] e]. unfold transfer_segment at 1.
    rewrite !app_nil_r, decide_False by lia. simpl.
    apply transfer_loop_beyond. lia.
  - simpl in Hsh. apply andb_prop in Hsh as [Hseg Hsegs].
    rewrite transfer_segment_middle by done. cbn [bind].
    replace (S (length before)) with (length (before ++ [transfer_one c b seg]))
      by (rewrite length_app; simpl; lia).
    replace (length (before ++ seg :: segs))
      with (length ((before ++ [transfer_one c b seg]) ++ segs))
      by (rewrite !length_app; simpl; lia).
    replace (before ++ transfer_one c b seg :: segs)
      with ((before ++ [transfer_one c b seg]) ++ segs) by (by rewrite <- app_assoc).
    rewrite IH by done. by rewrite <- app_assoc.
Qed.

(** [transfer_to_song] on a shaped song does not raise: what it leaves. *)
Lemma transfer_to_song_Ok c song :
  song_shaped song = true ->
  transfer_to_song c song
  = Ok (Song.with_segments song (transfer_all c (_segments c) (Song._segments song))).
Proof.
  intros Hsh. unfold transfer_to_song, Song.__len__, enumerate.
  pose proof (transfer_loop c (_segments c) song [] (Song._segments song) Hsh) as H.
  simpl in H. by rewrite with_segments_same in H.
Qed.

Lemma transfer_all_lookup c table segs (i : nat) :
  transfer_all c table segs !! i
  = match table !! i, segs !! i with
    | Some b, Some seg => Some (transfer_one c b seg)
    | _, r => r
    end.
Proof.
  revert segs i. induction table as [|b table IH]; intros [|seg segs] [|i]; simpl; try done.
  by destruct (table !! i).
Qed.

Lemma transfer_one_track c name start_token end_token seg (istage itrack : nat) :
  segment_shaped seg = true ->
  (istage < NrStages)%nat -> (itrack < NrTracks)%nat ->
  tracks_of (transfer_one c (name, start_token, end_token) seg) istage itrack
  = new_track c start_token end_token istage itrack (tracks_of seg istage itrack).
Proof.
  intros (t00 & t01 & t10 & t11 & Htr)%segment_shaped_tracks Hs Ht.
  unfold tracks_of, transfer_one, NrStages, NrTracks in *. simpl. rewrite Htr.
  destruct istage as [|[|?]]; [| |lia]; destruct itrack as [|[|?]]; try lia; reflexivity.
Qed.
End TransferToSong.

Section TransferClaims.
Import GenerationCache.
Implicit Types (seg : SongSegment.t) (segs : list SongSegment.t) (song : Song.t).
Implicit Types (c : GenerationCache.t) (table : list boundary).
Local Open Scope Z_scope.

Lemma slice_from_end (xs : list Z) stop :
  stop <= len xs -> slice xs (len xs) stop = [].
Proof.
  intros H. unfold slice, slice_bound, len in *.
  replace (Z.to_nat _) with 0%nat; [done|].
  repeat case_match; lia.
Qed.

(** C10: when the scaled start of a boundary record is exactly the length
    of a buffer that is not empty, the record is not skipped: the slice
    runs from the end of the buffer to the end offset clamped to the length
    of the buffer, and the track of the segment at the record's position is
    the empty sequence afterwards, whatever it held. *)
Theorem transfer_at_buffer_end c song (i : nat) name start_token end_token
    (istage itrack : nat) :
  song_shaped song = true ->
  _segments c !! i = Some (name, start_token, end_token) ->
  (i < Song.__len__ song)%nat ->
  (istage < NrStages)%nat ->
  (itrack < NrTracks)%nat ->
  start_token * elem_size istage = len (track c istage itrack) ->
  0 < len (track c istage itrack) ->
  slice_range (len (track c istage itrack)) istage start_token end_token
  = Some (len (track c istage itrack),
          Z.min (end_token * elem_size istage) (len (track c istage itrack)))
  /\ (start_token <= end_token ->
      Z.min (end_token * elem_size istage) (len (track c istage itrack))
      = len (track c istage itrack))
  /\ exists song' seg',
       transfer_to_song c song = Ok song'
       /\ Song.segments song' !! i = Some seg'
       /\ SongSegment.track seg' istage itrack = Ok [].
Proof.
  intros Hsh Hrec Hi Hs Ht Hstart Hpos.
  assert (Hes : 0 < elem_size istage) by (unfold elem_size; case_decide; lia).
  assert (Hrange : slice_range (len (track c istage itrack)) istage start_token end_token
                   = Some (len (track c istage itrack),
                           Z.min (end_token * elem_size istage) (len (track c istage itrack)))).
  { unfold slice_range. rewrite Hstart.
    replace (_ >? _) with false by lia. replace (_ =? 0) with false by lia. simpl.
    do 2 f_equal. case_match; lia. }
  split; [done|]. split; [nia|].
  apply lookup_lt_is_Some_2 in Hi as [seg Hseg].
  assert (Hshaped : segment_shaped seg = true).
  { unfold song_shaped in Hsh. rewrite forallb_forall in Hsh.
    apply Hsh, list_elem_of_In. by eapply list_elem_of_lookup_2. }
  exists (Song.with_segments song (transfer_all c (_segments c) (Song._segments song))),
         (transfer_one c (name, start_token, end_token) seg).
  split; [by apply transfer_to_song_Ok|]. cbn [Song.segments Song._segments Song.with_segments].
  rewrite transfer_all_lookup. unfold boundary in *. rewrite Hrec, Hseg. split; [done|].
  rewrite track_shaped by (done || by apply transfer_one_shaped).
  rewrite transfer_one_track by done.
  unfold new_track. rewrite Hrange. by rewrite slice_from_end by lia.
Qed.

Lemma transfer_at_buffer_end_witness :
  let seg name t0 := {| SongSegment._name := name; SongSegment._tags := ∅;
                        SongSegment._lyrics := "la";
                        SongSegment._tracks := [[t0; t0]; [[]; []]] |} in
  let song := Song.with_segments Song.init [seg "intro" [1; 2]; seg "verse" [7; 8; 9]]%string in
  let c := {| _tracks := [[[1; 2]; [1; 2]]; [[]; []]];
              _segments := [("intro", 0, 2); ("verse", 2, 5)]%string |} in
  slice_range (len (track c 0 0)) 0 2 5 = Some (2, Z.min (5 * elem_size 0) 2)
  /\ (2 <= 5 -> Z.min (5 * elem_size 0) 2 = 2)
  /\ exists song' seg',
       transfer_to_song c song = Ok song'
       /\ Song.segments song' !! 1%nat = Some seg'
       /\ SongSegment.track seg' 0 0 = Ok [].
Proof.
  intros seg song c.
  apply (transfer_at_buffer_end c song 1 "verse" 2 5 0 0);
    [reflexivity|reflexivity|vm_compute; lia|unfold NrStages; lia|unfold NrTracks; lia
    |reflexivity|reflexivity].
Defined.

(** *** The round trip *)

Lemma all_empty_flat (istage itrack : nat) segs :
  forallb (fun s => len (tracks_of s istage itrack) =? 0) segs = true ->
  flat_of istage itrack segs = [].
Proof.
  induction segs as [|seg segs IH]; simpl; [done|].
  intros [Hseg Hsegs]%andb_prop. unfold flat_of in *. simpl. rewrite IH by done.
  destruct (tracks_of seg istage itrack); [done|]. unfold len in Hseg. simpl in Hseg. lia.
Qed.

Lemma flat_of_app (istage itrack : nat) segs1 segs2 :
  flat_of istage itrack (segs1 ++ segs2)
  = flat_of istage itrack segs1 ++ flat_of istage itrack segs2.
Proof. unfold flat_of. by rewrite map_app, concat_app. Qed.

Lemma flat_of_cons (istage itrack : nat) seg segs :
  flat_of istage itrack (seg :: segs)
  = tracks_of seg istage itrack ++ flat_of istage itrack segs.
Proof. reflexivity. Qed.

(** In front of a segment the buffers are all full, or one of them is
    short and the segment and those after it hold nothing. *)
Lemma filled_split (istage itrack : nat) pre seg post :
  filled istage itrack (pre ++ seg :: post) = true ->
  (len (flat_of istage itrack pre) = len (flat_of 0 0 pre) * elem_size istage
   /\ filled istage itrack (seg :: post) = true)
  \/ (len (flat_of istage itrack pre) < len (flat_of 0 0 pre) * elem_size istage
      /\ tracks_of seg istage itrack = []
      /\ flat_of istage itrack post = []).
Proof.
  assert (Hes : 0 < elem_size istage) by (unfold elem_size; case_decide; lia).
  induction pre as [|p pre IH]; [intros; left; split; [unfold len; simpl; lia|done]|].
  cbn [app filled]. rewrite !flat_of_cons. unfold len in *. rewrite !length_app.
  fold (cached0 p) in *. unfold cached0, len in *.
  case_match eqn:E.
  - intros [[H1 H2]|(H1 & H2 & H3)]%IH; [left|right]; (split; [lia|done]).
  - intros [Hlt Hempty]%andb_prop. right.
    rewrite forallb_app in Hempty. apply andb_prop in Hempty as [Hpre Hrest].
    simpl in Hrest. apply andb_prop in Hrest as [Hseg Hpost].
    rewrite (all_empty_flat _ _ _ Hpre). simpl.
    split; [|split].
    + assert (0 <= Z.of_nat (length (flat_of 0 0 pre)) * elem_size istage) by lia. lia.
    + destruct (tracks_of seg istage itrack); [done|]. simpl in Hseg. lia.
    + by apply all_empty_flat.
Qed.

Lemma slice_middle (xs ys zs : list Z) :
  slice (xs ++ ys ++ zs) (len xs) (len xs + len ys) = ys.
Proof.
  unfold len. rewrite <- Nat2Z.inj_add, slice_spec by (rewrite !length_app; lia).
  rewrite drop_app_length.
  replace (length xs + length ys - length xs)%nat with (length ys) by lia.
  by rewrite take_app_length.
Qed.

(** An aligned buffer gives each segment its own tokens back. *)
Lemma new_track_aligned c (istage itrack : nat) pre seg post :
  track c istage itrack = flat_of istage itrack (pre ++ seg :: post) ->
  filled istage itrack (pre ++ seg :: post) = true ->
  new_track c (len (flat_of 0 0 pre)) (len (flat_of 0 0 pre) + cached0 seg)
    istage itrack (tracks_of seg istage itrack)
  = tracks_of seg istage itrack.
Proof.
  intros Htrack Hfilled. unfold new_track, slice_range. rewrite Htrack.
  rewrite flat_of_app, flat_of_cons.
  set (A := flat_of istage itrack pre). set (tr := tracks_of seg istage itrack).
  set (B := flat_of istage itrack post). set (P := len (flat_of 0 0 pre)).
  assert (Hes : 0 < elem_size istage) by (unfold elem_size; case_decide; lia).
  assert (HL : len (A ++ tr ++ B) = len A + len tr + len B)
    by (unfold len; rewrite !length_app; lia).
  assert (HP : 0 <= P) by (unfold P, len; lia).
  assert (Hc0 : 0 <= cached0 seg) by (unfold cached0, len; lia).
  assert (HB : 0 <= len B) by (unfold len; lia).
  assert (Htr : 0 <= len tr) by (unfold len; lia).
  destruct (filled_split _ _ _ _ _ Hfilled) as [[HA Hrest]|(HA & Hseg & Hpost)];
    fold A P in HA.
  - cbn [filled] in Hrest. fold tr in Hrest.
    destruct (len tr =? cached0 seg * elem_size istage) eqn:E.
    + apply Z.eqb_eq in E.
      replace (P * elem_size istage) with (len A) by lia.
      replace ((P + cached0 seg) * elem_size istage) with (len A + len tr) by lia.
      rewrite HL. destruct (_ || _); [done|].
      replace (len A + len tr >? len A + len tr + len B) with false by lia.
      apply slice_middle.
    + apply andb_prop in Hrest as [Hlt%Z.ltb_lt Hempty].
      apply all_empty_flat in Hempty. fold B in Hempty. rewrite Hempty in *.
      change (len (@nil Z)) with 0 in *.
      replace (P * elem_size istage) with (len A) by lia.
      rewrite HL, Z.add_0_r. destruct (_ || _); [done|].
      replace ((P + cached0 seg) * elem_size istage >? len A + len tr) with true by lia.
      apply (slice_middle A tr []).
  - fold tr in Hseg. fold B in Hpost. rewrite Hseg, Hpost in *.
    change (len (@nil Z)) with 0 in *.
    replace (P * elem_size istage >? len (A ++ [] ++ [])) with true by lia.
    done.
Qed.

Lemma boundaries_ungenerated dataidx segs :
  forallb (fun s => negb (generated s)) segs = true -> boundaries dataidx segs = [].
Proof.
  induction segs as [|seg segs IH]; simpl; [done|].
  unfold generated at 1. intros [Hseg Hsegs]%andb_prop.
  rewrite negb_involutive in Hseg. rewrite Hseg. by apply IH.
Qed.

(** With the generated segments in front, the record at a position is the
    record of the segment at that position. *)
Lemma boundaries_generated_first dataidx segs (i : nat) b :
  generated_first segs = true ->
  boundaries dataidx segs !! i = Some b ->
  exists pre seg post,
    segs = pre ++ seg :: post /\ length pre = i
    /\ b = (SongSegment._name seg, dataidx + len (flat_of 0 0 pre),
            dataidx + len (flat_of 0 0 pre) + cached0 seg).
Proof.
  revert dataidx i. induction segs as [|s segs IH]; intros dataidx i; simpl; [done|].
  unfold generated at 1. destruct (cached0 s =? 0) eqn:E; simpl.
  - intros Hun. by rewrite boundaries_ungenerated.
  - intros Hgen. destruct i as [|i]; simpl.
    + intros [= <-]. exists [], s, segs. repeat split. f_equal; [f_equal|]; unfold len; simpl; lia.
    + intros (pre & seg & post & -> & <- & ->)%IH; [|done].
      exists (s :: pre), seg, post. repeat split.
      rewrite flat_of_cons. unfold len. rewrite length_app. fold (cached0 s).
      unfold cached0, len. f_equal; [f_equal|]; lia.
Qed.

Lemma song_aligned_filled song (istage itrack : nat) :
  song_aligned song = true ->
  (istage < NrStages)%nat -> (itrack < NrTracks)%nat ->
  filled istage itrack (Song._segments song) = true.
Proof.
  unfold song_aligned, NrStages, NrTracks. simpl. rewrite !andb_true_r.
  intros [[H00 H01]%andb_prop [H10 H11]%andb_prop]%andb_prop Hs Ht.
  destruct istage as [|[|?]]; [| |lia]; destruct itrack as [|[|?]]; try lia; done.
Qed.

(** C1, as the code has it: for a song whose generated segments come first
    and whose buffers are aligned with the boundary table, the cache made
    by [create_from_song] and handed back by [transfer_to_song], the flat
    buffers untouched, leaves the song as it was. *)
Theorem round_trip_of_aligned_song song :
  song_shaped song = true ->
  generated_first (Song.segments song) = true ->
  song_aligned song = true ->
  exists cache,
    create_from_song song = Ok cache
    /\ transfer_to_song cache song = Ok song.
Proof.
  intros Hsh Hgen Hal. eexists. split; [by apply create_from_song_Ok|].
  rewrite transfer_to_song_Ok by done. cbn [_segments]. f_equal.
  etransitivity; [|apply with_segments_same]. f_equal.
  apply list_eq. intros i. rewrite transfer_all_lookup.
  destruct (boundaries 0 (Song._segments song) !! i) as [b|] eqn:Hb; [|done].
  destruct (Song._segments song !! i) as [seg|] eqn:Hseg; [|done]. f_equal.
  destruct (boundaries_generated_first _ _ _ _ Hgen Hb) as (pre & seg' & post & Hsegs & Hi & ->).
  unfold Song.segments in *.
  assert (seg' = seg) as ->.
  { rewrite Hsegs in Hseg. rewrite lookup_app_r in Hseg by lia.
    rewrite <- Hi, Nat.sub_diag in Hseg. by injection Hseg. }
  assert (Hshaped : segment_shaped seg = true).
  { unfold song_shaped in Hsh. rewrite forallb_forall in Hsh.
    apply Hsh, list_elem_of_In. by eapply list_elem_of_lookup_2. }
  assert (Hnew : forall istage itrack : nat,
             (istage < NrStages)%nat -> (itrack < NrTracks)%nat ->
             new_track
               {| _tracks :=
                    [[flat_of 0 0 (Song._segments song); flat_of 0 1 (Song._segments song)];
                     [flat_of 1 0 (Song._segments song); flat_of 1 1 (Song._segments song)]];
                  _segments := boundaries 0 (Song._segments song) |}
               (0 + len (flat_of 0 0 pre)) (0 + len (flat_of 0 0 pre) + cached0 seg)
               istage itrack (tracks_of seg istage itrack)
             = tracks_of seg istage itrack).
  { intros istage itrack Hs Ht. rewrite !Z.add_0_l.
    apply (new_track_aligned _ _ _ _ _ post).
    - rewrite <- Hsegs. unfold track, NrStages, NrTracks in *. simpl.
      destruct istage as [|[|?]]; [| |lia]; destruct itrack as [|[|?]]; try lia; done.
    - rewrite <- Hsegs. by apply song_aligned_filled. }
  pose proof (Hnew 0 0)%nat as H00. pose proof (Hnew 0 1)%nat as H01.
  pose proof (Hnew 1 0)%nat as H10. pose proof (Hnew 1 1)%nat as H11.
  apply segment_shaped_tracks in Hshaped as (t00 & t01 & t10 & t11 & Htr).
  destruct seg as [sname stags slyrics stracks]. simpl in Htr. subst stracks.
  unfold transfer_one, tracks_of, NrStages, NrTracks in *. simpl in *.
  rewrite H00, H01, H10, H11 by lia. done.
Qed.
End TransferClaims.

Section RoundTripExamples.
Import GenerationCache.
Local Open Scope Z_scope.

(** The boundary table counts stage-0, track-0 tokens only: a track that
    holds more than its share of them comes back cut. *)
Lemma round_trip_cuts_longer_track :
  let seg := {| SongSegment._name := "verse"; SongSegment._tags := ∅;
                SongSegment._lyrics := "la";
                SongSegment._tracks := [[[1]; [2; 3]]; [[]; []]] |} in
  let song := Song.with_segments Song.init [seg] in
  exists cache song',
    create_from_song song = Ok cache
    /\ transfer_to_song cache song = Ok song'
    /\ map SongSegment._tracks (Song.segments song) = [[[[1]; [2; 3]]; [[]; []]]]
    /\ map SongSegment._tracks (Song.segments song') = [[[[1]; [2]]; [[]; []]]]
    /\ map SongSegment._tracks (Song.segments song')
       <> map SongSegment._tracks (Song.segments song).
Proof.
  intros seg song. eexists _, _.
  split; [reflexivity|]. split; [reflexivity|]. by vm_compute.
Qed.

(** A segment without tokens in front of one with tokens: the only record
    is the second segment's, and it goes to the first segment. *)
Lemma round_trip_fills_empty_segment :
  let seg name t := {| SongSegment._name := name; SongSegment._tags := ∅;
                       SongSegment._lyrics := "la";
                       SongSegment._tracks := [[t; t]; [[]; []]] |} in
  let song := Song.with_segments Song.init [seg "intro" []; seg "verse" [1; 2]]%string in
  exists cache song',
    create_from_song song = Ok cache
    /\ segments cache = [("verse"%string, 0, 2)]
    /\ transfer_to_song cache song = Ok song'
    /\ map SongSegment._tracks (Song.segments song')
       = [[[[1; 2]; [1; 2]]; [[]; []]]; [[[1; 2]; [1; 2]]; [[]; []]]].
Proof.
  intros seg song. eexists _, _.
  split; [reflexivity|]. split; [reflexivity|]. split; reflexivity.
Qed.

Lemma round_trip_of_aligned_song_witness :
  let seg name t0 t1 := {| SongSegment._name := name; SongSegment._tags := ∅;
                           SongSegment._lyrics := "la";
                           SongSegment._tracks := [[t0; t0]; [t1; t1]] |} in
  let song := Song.with_segments Song.init
                [seg "intro" [5] [1; 2; 3; 4; 5; 6; 7; 8];
                 seg "verse" [6; 7] [9; 10; 11];
                 seg "outro" [] []]%string in
  exists cache,
    create_from_song song = Ok cache
    /\ transfer_to_song cache song = Ok song.
Proof.
  intros seg song.
  apply (round_trip_of_aligned_song song); reflexivity.
Defined.
End RoundTripExamples.

(** ** The shape of the segments is an invariant *)

Section Shape.
Implicit Types (seg : SongSegment.t) (segs : list SongSegment.t) (song : Song.t).

Lemma create_shaped name tags lyrics :
  segment_shaped (SongSegment.create name tags lyrics) = true.
Proof. reflexivity. Qed.

Lemma merge_shaped seg old :
  segment_shaped old = true -> segment_shaped (SongSegment.merge seg old) = true.
Proof. done. Qed.

Lemma segment_set_track_shaped seg (istage itrack : nat) tr seg' :
  segment_shaped seg = true ->
  SongSegment.set_track seg istage itrack tr = Ok seg' ->
  segment_shaped seg' = true.
Proof.
  intros (t00 & t01 & t10 & t11 & Htr)%segment_shaped_tracks.
  unfold SongSegment.set_track. rewrite Htr.
  destruct istage as [|[|?]]; [| |done];
    (destruct itrack as [|[|?]]; [| |done]); by intros [= <-].
Qed.

Lemma merge_forward_shaped old new :
  forallb segment_shaped old = true ->
  forallb segment_shaped new = true ->
  forallb segment_shaped (merge_forward old new) = true.
Proof.
  revert old. induction new as [|n new IH]; intros [|o old]; simpl; try done.
  intros [Ho Hold]%andb_prop [Hn Hnew]%andb_prop.
  rewrite IH by done. by rewrite merge_shaped.
Qed.

(** [set_lyrics] keeps a song shaped. *)
Lemma set_lyrics_shaped song text song' :
  song_shaped song = true ->
  Song.set_lyrics song text = Ok song' ->
  song_shaped song' = true.
Proof.
  intros Hsh. rewrite set_lyrics_Ok. intros [= <-]. unfold song_shaped. simpl.
  apply merge_forward_shaped; [done|].
  apply forallb_forall. intros seg (m & <- & _)%in_map_iff. apply create_shaped.
Qed.

Lemma transfer_all_shaped c table segs :
  forallb segment_shaped segs = true ->
  forallb segment_shaped (transfer_all c table segs) = true.
Proof.
  revert segs. induction table as [|b table IH]; intros [|seg segs]; simpl; try done.
  intros [Hseg Hsegs]%andb_prop. rewrite IH by done. by rewrite transfer_one_shaped.
Qed.

(** [transfer_to_song] keeps a song shaped. *)
Lemma transfer_to_song_shaped c song song' :
  song_shaped song = true ->
  GenerationCache.transfer_to_song c song = Ok song' ->
  song_shaped song' = true.
Proof.
  intros Hsh. rewrite transfer_to_song_Ok by done. intros [= <-].
  unfold song_shaped. simpl. by apply transfer_all_shaped.
Qed.
(** A loop keeps what each turn of its body keeps. *)
Lemma for_each_invariant {A St} (P : St -> Prop) (xs : list A)
    (body : A -> St -> result St) st st' :
  (forall x s s', P s -> body x s = Ok s' -> P s') ->
  P st -> for_each xs body st = Ok st' -> P st'.
Proof.
  intros Hbody. revert st. induction xs as [|x xs IH]; intros st HP; simpl.
  - by intros [= <-].
  - destruct (body x st) as [s1|] eqn:E; simpl; [|done]. eauto.
Qed.

Lemma song_set_track_shaped song (iseg istage itrack : nat) tr song' :
  song_shaped song = true ->
  Song.set_track song iseg istage itrack tr = Ok song' ->
  song_shaped song' = true.
Proof.
  unfold Song.set_track, Song.__getitem__, getitem, song_shaped. intros Hsh.
  destruct (Song._segments song !! iseg) as [seg|] eqn:Hseg; simpl; [|done].
  destruct (SongSegment.set_track seg istage itrack tr) as [seg'|] eqn:Hset; simpl; [|done].
  intros [= <-]. simpl. rewrite forallb_forall in *. intros s Hin.
  apply list_elem_of_In, list_elem_of_lookup in Hin as [i Hi].
  destruct (decide (i = iseg)) as [->|Hne].
  - rewrite list_lookup_insert_eq in Hi by (by eapply lookup_lt_Some).
    injection Hi as <-. eapply segment_set_track_shaped; [|done].
    apply Hsh, list_elem_of_In. by eapply list_elem_of_lookup_2.
  - rewrite list_lookup_insert_ne in Hi by done.
    apply Hsh, list_elem_of_In. by eapply list_elem_of_lookup_2.
Qed.

Lemma clear_cache_shaped song (istage : nat) song' :
  song_shaped song = true ->
  Song.clear_cache song istage = Ok song' ->
  song_shaped song' = true.
Proof.
  intros Hsh. unfold Song.clear_cache.
  apply (for_each_invariant (fun s => song_shaped s = true)); [|done].
  intros iseg s s' Hs.
  apply (for_each_invariant (fun s => song_shaped s = true)); [|done].
  intros itrack s1 s2 Hs1. by apply song_set_track_shaped.
Qed.

(** Every song the program makes is shaped. *)
Theorem reachable_song_shaped song : song_reachable song -> song_shaped song = true.
Proof.
  induction 1 as [|song text song' _ IH Hset|song iseg istage itrack tr song' _ IH Hset
                  |song istage song' _ IH Hclear|c song song' _ IH Htr].
  - reflexivity.
  - by eapply set_lyrics_shaped.
  - by eapply song_set_track_shaped.
  - by eapply clear_cache_shaped.
  - by eapply transfer_to_song_shaped.
Qed.

Lemma reachable_song_shaped_witness :
  exists song,
    Song.set_lyrics Song.init "[verse] hello [chorus] la" = Ok song
    /\ song_shaped song = true.
Proof.
  eexists. split; [apply set_lyrics_Ok|].
  apply reachable_song_shaped.
  apply (reach_set_lyrics Song.init "[verse] hello [chorus] la"); [apply reach_init|].
  apply set_lyrics_Ok.
Defined.
End Shape.

(** ** Further properties of the cache *)

Section Further.
Import GenerationCache.
Implicit Types (c : GenerationCache.t) (song : Song.t).
Local Open Scope Z_scope.

(** [rewind] raises for no cache and no duration, and keeps the flat
    buffers. *)
Theorem rewind_never_raises c timems :
  exists c', rewind c timems = Ok c' /\ _tracks c' = _tracks c.
Proof. destruct (rewind_Ok c timems) as (segs' & _ & ->). by eexists. Qed.

(** [rewind] of an ordered cache leaves an ordered cache, and of a table
    that is not empty it leaves the total minus the tokens, or nothing. *)
Theorem rewind_remaining_total c timems :
  cache_ordered c = true ->
  _segments c <> [] ->
  exists c',
    rewind c timems = Ok c'
    /\ cache_ordered c' = true
    /\ total_length (_segments c') = Z.max 0 (total_length (_segments c) - timems / 20).
Proof.
  intros Ho Hne. destruct (rewind_total c timems Ho) as (c' & Hr & Ho' & _ & Ht).
  exists c'. by destruct (Ht Hne).
Qed.

Lemma rewind_remaining_total_witness :
  let c := {| _tracks := []; _segments := [("intro"%string, 0, 4); ("verse"%string, 4, 10)] |} in
  exists c',
    rewind c 150 = Ok c'
    /\ cache_ordered c' = true
    /\ total_length (_segments c') = Z.max 0 (total_length (_segments c) - 150 / 20).
Proof. intros c. apply (rewind_remaining_total c 150); [reflexivity|done]. Defined.

(** [transfer_to_song] raises for no cache when the song is shaped; it
    keeps the number of segments and their names, tags and lyrics. *)
Theorem transfer_never_raises c song :
  song_shaped song = true ->
  exists song',
    transfer_to_song c song = Ok song'
    /\ map (fun seg => (SongSegment._name seg, SongSegment._tags seg, SongSegment._lyrics seg))
           (Song.segments song')
       = map (fun seg => (SongSegment._name seg, SongSegment._tags seg, SongSegment._lyrics seg))
           (Song.segments song).
Proof.
  intros Hsh. eexists. split; [by apply transfer_to_song_Ok|].
  unfold Song.segments. simpl. generalize (Song._segments song). generalize (_segments c).
  induction l as [|[[name s] e] table IH]; intros [|seg segs]; simpl; try done.
  by rewrite IH.
Qed.

Lemma transfer_never_raises_witness :
  let seg name t := {| SongSegment._name := name; SongSegment._tags := ∅;
                       SongSegment._lyrics := "la";
                       SongSegment._tracks := [[t; t]; [[]; []]] |} in
  let song := Song.with_segments Song.init [seg "intro" []; seg "verse" []]%string in
  let c := {| _tracks := [[[1; 2; 3]; [4; 5; 6]]; [[]; []]];
              _segments := [("intro"%string, 0, 2); ("verse"%string, 2, 3)] |} in
  exists song',
    transfer_to_song c song = Ok song'
    /\ map (fun seg => (SongSegment._name seg, SongSegment._tags seg, SongSegment._lyrics seg))
           (Song.segments song')
       = map (fun seg => (SongSegment._name seg, SongSegment._tags seg, SongSegment._lyrics seg))
           (Song.segments song).
Proof. intros seg song c. apply (transfer_never_raises c song). reflexivity. Defined.

Lemma create_from_song_ordered_witness :
  let seg name t := {| SongSegment._name := name; SongSegment._tags := ∅;
                       SongSegment._lyrics := "la";
                       SongSegment._tracks := [[t; t]; [[]; []]] |} in
  let song := Song.with_segments Song.init [seg "intro" [1; 2]; seg "verse" [3]]%string in
  cache_ordered
    {| _tracks := [[[1; 2; 3]; [1; 2; 3]]; [[]; []]];
       _segments := [("intro"%string, 0, 2); ("verse"%string, 2, 3)] |} = true.
Proof. intros seg song. apply (create_from_song_ordered song); reflexivity. Defined.

Lemma set_lyrics_twice_witness :
  let text := ("#length 2" +:+ LF +:+ "[verse]" +:+ LF +:+ "hello")%string in
  exists song, Song.set_lyrics Song.init text = Ok song
    /\ Song.set_lyrics song text = Ok song.
Proof.
  intros text. eexists. split; [apply set_lyrics_Ok|].
  apply (set_lyrics_twice Song.init text). apply set_lyrics_Ok.
Defined.

End Further.

(** ** [Song.clear_cache] *)

Section ClearCache.
Implicit Types (seg : SongSegment.t) (segs : list SongSegment.t) (song : Song.t).

Lemma clear_segment song pre seg post (istage : nat) :
  segment_shaped seg = true ->
  istage < NrStages ->
  for_each (seq 0 NrTracks)
    (fun itrack self => Song.set_track self (length pre) istage itrack [])
    (Song.with_segments song (pre ++ seg :: post))
  = Ok (Song.with_segments song (pre ++ clear_stage istage seg :: post)).
Proof.
  intros (t00 & t01 & t10 & t11 & Htr)%segment_shaped_tracks Hs.
  destruct seg as [sname stags slyrics stracks]. simpl in Htr. subst stracks.
  unfold NrStages, NrTracks in *. cbn [seq for_each].
  destruct istage as [|[|?]]; [| |lia].
  - rewrite song_set_track_middle.
    change (SongSegment.set_track _ 0 0 []) with
      (Ok {| SongSegment._name := sname; SongSegment._tags := stags;
             SongSegment._lyrics := slyrics; SongSegment._tracks := [[[]; t01]; [t10; t11]] |}).
    cbn [bind]. rewrite song_set_track_middle. reflexivity.
  - rewrite song_set_track_middle.
    change (SongSegment.set_track _ 1 0 []) with
      (Ok {| SongSegment._name := sname; SongSegment._tags := stags;
             SongSegment._lyrics := slyrics; SongSegment._tracks := [[t00; t01]; [[]; t11]] |}).
    cbn [bind]. rewrite song_set_track_middle. reflexivity.
Qed.

Lemma clear_loop song before segs (istage : nat) :
  forallb segment_shaped segs = true ->
  istage < NrStages ->
  for_each (seq (length before) (length segs))
    (fun iseg self =>
       for_each (seq 0 NrTracks)
         (fun itrack self => Song.set_track self iseg istage itrack []) self)
    (Song.with_segments song (before ++ segs))
  = Ok (Song.with_segments song (before ++ map (clear_stage istage) segs)).
Proof.
  intros Hsh Hs. revert before Hsh. induction segs as [|seg segs IH]; intros before Hsh; [done|].
  simpl in Hsh. apply andb_prop in Hsh as [Hseg Hsegs].
  cbn [length seq for_each map]. rewrite clear_segment by done. cbn [bind].
  replace (S (length before)) with (length (before ++ [clear_stage istage seg]))
    by (rewrite length_app; simpl; lia).
  replace (before ++ clear_stage istage seg :: segs)
    with ((before ++ [clear_stage istage seg]) ++ segs) by (by rewrite <- app_assoc).
  rewrite IH by done. by rewrite <- app_assoc.
Qed.

Lemma clear_cache_Ok song (istage : nat) :
  song_shaped song = true ->
  istage < NrStages ->
  Song.clear_cache song istage
  = Ok (Song.with_segments song (map (clear_stage istage) (Song._segments song))).
Proof.
  intros Hsh Hs. unfold Song.clear_cache.
  pose proof (clear_loop song [] (Song._segments song) istage Hsh Hs) as H.
  simpl in H. by rewrite with_segments_same in H.
Qed.
End ClearCache.

Section ClearCacheClaims.
Import GenerationCache.
Implicit Types (seg : SongSegment.t) (segs : list SongSegment.t) (song : Song.t).

Lemma clear_stage_track seg (istage s t : nat) :
  segment_shaped seg = true ->
  istage < NrStages -> s < NrStages -> t < NrTracks ->
  SongSegment.track (clear_stage istage seg) s t
  = if decide (s = istage) then Ok [] else SongSegment.track seg s t.
Proof.
  intros (t00 & t01 & t10 & t11 & Htr)%segment_shaped_tracks Hi Hs Ht.
  unfold SongSegment.track, clear_stage, NrStages, NrTracks in *. simpl. rewrite Htr.
  destruct istage as [|[|?]]; [| |lia]; (destruct s as [|[|?]]; [| |lia]);
    (destruct t as [|[|?]]; [| |lia]); reflexivity.
Qed.

Lemma clear_stage_shaped seg (istage : nat) :
  segment_shaped seg = true -> segment_shaped (clear_stage istage seg) = true.
Proof.
  intros (t00 & t01 & t10 & t11 & Htr)%segment_shaped_tracks.
  unfold segment_shaped, clear_stage. simpl. rewrite Htr.
  by destruct istage as [|[|?]].
Qed.

Lemma clear_stage_flat (istage t : nat) segs :
  forallb segment_shaped segs = true ->
  istage < NrStages -> t < NrTracks ->
  flat_of istage t (map (clear_stage istage) segs) = [].
Proof.
  intros Hsh Hi Ht. induction segs as [|seg segs IH]; [done|].
  simpl in Hsh. apply andb_prop in Hsh as [Hseg Hsegs].
  cbn [map]. rewrite flat_of_cons, IH, app_nil_r by done.
  apply segment_shaped_tracks in Hseg as (t00 & t01 & t10 & t11 & Htr).
  unfold tracks_of, clear_stage, NrStages, NrTracks in *. simpl. rewrite Htr.
  destruct istage as [|[|?]]; [| |lia]; (destruct t as [|[|?]]; [| |lia]); reflexivity.
Qed.

Lemma clear_cache_out_of_range song (istage : nat) :
  song_shaped song = true ->
  NrStages <= istage ->
  Song.segments song <> [] ->
  Song.clear_cache song istage = Raise IndexError.
Proof.
  unfold Song.clear_cache, Song.segments, song_shaped.
  destruct (Song._segments song) as [|seg segs] eqn:E; [done|].
  intros Hsh Hi _. simpl in Hsh. apply andb_prop in Hsh as [Hseg _].
  apply segment_shaped_tracks in Hseg as (t00 & t01 & t10 & t11 & Htr).
  cbn [length seq for_each]. unfold NrTracks. cbn [seq for_each].
  unfold Song.set_track at 1, Song.__getitem__. rewrite E.
  cbn [getitem lookup list_lookup bind]. unfold SongSegment.set_track. rewrite Htr.
  unfold NrStages in Hi. destruct istage as [|[|?]]; [lia|lia|]. reflexivity.
Qed.

(** [clear_cache(istage)] empties the buffers of the stage in every segment
    and touches nothing else; a stage the segments do not have raises
    [IndexError] as soon as there is a segment to clear. *)
Theorem clear_cache_empties_stage song (istage : nat) :
  song_shaped song = true ->
  (istage < NrStages ->
   exists song',
     Song.clear_cache song istage = Ok song'
     /\ Song.with_segments song' (Song.segments song) = song
     /\ length (Song.segments song') = length (Song.segments song)
     /\ forall i seg, Song.segments song !! i = Some seg ->
          exists seg',
            Song.segments song' !! i = Some seg'
            /\ SongSegment._name seg' = SongSegment._name seg
            /\ SongSegment._tags seg' = SongSegment._tags seg
            /\ SongSegment._lyrics seg' = SongSegment._lyrics seg
            /\ forall s t : nat, s < NrStages -> t < NrTracks ->
                 SongSegment.track seg' s t
                 = if decide (s = istage) then Ok [] else SongSegment.track seg s t)
  /\ (NrStages <= istage -> Song.segments song <> [] ->
      Song.clear_cache song istage = Raise IndexError)
  /\ (Song.segments song = [] -> Song.clear_cache song istage = Ok song).
Proof.
  intros Hsh. split; [|split].
  - intros Hi. eexists. split; [by apply clear_cache_Ok|].
    unfold Song.segments. cbn [Song._segments Song.with_segments].
    split; [by destruct song|]. split; [by rewrite length_map|].
    intros i seg Hseg. exists (clear_stage istage seg).
    rewrite list_lookup_fmap, Hseg. do 4 (split; [done|]).
    intros s t Hs Ht. apply clear_stage_track; try done.
    unfold song_shaped in Hsh. rewrite forallb_forall in Hsh.
    apply Hsh, list_elem_of_In. by eapply list_elem_of_lookup_2.
  - by apply clear_cache_out_of_range.
  - unfold Song.clear_cache, Song.segments. by intros ->.
Qed.

Lemma clear_cache_empties_stage_witness :
  let seg name t0 t1 := {| SongSegment._name := name; SongSegment._tags := ∅;
                           SongSegment._lyrics := "la";
                           SongSegment._tracks := [[t0; t0]; [t1; t1]] |} in
  let song := Song.with_segments Song.init
                [seg "intro" [5] [1; 2; 3; 4; 5; 6; 7; 8]; seg "verse" [6; 7] []]%string%Z in
  Song.clear_cache song 0
  = Ok (Song.with_segments Song.init
          [seg "intro" [] [1; 2; 3; 4; 5; 6; 7; 8]; seg "verse" [] []]%string%Z)
  /\ Song.clear_cache song 2 = Raise IndexError.
Proof.
  intros seg song.
  destruct (clear_cache_empties_stage song 2 eq_refl) as (_ & Hout & _).
  split; [reflexivity|]. apply Hout; [unfold NrStages; lia|done].
Defined.

(** After [clear_cache(0)] the song has no stage-0 tokens: the cache made
    of it has empty stage-0 buffers and no boundary record, whatever the
    stage-1 buffers hold. *)
Theorem clear_cache_then_create_is_empty song song' :
  song_shaped song = true ->
  Song.clear_cache song 0 = Ok song' ->
  exists cache,
    create_from_song song' = Ok cache
    /\ segments cache = []
    /\ (forall itrack, track cache 0 itrack = [])
    /\ (forall itrack : nat, itrack < NrTracks ->
          track cache 1 itrack = flat_of 1 itrack (Song.segments song)).
Proof.
  intros Hsh. rewrite clear_cache_Ok by (done || (unfold NrStages; lia)). intros [= <-].
  assert (Hsh' : forallb segment_shaped (map (clear_stage 0) (Song._segments song)) = true).
  { unfold song_shaped in Hsh. rewrite forallb_forall in *.
    intros s (seg & <- & Hin)%in_map_iff. apply clear_stage_shaped. by apply Hsh. }
  eexists. split; [by apply create_from_song_Ok|].
  unfold segments, track, Song.segments. cbn [_segments _tracks Song._segments Song.with_segments].
  assert (H0 : forall t : nat, t < NrTracks ->
                 flat_of 0 t (map (clear_stage 0) (Song._segments song)) = []).
  { intros t Ht. apply clear_stage_flat; [done|unfold NrStages; lia|done]. }
  split; [|split].
  - assert (Hb : forall d segs, flat_of 0 0 segs = [] -> boundaries d segs = []).
    { intros d segs. revert d. induction segs as [|s segs IH]; intros d; [done|].
      rewrite flat_of_cons. intros [H1 H2]%app_eq_nil. simpl.
      unfold cached0. rewrite H1. simpl. by apply IH. }
    apply Hb, H0. unfold NrTracks. lia.
  - intros [|[|t]]; simpl; [apply H0; unfold NrTracks; lia..|done].
  - intros t Ht. unfold NrTracks in Ht.
    assert (Hf : forall segs, flat_of 1 t (map (clear_stage 0) segs) = flat_of 1 t segs).
    { induction segs as [|s segs IH]; [done|]. cbn [map]. rewrite !flat_of_cons, IH. f_equal.
      unfold tracks_of, clear_stage. simpl.
      destruct (SongSegment._tracks s) as [|r0 [|r1 rest]]; done. }
    destruct t as [|[|t]]; [| |lia]; simpl; apply Hf.
Qed.

Lemma clear_cache_then_create_is_empty_witness :
  let seg name t0 t1 := {| SongSegment._name := name; SongSegment._tags := ∅;
                           SongSegment._lyrics := "la";
                           SongSegment._tracks := [[t0; t0]; [t1; t1]] |} in
  let song := Song.with_segments Song.init
                [seg "intro" [5] [1; 2; 3; 4; 5; 6; 7; 8]; seg "verse" [6; 7] []]%string%Z in
  exists cache,
    create_from_song
      (Song.with_segments Song.init
         [seg "intro" [] [1; 2; 3; 4; 5; 6; 7; 8]; seg "verse" [] []]%string%Z) = Ok cache
    /\ segments cache = []
    /\ (forall itrack, track cache 0 itrack = [])
    /\ (forall itrack : nat, itrack < NrTracks ->
          track cache 1 itrack = flat_of 1 itrack (Song.segments song)).
Proof.
  intros seg song. apply (clear_cache_then_create_is_empty song); reflexivity.
Defined.
End ClearCacheClaims.

(** ** Laws of the cache *)

Section CacheLaws.
Import GenerationCache.
Implicit Types (seg : SongSegment.t) (segs : list SongSegment.t) (song : Song.t).
Implicit Types (c : GenerationCache.t) (table : list boundary).
Local Open Scope Z_scope.

(** A segment at a position for which the boundary table has no record is
    not touched by [transfer_to_song]: it keeps the tokens it holds, also
    when [rewind] dropped its record. *)
Theorem transfer_keeps_segments_without_record c song (i : nat) :
  song_shaped song = true ->
  (length (segments c) <= i)%nat ->
  exists song',
    transfer_to_song c song = Ok song'
    /\ Song.segments song' !! i = Song.segments song !! i.
Proof.
  intros Hsh Hi. eexists. split; [by apply transfer_to_song_Ok|].
  unfold Song.segments, segments in *. cbn [Song._segments Song.with_segments].
  rewrite transfer_all_lookup. by rewrite (lookup_ge_None_2 _ _ Hi).
Qed.

Lemma transfer_keeps_segments_without_record_witness :
  let seg name t := {| SongSegment._name := name; SongSegment._tags := ∅;
                       SongSegment._lyrics := "la";
                       SongSegment._tracks := [[t; t]; [[]; []]] |} in
  let song := Song.with_segments Song.init [seg "intro" [1; 2]; seg "verse" [3; 4; 5]]%string in
  exists cache cache' song',
    create_from_song song = Ok cache
    /\ rewind cache 80 = Ok cache'
    /\ segments cache' = [("intro"%string, 0, 1)]
    /\ transfer_to_song cache' song = Ok song'
    /\ Song.segments song' !! 1%nat = Song.segments song !! 1%nat.
Proof.
  intros seg song.
  exists {| _tracks := [[[1; 2; 3; 4; 5]; [1; 2; 3; 4; 5]]; [[]; []]];
            _segments := [("intro"%string, 0, 2); ("verse"%string, 2, 5)] |}.
  exists {| _tracks := [[[1; 2; 3; 4; 5]; [1; 2; 3; 4; 5]]; [[]; []]];
            _segments := [("intro"%string, 0, 1)] |}.
  destruct (transfer_keeps_segments_without_record
              {| _tracks := [[[1; 2; 3; 4; 5]; [1; 2; 3; 4; 5]]; [[]; []]];
                 _segments := [("intro"%string, 0, 1)] |} song 1 eq_refl)
    as (song' & Ht & Hl); [simpl; lia|].
  exists song'. repeat split; try reflexivity; assumption.
Defined.

(** The flat buffer [create_from_song] makes for a stage and a track is the
    buffers of the segments for that stage and track, one after the other
    in the order of the segments; [track] gives it, and gives the empty
    list for a stage or a track the cache does not have. *)
Theorem create_from_song_concatenates song :
  song_shaped song = true ->
  exists cache,
    create_from_song song = Ok cache
    /\ (forall istage : nat, (istage < NrStages)%nat ->
          Song.merge_segments song istage
          = Ok [track cache istage 0; track cache istage 1])
    /\ (forall istage itrack : nat,
          (istage < NrStages)%nat -> (itrack < NrTracks)%nat ->
          track cache istage itrack
          = concat (map (fun seg => tracks_of seg istage itrack) (Song.segments song)))
    /\ (forall istage itrack : nat,
          (NrStages <= istage)%nat \/ (NrTracks <= itrack)%nat ->
          track cache istage itrack = []).
Proof.
  intros Hsh. eexists. split; [by apply create_from_song_Ok|].
  unfold NrStages, NrTracks, track. cbn [_tracks]. split; [|split].
  - intros istage Hs. rewrite merge_segments_Ok by done.
    destruct istage as [|[|?]]; [| |lia]; reflexivity.
  - intros istage itrack Hs Ht.
    destruct istage as [|[|?]]; [| |lia]; destruct itrack as [|[|?]]; try lia; reflexivity.
  - intros istage itrack [Hs|Ht].
    + destruct istage as [|[|?]]; [lia|lia|]. reflexivity.
    + destruct istage as [|[|?]]; [| |done]; (destruct itrack as [|[|?]]; [lia|lia|]); reflexivity.
Qed.

Lemma create_from_song_concatenates_witness :
  let seg name t0 t1 := {| SongSegment._name := name; SongSegment._tags := ∅;
                           SongSegment._lyrics := "la";
                           SongSegment._tracks := [[t0; t0]; [t1; []]] |} in
  let song := Song.with_segments Song.init
                [seg "intro" [1; 2] [7]; seg "verse" [] [8]; seg "outro" [3] [9]]%string in
  exists cache,
    create_from_song song = Ok cache
    /\ track cache 0 0 = [1; 2; 3]
    /\ track cache 1 0 = [7; 8; 9]
    /\ track cache 2 0 = [].
Proof.
  intros seg song.
  destruct (create_from_song_concatenates song eq_refl) as (cache & Hc & _ & Ht & Hout).
  exists cache. split; [exact Hc|].
  rewrite !Ht by (unfold NrStages, NrTracks; lia).
  split; [reflexivity|]. split; [reflexivity|].
  apply Hout. left. unfold NrStages. lia.
Defined.

Lemma rewind_loop_add table a b table1 :
  0 <= a -> 0 <= b ->
  rewind_loop (length table) a table = Ok table1 ->
  rewind_loop (length table1) b table1 = rewind_loop (length table) (a + b) table.
Proof.
  revert a table1.
  induction table as [|[[name start] end_] table IH] using rev_ind; intros a table1 Ha Hb.
  - simpl. by intros [= <-].
  - rewrite !rewind_loop_snoc.
    destruct (a >? end_ - start) eqn:E1.
    + intros H1. assert (Ha' : 0 <= a - (end_ - start)) by lia.
      rewrite (IH _ _ Ha' Hb H1).
      replace (a + b >? end_ - start) with true by lia.
      f_equal. lia.
    + intros [= <-]. rewrite rewind_loop_snoc.
      replace (end_ - a - start) with (end_ - start - a) by lia.
      destruct (b >? end_ - start - a) eqn:E2.
      * replace (a + b >? end_ - start) with true by lia. f_equal. lia.
      * replace (a + b >? end_ - start) with false by lia.
        replace (end_ - a - b) with (end_ - (a + b)) by lia. done.
Qed.

(** Rewinds add up in whole tokens: for durations that are not negative and
    whose remainders modulo 20 ms do not add up to a token, two rewinds in
    a row leave the cache that one rewind of the summed duration leaves. *)
Theorem rewind_twice_is_rewind_of_sum c d1 d2 c1 :
  0 <= d1 -> 0 <= d2 ->
  d1 mod 20 + d2 mod 20 < 20 ->
  rewind c d1 = Ok c1 ->
  rewind c1 d2 = rewind c (d1 + d2).
Proof.
  intros H1 H2 Hmod. destruct (rewind_Ok c d1) as (segs' & Hl & ->). intros [= <-].
  unfold rewind. cbn [_segments _tracks].
  assert (Hdiv : (d1 + d2) / 20 = d1 / 20 + d2 / 20 /\ 0 <= d1 / 20 /\ 0 <= d2 / 20)
    by (Z.div_mod_to_equations; lia).
  destruct Hdiv as (-> & Ha & Hb).
  by rewrite (rewind_loop_add _ _ _ _ Ha Hb Hl).
Qed.

Lemma rewind_twice_is_rewind_of_sum_witness :
  let c := {| _tracks := [];
              _segments := [("a"%string, 0, 10); ("b"%string, 10, 20); ("c"%string, 20, 30)] |} in
  let c1 := {| _tracks := [];
               _segments := [("a"%string, 0, 10); ("b"%string, 10, 20); ("c"%string, 20, 25)] |} in
  rewind c1 200 = rewind c (100 + 200)
  /\ rewind c 300 = Ok {| _tracks := []; _segments := [("a"%string, 0, 10); ("b"%string, 10, 15)] |}.
Proof.
  intros c c1. split; [|reflexivity].
  apply (rewind_twice_is_rewind_of_sum c 100 200 c1); [lia|lia|by vm_compute|reflexivity].
Defined.

(** A rewind of less than one token (0 to 19 ms) changes nothing in an
    ordered cache. *)
Theorem rewind_under_one_token c timems :
  cache_ordered c = true ->
  0 <= timems < 20 ->
  rewind c timems = Ok c.
Proof.
  intros Ho Ht. unfold rewind. replace (timems / 20) with 0 by (Z.div_mod_to_equations; lia).
  destruct c as [trs table]. unfold cache_ordered in Ho. cbn [_segments _tracks] in *.
  destruct table as [|[[name start] end_] table _] using rev_ind; [done|].
  rewrite forallb_snoc in Ho. apply andb_prop in Ho as [_ Hb].
  unfold boundary_ordered in Hb. simpl in Hb.
  rewrite rewind_loop_snoc. replace (0 >? end_ - start) with false by lia.
  cbn [bind]. by rewrite Z.sub_0_r.
Qed.

Lemma rewind_under_one_token_witness :
  let c := {| _tracks := []; _segments := [("a"%string, 0, 10); ("b"%string, 10, 20)] |} in
  rewind c 19 = Ok c.
Proof. intros c. apply (rewind_under_one_token c 19); [reflexivity|lia]. Defined.

End CacheLaws.

Section SegmentTracks.
Implicit Types (seg : SongSegment.t).

(** [set_track] then [track]: the buffer that was set is the one read back,
    every other buffer and the name, tags and lyrics are as before, and
    [set_track] raises exactly where [track] does, for a stage or a track the
    segment does not have. *)
Theorem set_track_then_track seg (istage itrack : nat) (tr : list Z) :
  (forall seg',
     SongSegment.set_track seg istage itrack tr = Ok seg' ->
     SongSegment.track seg' istage itrack = Ok tr
     /\ (forall s t : nat, (s, t) <> (istage, itrack) ->
           SongSegment.track seg' s t = SongSegment.track seg s t)
     /\ SongSegment._name seg' = SongSegment._name seg
     /\ SongSegment._tags seg' = SongSegment._tags seg
     /\ SongSegment._lyrics seg' = SongSegment._lyrics seg)
  /\ (is_ok (SongSegment.set_track seg istage itrack tr)
      = is_ok (SongSegment.track seg istage itrack))
  /\ (SongSegment.track seg istage itrack = Raise IndexError ->
      SongSegment.set_track seg istage itrack tr = Raise IndexError).
Proof.
  unfold SongSegment.set_track, SongSegment.track, getitem, setitem.
  destruct (SongSegment._tracks seg !! istage) as [row|] eqn:Hrow; cbn [bind]; [|done].
  pose proof (lookup_lt_Some _ _ _ Hrow) as Hlt.
  destruct (row !! itrack) as [old|] eqn:Hold.
  - pose proof (lookup_lt_Some _ _ _ Hold) as Hlt'.
    rewrite decide_True by done. cbn [bind]. split; [|done].
    intros seg' [= <-]. cbn [SongSegment._tracks SongSegment._name SongSegment._tags
                             SongSegment._lyrics].
    rewrite list_lookup_insert_eq by done. cbn [bind].
    rewrite list_lookup_insert_eq by done. split; [done|]. split; [|done].
    intros s t Hne. destruct (decide (s = istage)) as [->|Hs].
    + rewrite list_lookup_insert_eq, Hrow by done. cbn [bind].
      rewrite list_lookup_insert_ne by congruence. done.
    + by rewrite list_lookup_insert_ne by done.
  - apply lookup_ge_None_1 in Hold. rewrite decide_False by lia. done.
Qed.
End SegmentTracks.

(** ** A rewind between [create_from_song] and [transfer_to_song] *)

Section RewindTransfer.
Import GenerationCache.
Implicit Types (seg : SongSegment.t) (segs : list SongSegment.t) (song : Song.t).
Implicit Types (c : GenerationCache.t) (table : list boundary).
Local Open Scope Z_scope.

(** What [rewind] by a number of tokens that is not negative leaves of an
    ordered table: records of the table, in their places, the last of them
    with its end moved back. *)
Lemma rewind_loop_prefix table tokens table' :
  0 <= tokens ->
  forallb boundary_ordered table = true ->
  rewind_loop (length table) tokens table = Ok table' ->
  forall (i : nat) name start end',
    table' !! i = Some (name, start, end') ->
    exists end_,
      table !! i = Some (name, start, end_)
      /\ start <= end' <= end_
      /\ ((S i < length table')%nat -> end' = end_).
Proof.
  revert tokens table'.
  induction table as [|[[n s] e] table IH] using rev_ind; intros tokens table' Hk Ho.
  - simpl. by intros [= <-].
  - rewrite rewind_loop_snoc. rewrite forallb_snoc in Ho. apply andb_prop in Ho as [Ho Hb].
    unfold boundary_ordered in Hb. simpl in Hb.
    destruct (tokens >? e - s) eqn:E.
    + intros Hr i name start end' Hi.
      assert (Hk' : 0 <= tokens - (e - s)) by lia.
      destruct (IH _ _ Hk' Ho Hr i name start end' Hi) as (end_ & Hl & Hle & Hlt).
      exists end_. split; [|done]. rewrite lookup_app_l; [done|]. by eapply lookup_lt_Some.
    + intros [= <-] i name start end' Hi.
      destruct (decide (i < length table)%nat) as [Hlt|Hge].
      * rewrite lookup_app_l in Hi by done. exists end'. rewrite lookup_app_l by done.
        split; [done|]. split; [|done].
        assert (Hin : boundary_ordered (name, start, end') = true).
        { rewrite forallb_forall in Ho. apply Ho, list_elem_of_In.
          by eapply list_elem_of_lookup_2. }
        unfold boundary_ordered in Hin. simpl in Hin. lia.
      * pose proof (lookup_lt_Some _ _ _ Hi) as Hlen. rewrite length_app in Hlen. simpl in Hlen.
        assert (i = length table) as -> by lia.
        rewrite lookup_app_r in Hi by done. rewrite Nat.sub_diag in Hi. injection Hi as <- <- <-.
        exists e. rewrite lookup_app_r by done. rewrite Nat.sub_diag. split; [done|].
        split; [lia|]. rewrite length_app. simpl. lia.
Qed.

Lemma slice_prefix (xs ys zs : list Z) m :
  0 <= m <= len ys ->
  slice (xs ++ ys ++ zs) (len xs) (len xs + m) = take (Z.to_nat m) ys.
Proof.
  intros Hm. unfold len in *.
  replace (Z.of_nat (length xs) + m) with (Z.of_nat (length xs + Z.to_nat m)) by lia.
  rewrite slice_spec by (rewrite !length_app; lia).
  rewrite drop_app_length.
  replace (length xs + Z.to_nat m - length xs)%nat with (Z.to_nat m) by lia.
  rewrite take_app_le by lia. done.
Qed.

(** An aligned buffer gives a segment the front of its own tokens back,
    when the record of the segment ends early. *)
Lemma new_track_aligned_take c (istage itrack : nat) pre seg post kept :
  track c istage itrack = flat_of istage itrack (pre ++ seg :: post) ->
  filled istage itrack (pre ++ seg :: post) = true ->
  0 <= kept <= cached0 seg ->
  new_track c (len (flat_of 0 0 pre)) (len (flat_of 0 0 pre) + kept)
    istage itrack (tracks_of seg istage itrack)
  = take (Z.to_nat (kept * elem_size istage)) (tracks_of seg istage itrack).
Proof.
  intros Htrack Hfilled Hkept. unfold new_track, slice_range. rewrite Htrack.
  rewrite flat_of_app, flat_of_cons.
  set (A := flat_of istage itrack pre). set (tr := tracks_of seg istage itrack).
  set (B := flat_of istage itrack post). set (P := len (flat_of 0 0 pre)).
  assert (Hes : 0 < elem_size istage) by (unfold elem_size; case_decide; lia).
  assert (HL : len (A ++ tr ++ B) = len A + len tr + len B)
    by (unfold len; rewrite !length_app; lia).
  assert (HP : 0 <= P) by (unfold P, len; lia).
  assert (HA0 : 0 <= len A) by (unfold len; lia).
  assert (HB : 0 <= len B) by (unfold len; lia).
  assert (Htr : 0 <= len tr) by (unfold len; lia).
  assert (Hnil : len tr = 0 -> take (Z.to_nat (kept * elem_size istage)) tr = tr).
  { unfold len. destruct tr; [by rewrite take_nil|simpl; lia]. }
  destruct (filled_split _ _ _ _ _ Hfilled) as [[HA Hrest]|(HA & Hseg & Hpost)];
    fold A P in HA.
  - cbn [filled] in Hrest. fold tr in Hrest.
    replace (P * elem_size istage) with (len A) by lia.
    replace ((P + kept) * elem_size istage) with (len A + kept * elem_size istage) by lia.
    destruct (len tr =? cached0 seg * elem_size istage) eqn:E.
    + apply Z.eqb_eq in E. rewrite HL.
      destruct (_ || _) eqn:Hskip; [symmetry; apply Hnil; lia|].
      replace (len A + kept * elem_size istage >? len A + len tr + len B) with false by nia.
      apply slice_prefix. nia.
    + apply andb_prop in Hrest as [Hlt%Z.ltb_lt Hempty].
      apply all_empty_flat in Hempty. fold B in Hempty. rewrite Hempty in *.
      change (len (@nil Z)) with 0 in *. rewrite HL, Z.add_0_r.
      destruct (_ || _) eqn:Hskip; [symmetry; apply Hnil; lia|].
      destruct (len A + kept * elem_size istage >? len A + len tr) eqn:Hclamp.
      * rewrite (slice_middle A tr []). symmetry. apply take_ge. unfold len in *. lia.
      * apply (slice_prefix A tr []). lia.
  - fold tr in Hseg. fold B in Hpost. rewrite Hseg, Hpost in *.
    change (len (@nil Z)) with 0 in *.
    replace (P * elem_size istage >? len (A ++ [] ++ [])) with true by lia.
    by rewrite take_nil.
Qed.

(** An aligned buffer holds no more than its share of the segment's tokens. *)
Lemma filled_bound (istage itrack : nat) pre seg post :
  filled istage itrack (pre ++ seg :: post) = true ->
  len (tracks_of seg istage itrack) <= cached0 seg * elem_size istage.
Proof.
  intros Hfilled.
  assert (Hes : 0 < elem_size istage) by (unfold elem_size; case_decide; lia).
  assert (Hc0 : 0 <= cached0 seg) by (unfold cached0, len; lia).
  destruct (filled_split _ _ _ _ _ Hfilled) as [[HA Hrest]|(HA & Hseg & Hpost)].
  - cbn [filled] in Hrest. case_match eqn:E; [lia|].
    apply andb_prop in Hrest as [Hlt%Z.ltb_lt _]. lia.
  - rewrite Hseg. change (len (@nil Z)) with 0. nia.
Qed.

(** A shaped segment is its name, tags, lyrics and four buffers. *)
Lemma segment_shaped_eq seg seg' :
  segment_shaped seg = true -> segment_shaped seg' = true ->
  SongSegment._name seg' = SongSegment._name seg ->
  SongSegment._tags seg' = SongSegment._tags seg ->
  SongSegment._lyrics seg' = SongSegment._lyrics seg ->
  (forall istage itrack : nat, (istage < NrStages)%nat -> (itrack < NrTracks)%nat ->
     tracks_of seg' istage itrack = tracks_of seg istage itrack) ->
  seg' = seg.
Proof.
  intros (a & b & c0 & d & Htr)%segment_shaped_tracks
         (a' & b' & c' & d' & Htr')%segment_shaped_tracks Hn Ht Hl Hb.
  destruct seg, seg'. simpl in *. subst.
  pose proof (Hb 0 0)%nat as H00. pose proof (Hb 0 1)%nat as H01.
  pose proof (Hb 1 0)%nat as H10. pose proof (Hb 1 1)%nat as H11.
  unfold tracks_of, NrStages, NrTracks in *. simpl in *.
  rewrite H00, H01, H10, H11 by lia. done.
Qed.

Lemma transfer_all_length c table segs :
  length (transfer_all c table segs) = length segs.
Proof.
  revert segs. induction table as [|b table IH]; intros [|seg segs]; simpl; auto.
Qed.

Lemma song_shaped_lookup song (i : nat) seg :
  song_shaped song = true -> Song._segments song !! i = Some seg -> segment_shaped seg = true.
Proof.
  unfold song_shaped. rewrite forallb_forall. intros Hsh Hseg.
  apply Hsh, list_elem_of_In. by eapply list_elem_of_lookup_2.
Qed.

(** A rewind between [create_from_song] and [transfer_to_song], for a song
    whose generated segments come first and whose buffers are aligned: the
    segment of the last record that is left keeps the front of its buffers,
    as many tokens as the record still spans (8 elements a token in stage
    1); the segments before it are as they were; and so are the segments
    whose records the rewind dropped, which keep all their tokens. *)
Theorem rewind_then_transfer_truncates song timems :
  song_shaped song = true ->
  generated_first (Song.segments song) = true ->
  song_aligned song = true ->
  0 <= timems ->
  exists cache cache' song',
    create_from_song song = Ok cache
    /\ rewind cache timems = Ok cache'
    /\ transfer_to_song cache' song = Ok song'
    /\ length (Song.segments song') = length (Song.segments song)
    /\ forall (i : nat) seg, Song.segments song !! i = Some seg ->
         exists seg',
           Song.segments song' !! i = Some seg'
           /\ SongSegment._name seg' = SongSegment._name seg
           /\ SongSegment._tags seg' = SongSegment._tags seg
           /\ SongSegment._lyrics seg' = SongSegment._lyrics seg
           /\ match segments cache' !! i with
              | None => seg' = seg
              | Some (_, start, end_) =>
                  (exists n, SongSegment.cached_length seg 0 0 = Ok n
                             /\ 0 <= end_ - start <= n)
                  /\ ((S i < length (segments cache'))%nat -> seg' = seg)
                  /\ forall istage itrack : nat,
                       (istage < NrStages)%nat -> (itrack < NrTracks)%nat ->
                       exists tr,
                         SongSegment.track seg istage itrack = Ok tr
                         /\ SongSegment.track seg' istage itrack
                            = Ok (take (Z.to_nat ((end_ - start) * elem_size istage)) tr)
              end.
Proof.
  intros Hsh Hgen Hal Hms.
  set (flats := [[flat_of 0 0 (Song._segments song); flat_of 0 1 (Song._segments song)];
                 [flat_of 1 0 (Song._segments song); flat_of 1 1 (Song._segments song)]]).
  set (cache := {| _tracks := flats; _segments := boundaries 0 (Song._segments song) |}).
  destruct (rewind_Ok cache timems) as (table' & Hloop & Hrew). cbn [_segments _tracks cache] in *.
  set (cache' := {| _tracks := flats; _segments := table' |}) in *.
  exists cache, cache', (Song.with_segments song (transfer_all cache' table' (Song._segments song))).
  split; [by apply create_from_song_Ok|]. split; [exact Hrew|].
  split; [by apply transfer_to_song_Ok|].
  unfold Song.segments, segments in *. cbn [Song._segments Song.with_segments _segments cache'].
  split; [apply transfer_all_length|].
  intros i seg Hseg. rewrite transfer_all_lookup, Hseg.
  pose proof (song_shaped_lookup _ _ _ Hsh Hseg) as Hshaped.
  destruct (table' !! i) as [[[name start] end']|] eqn:Hrec; [|by exists seg].
  exists (transfer_one cache' (name, start, end') seg).
  do 4 (split; [done|]).
  assert (Hk : 0 <= timems / 20) by (Z.div_mod_to_equations; lia).
  destruct (rewind_loop_prefix _ _ _ Hk (boundaries_ordered _ _) Hloop _ _ _ _ Hrec)
    as (end_ & Hold & Hle & Hlast).
  destruct (boundaries_generated_first _ _ _ _ Hgen Hold)
    as (pre & seg0 & post & Hsegs & Hi & Hb).
  assert (seg0 = seg) as ->.
  { rewrite Hsegs in Hseg. rewrite lookup_app_r in Hseg by lia.
    rewrite <- Hi, Nat.sub_diag in Hseg. by injection Hseg. }
  injection Hb as Hname Hstart Hend. rewrite Z.add_0_l in Hstart, Hend.
  assert (Hnew : forall istage itrack : nat,
             (istage < NrStages)%nat -> (itrack < NrTracks)%nat ->
             tracks_of (transfer_one cache' (name, start, end') seg) istage itrack
             = take (Z.to_nat ((end' - start) * elem_size istage)) (tracks_of seg istage itrack)).
  { intros istage itrack Hs Ht. rewrite transfer_one_track by done.
    replace end' with (len (flat_of 0 0 pre) + (end' - start)) at 1 by lia.
    rewrite Hstart. apply (new_track_aligned_take _ _ _ _ _ post).
    - rewrite <- Hsegs. unfold track, NrStages, NrTracks in *. simpl.
      destruct istage as [|[|?]]; [| |lia]; destruct itrack as [|[|?]]; try lia; done.
    - rewrite <- Hsegs. by apply song_aligned_filled.
    - lia. }
  split; [|split].
  - exists (cached0 seg). split; [|lia]. unfold SongSegment.cached_length.
    by rewrite track_shaped by (done || (unfold NrStages, NrTracks; lia)).
  - intros Hlt. specialize (Hlast Hlt). subst end'.
    apply segment_shaped_eq; try done; [by apply transfer_one_shaped|].
    intros istage itrack Hs Ht. rewrite Hnew by done. apply take_ge.
    pose proof (filled_bound istage itrack pre seg post) as Hbound.
    rewrite <- Hsegs in Hbound. specialize (Hbound (song_aligned_filled _ _ _ Hal Hs Ht)).
    unfold len in Hbound. lia.
  - intros istage itrack Hs Ht. exists (tracks_of seg istage itrack).
    split; [by apply track_shaped|].
    rewrite track_shaped by (done || by apply transfer_one_shaped). by rewrite Hnew.
Qed.

Lemma rewind_then_transfer_truncates_witness :
  let seg name t0 t1 := {| SongSegment._name := name; SongSegment._tags := ∅;
                           SongSegment._lyrics := "la";
                           SongSegment._tracks := [[t0; t0]; [t1; t1]] |} in
  let song := Song.with_segments Song.init
                [seg "intro" [5] [1; 2; 3; 4; 5; 6; 7; 8];
                 seg "verse" [6; 7; 8] [11; 12; 13; 14; 15; 16; 17; 18; 21; 22];
                 seg "outro" [9] []]%string in
  exists cache cache' song',
    create_from_song song = Ok cache
    /\ rewind cache 60 = Ok cache'
    /\ segments cache' = [("intro", 0, 1); ("verse", 1, 2)]%string
    /\ transfer_to_song cache' song = Ok song'
    /\ song' = Song.with_segments Song.init
                [seg "intro" [5] [1; 2; 3; 4; 5; 6; 7; 8];
                 seg "verse" [6] [11; 12; 13; 14; 15; 16; 17; 18];
                 seg "outro" [9] []]%string.
Proof.
  intros seg song.
  destruct (rewind_then_transfer_truncates song 60 eq_refl eq_refl eq_refl ltac:(lia))
    as (cache & cache' & song' & Hc & Hr & Ht & _).
  exists cache, cache', song'.
  vm_compute in Hc. injection Hc as <-.
  vm_compute in Hr. injection Hr as <-.
  vm_compute in Ht. injection Ht as <-.
  repeat split; reflexivity.
Defined.
End RewindTransfer.

(** ** [Song.length] *)

Section SongLength.
Implicit Types (seg : SongSegment.t) (segs : list SongSegment.t) (song : Song.t).
Local Open Scope Z_scope.

Lemma parse_tag_length_int tag_data v :
  parse_tag "length" tag_data = Ok v -> exists n, v = TagInt n.
Proof.
  unfold parse_tag. rewrite bool_decide_eq_true_2 by done.
  destruct (endswith tag_data "t").
  - destruct (int _); simpl; [|done]. intros [= <-]. eauto.
  - destruct (float _); simpl; [|done]. destruct (int_of_float _); simpl; [|done].
    intros [= <-]. eauto.
Qed.

Lemma tags_of_fold_lookup_Some (es : list (string * TagValue)) (tags : gmap string TagValue) k v :
  foldl (fun m e => <[ e.1 := e.2 ]> m) tags es !! k = Some v ->
  tags !! k = Some v \/ (k, v) ∈ es.
Proof.
  revert tags. induction es as [|[k' v'] es IH]; intros tags; simpl; [auto|].
  intros [H|H]%IH; [|right; by right].
  simpl in H. destruct (decide (k' = k)) as [->|Hne].
  - rewrite lookup_insert_eq in H. injection H as ->. right. left.
  - rewrite lookup_insert_ne in H by done. by left.
Qed.

(** The tags the parser keeps under the name [length] are integers. *)
Lemma segment_of_match_length_int m : length_tag_is_int (segment_of_match m) = true.
Proof.
  unfold length_tag_is_int, SongSegment.track_length, segment_of_match. simpl.
  destruct (tags_of _ !! "length"%string) as [[n|s]|] eqn:E; try done.
  unfold tags_of in E. apply tags_of_fold_lookup_Some in E as [E|E]; [by rewrite lookup_empty in E|].
  unfold kept_tags in E. apply list_elem_of_omap in E as (tag & _ & Hp).
  destruct (parse_tag (tag_name_of tag) (tag_data_of tag)) as [v|] eqn:Hv; [|done].
  injection Hp as Hname ->. rewrite Hname in Hv.
  by apply parse_tag_length_int in Hv as [n [=]].
Qed.

Lemma merge_forward_tags old new :
  map SongSegment._tags (merge_forward old new) = map SongSegment._tags new.
Proof.
  revert old. induction new as [|n new IH]; intros [|o old]; simpl; try done.
  by rewrite IH.
Qed.

Lemma song_set_track_tags song (iseg istage itrack : nat) tr song' :
  Song.set_track song iseg istage itrack tr = Ok song' ->
  map SongSegment._tags (Song._segments song') = map SongSegment._tags (Song._segments song)
  /\ Song._default_track_length song' = Song._default_track_length song.
Proof.
  unfold Song.set_track, Song.__getitem__, getitem.
  destruct (Song._segments song !! iseg) as [seg|] eqn:Hseg; simpl; [|done].
  unfold SongSegment.set_track.
  destruct (getitem (SongSegment._tracks seg) istage) as [row|]; simpl; [|done].
  destruct (setitem row itrack tr) as [row'|]; simpl; [|done].
  intros [= <-]. simpl. split; [|done].
  rewrite list_fmap_insert. simpl. apply list_insert_id.
  by rewrite list_lookup_fmap, Hseg.
Qed.

Lemma clear_cache_tags song (istage : nat) song' :
  Song.clear_cache song istage = Ok song' ->
  map SongSegment._tags (Song._segments song') = map SongSegment._tags (Song._segments song)
  /\ Song._default_track_length song' = Song._default_track_length song.
Proof.
  unfold Song.clear_cache.
  apply (for_each_invariant
           (fun s => map SongSegment._tags (Song._segments s)
                     = map SongSegment._tags (Song._segments song)
                     /\ Song._default_track_length s = Song._default_track_length song));
    [|done].
  intros iseg s s' Hs.
  apply (for_each_invariant
           (fun s => map SongSegment._tags (Song._segments s)
                     = map SongSegment._tags (Song._segments song)
                     /\ Song._default_track_length s = Song._default_track_length song));
    [|done].
  intros itrack s1 s2 [Hs1 Hd1] [H1 H2]%song_set_track_tags. split; congruence.
Qed.

Lemma transfer_to_song_tags c song song' :
  GenerationCache.transfer_to_song c song = Ok song' ->
  map SongSegment._tags (Song._segments song') = map SongSegment._tags (Song._segments song)
  /\ Song._default_track_length song' = Song._default_track_length song.
Proof.
  unfold GenerationCache.transfer_to_song.
  set (P := fun s : Song.t =>
              map SongSegment._tags (Song._segments s)
              = map SongSegment._tags (Song._segments song)
              /\ Song._default_track_length s = Song._default_track_length song).
  apply (for_each_invariant P); [|done].
  intros [isegment [[name start_token] end_token]] s s' Hs.
  unfold GenerationCache.transfer_segment. case_decide; [|by intros [= <-]].
  apply (for_each_invariant P); [|done]. intros istage s1 s1' Hs1.
  apply (for_each_invariant P); [|done]. intros itrack s2 s2' [Hs2 Hd2].
  unfold GenerationCache.transfer_track.
  destruct (GenerationCache.slice_range _ _ _ _) as [[start_pos end_pos]|];
    [|by intros [= <-]].
  intros [H1 H2]%song_set_track_tags. split; congruence.
Qed.

(** The loop of [length] over segments whose [length] tags are integers. *)
Lemma length_loop song segs (acc : Z) :
  forallb length_tag_is_int segs = true ->
  foldl (fun length segment => length ≫= Song.length_step song segment) (Some acc) segs
  = Some (acc + foldr Z.add 0 (map (segment_length (Song._default_track_length song)) segs)).
Proof.
  revert acc. induction segs as [|seg segs IH]; intros acc; simpl.
  - intros _. f_equal. lia.
  - intros [Hseg Hsegs]%andb_prop.
    unfold length_tag_is_int in Hseg. unfold segment_length at 1.
    cbn [mbind option_bind]. unfold Song.length_step at 2.
    destruct (SongSegment.track_length seg) as [[n|s]|]; [|done|];
      rewrite IH by done; f_equal; lia.
Qed.

(** Every song the program makes has integer [length] tags, and the default
    track length it started with. *)
Lemma reachable_length_tags song :
  song_reachable song ->
  forallb length_tag_is_int (Song._segments song) = true.
Proof.
  assert (Htags : forall segs segs',
             map SongSegment._tags segs' = map SongSegment._tags segs ->
             forallb length_tag_is_int segs = true ->
             forallb length_tag_is_int segs' = true).
  { intros segs segs'. revert segs.
    induction segs' as [|s' segs' IH]; intros [|s segs]; simpl; try done.
    intros [= Ht Hm] [Hs Hss]%andb_prop. apply andb_true_intro. split; [|eauto].
    unfold length_tag_is_int, SongSegment.track_length in *. by rewrite Ht. }
  induction 1 as [|song text song' _ IH Hset|song iseg istage itrack tr song' _ IH Hset
                  |song istage song' _ IH Hclear|c song song' _ IH Htr].
  - reflexivity.
  - rewrite set_lyrics_Ok in Hset. injection Hset as <-. simpl.
    eapply Htags; [apply merge_forward_tags|].
    apply forallb_forall. intros seg (m & <- & _)%in_map_iff. apply segment_of_match_length_int.
  - apply song_set_track_tags in Hset as [Hset _]. eauto.
  - apply clear_cache_tags in Hclear as [Hclear _]. eauto.
  - apply transfer_to_song_tags in Htr as [Htr _]. eauto.
Qed.

(** [length] never raises on a song the program made: whatever the script
    held, a [length] tag is an integer, and the length of the song is the
    sum, over its segments, of the [length] tag or of the default track
    length where a segment has no such tag. *)
Theorem song_length_is_sum song :
  song_reachable song ->
  Song.length song
  = Some (foldr Z.add 0
            (map (fun seg =>
                    match SongSegment.track_length seg with
                    | Some (TagInt n) => n
                    | _ => Song.default_track_length song
                    end) (Song.segments song))).
Proof.
  intros Hr. unfold Song.length. rewrite length_loop by by apply reachable_length_tags.
  by rewrite Z.add_0_l.
Qed.

Lemma song_length_is_sum_witness :
  let text := ("#length 2" +:+ LF +:+ "[verse]" +:+ LF +:+ "hello" +:+ LF
               +:+ "[chorus]" +:+ LF +:+ "la" +:+ LF
               +:+ "#length many" +:+ LF +:+ "[bridge]" +:+ LF
               +:+ "#Length 40t" +:+ LF +:+ "[outro]")%string in
  exists song,
    Song.set_lyrics Song.init text = Ok song
    /\ Song.length song = Some (100 + 1500 + 1500 + 40).
Proof.
  intros text. eexists. split; [apply set_lyrics_Ok|].
  rewrite song_length_is_sum; [reflexivity|].
  apply (reach_set_lyrics Song.init text); [apply reach_init|apply set_lyrics_Ok].
Defined.

(** A [length] tag that is a text, as a segment made by hand can hold,
    makes [length] raise. *)
Lemma song_length_of_text_tag :
  let seg := SongSegment.create "verse" {[ "length"%string := TagStr "3" ]} "la" in
  Song.length (Song.with_segments Song.init [seg]) = None.
Proof. reflexivity. Qed.
End SongLength.

(** ** What the patterns match *)

Section Strings.
Implicit Types (s t w b r : string) (c : ascii).
Local Open Scope string_scope.

Lemma str_app_cons c s t : String c s +:+ t = String c (s +:+ t).
Proof. reflexivity. Qed.

Lemma str_app_nil_l s : "" +:+ s = s.
Proof. reflexivity. Qed.

Lemma str_app_nil_r s : s +:+ "" = s.
Proof. induction s as [|c s IH]; [done|]. by rewrite str_app_cons, IH. Qed.

Lemma str_app_assoc s t r : (s +:+ t) +:+ r = s +:+ (t +:+ r).
Proof. induction s as [|c s IH]; [done|]. by rewrite !str_app_cons, IH. Qed.

Lemma str_app_length s t : String.length (s +:+ t) = String.length s + String.length t.
Proof. induction s as [|c s IH]; [done|]. rewrite str_app_cons. simpl. by rewrite IH. Qed.

Lemma substring_app s t : substring 0 (String.length s) (s +:+ t) = s.
Proof.
  induction s as [|c s IH]; [by destruct t|]. rewrite str_app_cons. simpl. by rewrite IH.
Qed.

(** What a group took, when [r] is what it left. *)
Lemma consumed_app s r : Re.consumed (s +:+ r) r = s.
Proof.
  unfold Re.consumed. rewrite str_app_length.
  replace (String.length s + String.length r - String.length r) with (String.length s) by lia.
  apply substring_app.
Qed.

Lemma span_word_app s w r : span_word s = (w, r) -> s = w +:+ r.
Proof.
  revert w r. induction s as [|c s IH]; intros w r; simpl.
  - by intros [= <- <-].
  - destruct (isword c); [|by intros [= <- <-]].
    destruct (span_word s) as [w' r']. intros [= <- <-]. by rewrite str_app_cons, (IH w' r').
Qed.

Lemma span_body_app s b r : span_body s = (b, r) -> s = b +:+ r.
Proof.
  revert b r. induction s as [|c s IH]; intros b r; simpl.
  - by intros [= <- <-].
  - destruct (is_stop c); [by intros [= <- <-]|].
    destruct (span_body s) as [b' r']. intros [= <- <-]. by rewrite str_app_cons, (IH b' r').
Qed.

End Strings.

Section Matcher.
Import Re.
Implicit Types (s t : string) (c : ascii) (caps : captures).
Local Open Scope string_scope.

Lemma exec_star_lazy {R} cs s caps (k : string -> captures -> option R) :
  exec (StarLazy cs) s caps k
  = or_else (k s caps)
      match s with
      | String c s' => if cset_mem cs c then exec (StarLazy cs) s' caps k else None
      | EmptyString => None
      end.
Proof. by destruct s. Qed.

Lemma exec_plus_greedy {R} cs s caps (k : string -> captures -> option R) :
  exec (PlusGreedy cs) s caps k
  = match s with
    | String c s' =>
        if cset_mem cs c then or_else (exec (PlusGreedy cs) s' caps k) (k s' caps) else None
    | EmptyString => None
    end.
Proof. by destruct s. Qed.

(** [\w+] in front of something that no word character starts: the longest
    run of word characters, or nothing. *)
Lemma exec_word_run {R} s caps (k : string -> captures -> option R) :
  (forall c t caps', isword c = true -> k (String c t) caps' = None) ->
  exec (PlusGreedy CWord) s caps k
  = match span_word s with
    | (String _ _, r) => k r caps
    | _ => None
    end.
Proof.
  intros Hk. induction s as [|c s IH]; [done|].
  rewrite exec_plus_greedy. cbn [cset_mem span_word].
  destruct (isword c) eqn:Hc; [|done].
  rewrite IH. destruct s as [|c' s']; [done|].
  cbn [span_word] in *. destruct (isword c') eqn:Hc'.
  - destruct (span_word s') as [w r]. simpl. rewrite (Hk c' s' caps Hc').
    by destruct (k r caps).
  - done.
Qed.

(** [(.*?)(?=\[|\Z|#)] in front of a continuation that accepts: the text up
    to the first [[] or [#]. *)
Lemma exec_body_run {R} s0 s caps (f : string -> captures -> R) :
  exec (StarLazy CAny) s caps
    (fun s' caps' =>
       exec (LookAhead (Alt (One (CChar "[")) (Alt EndZ (One (CChar "#")))))
         s' (<[ 3 := consumed s0 s' ]> caps') (fun rest caps'' => Some (f rest caps'')))
  = Some (f (span_body s).2 (<[ 3 := consumed s0 (span_body s).2 ]> caps)).
Proof.
  induction s as [|c s IH]; [done|].
  rewrite exec_star_lazy. cbn [cset_mem span_body]. rewrite IH.
  cbn [exec cset_mem or_else]. unfold is_stop.
  destruct (bool_decide ("["%char = c)) eqn:E1.
  - apply bool_decide_eq_true in E1 as <-. done.
  - rewrite (bool_decide_ext (c = "["%char) ("["%char = c)) by done. rewrite E1. cbn [orb or_else].
    destruct (bool_decide ("#"%char = c)) eqn:E2.
    + apply bool_decide_eq_true in E2 as <-. done.
    + rewrite (bool_decide_ext (c = "#"%char) ("#"%char = c)) by done. rewrite E2.
      by destruct (span_body s).
Qed.

Lemma exec_seq {R} r1 r2 s caps (k : string -> captures -> option R) :
  exec (Seq r1 r2) s caps k = exec r1 s caps (fun s' caps' => exec r2 s' caps' k).
Proof. reflexivity. Qed.

Lemma exec_group {R} n r1 s caps (k : string -> captures -> option R) :
  exec (Group n r1) s caps k
  = exec r1 s caps (fun s' caps' => k s' (<[ n := consumed s s' ]> caps')).
Proof. reflexivity. Qed.

Lemma exec_char {R} a s caps (k : string -> captures -> option R) :
  exec (One (CChar a)) s caps k
  = match s with
    | String c s' => if bool_decide (a = c) then k s' caps else None
    | EmptyString => None
    end.
Proof. reflexivity. Qed.

Lemma isword_not_bracket c : isword c = true -> bool_decide ("]"%char = c) = false.
Proof. intros Hc. apply bool_decide_eq_false. by intros <-. Qed.

(** The pattern from its [\[] on, in front of a continuation that accepts:
    the section at the front of the text. *)
Lemma exec_section {R} s caps (f : string -> captures -> R) :
  exec
    (Seq (One (CChar "["))
    (Seq (Group 2 (PlusGreedy CWord))
    (Seq (One (CChar "]"))
    (Seq (Group 3 (StarLazy CAny))
         (LookAhead (Alt (One (CChar "[")) (Alt EndZ (One (CChar "#")))))))))
    s caps (fun rest caps' => Some (f rest caps'))
  = match section_at s with
    | Some (name, body, rest) => Some (f rest (<[ 3 := body ]> (<[ 2 := name ]> caps)))
    | None => None
    end.
Proof.
  rewrite exec_seq, exec_char. destruct s as [|c s1]; [done|]. cbn [section_at].
  destruct (bool_decide ("["%char = c)) eqn:E.
  2: { apply bool_decide_eq_false in E.
       destruct c as [[] [] [] [] [] [] [] []]; try done. }
  apply bool_decide_eq_true in E as <-.
  rewrite exec_seq, exec_group, exec_word_run.
  2: { intros c t caps' Hc. by rewrite exec_seq, exec_char, isword_not_bracket. }
  destruct (span_word s1) as [w r] eqn:Hw. apply span_word_app in Hw as ->.
  destruct w as [|c w]; [done|].
  rewrite exec_seq, exec_char. destruct r as [|c' s2]; [done|].
  destruct (bool_decide ("]"%char = c')) eqn:E.
  2: { apply bool_decide_eq_false in E.
       destruct c' as [[] [] [] [] [] [] [] []]; try done. }
  apply bool_decide_eq_true in E as <-.
  rewrite exec_seq, exec_group, exec_body_run, consumed_app.
  destruct (span_body s2) as [b r'] eqn:Hb. apply span_body_app in Hb as ->.
  cbn [snd]. by rewrite consumed_app.
Qed.

Lemma exec_opt {R} r1 s caps (k : string -> captures -> option R) :
  exec (Opt r1) s caps k = or_else (exec r1 s caps k) (k s caps).
Proof. reflexivity. Qed.

Lemma exec_lookahead {R} r1 s caps (k : string -> captures -> option R) :
  exec (LookAhead r1) s caps k
  = match exec r1 s caps (fun _ caps' => Some caps') with
    | Some caps' => k s caps'
    | None => None
    end.
Proof. reflexivity. Qed.

Lemma section_at_cons c s1 :
  section_at (String c s1)
  = if bool_decide (c = "["%char) then
      match span_word s1 with
      | (String a w, String c' s2) =>
          if bool_decide (c' = "]"%char)
          then let '(b, r) := span_body s2 in Some (String a w, b, r)
          else None
      | _ => None
      end
    else None.
Proof.
  destruct (bool_decide (c = "["%char)) eqn:E.
  - apply bool_decide_eq_true in E as ->. cbn [section_at].
    destruct (span_word s1) as [[|a w] [|c' s2]]; try done.
    destruct (bool_decide (c' = "]"%char)) eqn:E'.
    + by apply bool_decide_eq_true in E' as ->.
    + apply bool_decide_eq_false in E'. destruct c' as [[] [] [] [] [] [] [] []]; done.
  - apply bool_decide_eq_false in E. destruct c as [[] [] [] [] [] [] [] []]; done.
Qed.

Lemma pattern_match_cons c s1 :
  pattern_match (String c s1)
  = if bool_decide (c = "#"%char) then
      match find_section s1 with
      | Some (t, (name, body, rest)) =>
          Some (String.length (String c s1) - String.length rest,
                <[ 3 := body ]> (<[ 2 := name ]> (<[ 1 := consumed (String c s1) t ]> ∅)))
      | None => None
      end
    else
      match section_at (String c s1) with
      | Some (name, body, rest) =>
          Some (String.length (String c s1) - String.length rest,
                <[ 3 := body ]> (<[ 2 := name ]> ∅))
      | None => None
      end.
Proof.
  destruct (bool_decide (c = "#"%char)) eqn:E.
  - by apply bool_decide_eq_true in E as ->.
  - apply bool_decide_eq_false in E. destruct c as [[] [] [] [] [] [] [] []]; done.
Qed.

Lemma find_section_unfold s :
  find_section s
  = match section_at s with
    | Some h => Some (s, h)
    | None =>
        match s with
        | String _ s' => find_section s'
        | EmptyString => None
        end
    end.
Proof. by destruct s. Qed.

(** The tag block [#.*?(?=\[)] and the rest of the pattern after it: the
    block runs up to the first place at which a section stands. *)
Lemma exec_find_section {R} s0 t caps (f : string -> captures -> R) :
  exec (StarLazy CAny) t caps
    (fun s' caps' =>
       exec (LookAhead (One (CChar "["))) s' caps'
         (fun s'' caps'' =>
            exec
              (Seq (One (CChar "["))
              (Seq (Group 2 (PlusGreedy CWord))
              (Seq (One (CChar "]"))
              (Seq (Group 3 (StarLazy CAny))
                   (LookAhead (Alt (One (CChar "[")) (Alt EndZ (One (CChar "#")))))))))
              s'' (<[ 1 := consumed s0 s'' ]> caps'')
              (fun rest caps3 => Some (f rest caps3))))
  = match find_section t with
    | Some (t', (name, body, rest)) =>
        Some (f rest (<[ 3 := body ]> (<[ 2 := name ]> (<[ 1 := consumed s0 t' ]> caps))))
    | None => None
    end.
Proof.
  induction t as [|c t IH].
  - rewrite exec_star_lazy, exec_lookahead, exec_char. done.
  - rewrite exec_star_lazy, exec_lookahead, exec_char, IH, (find_section_unfold (String c t)).
    cbn [cset_mem].
    destruct (bool_decide ("["%char = c)) eqn:E.
    + rewrite exec_section. by destruct (section_at (String c t)) as [[[name body] rest]|].
    + rewrite section_at_cons. rewrite (bool_decide_ext (c = "["%char) ("["%char = c)) by done.
      by rewrite E.
Qed.

(** [re.match(pattern, s)] is [pattern_match]. *)
Lemma match_here_pattern s : match_here pattern s = pattern_match s.
Proof.
  unfold match_here, pattern. rewrite exec_seq, exec_opt, exec_group, exec_seq, exec_char.
  destruct s as [|c s1]; [done|]. rewrite pattern_match_cons.
  rewrite (bool_decide_ext (c = "#"%char) ("#"%char = c)) by done.
  destruct (bool_decide ("#"%char = c)) eqn:E.
  - apply bool_decide_eq_true in E as <-.
    rewrite exec_seq, exec_find_section, exec_section.
    by destruct (find_section s1) as [[t [[name body] rest]]|].
  - cbn [or_else]. rewrite exec_section.
    by destruct (section_at (String c s1)) as [[[name body] rest]|].
Qed.
End Matcher.

Section Strip.
Implicit Types (s t ws : string) (c : ascii) (p : ascii -> bool).
Local Open Scope string_scope.

Lemma all_chars_app p s t : all_chars p (s +:+ t) = all_chars p s && all_chars p t.
Proof.
  induction s as [|c s IH]; [done|]. rewrite str_app_cons. simpl. by rewrite IH, andb_assoc.
Qed.

Lemma lstrip_spaces ws s : all_chars isspace ws = true -> lstrip (ws +:+ s) = lstrip s.
Proof.
  induction ws as [|c ws IH]; [done|]. rewrite str_app_cons. simpl.
  intros [-> Hws]%andb_prop. by apply IH.
Qed.

Lemma rstrip_all_spaces ws : all_chars isspace ws = true -> rstrip ws = "".
Proof.
  induction ws as [|c ws IH]; [done|]. simpl. intros [-> Hws]%andb_prop. by rewrite IH.
Qed.

Lemma rstrip_spaces s ws : all_chars isspace ws = true -> rstrip (s +:+ ws) = rstrip s.
Proof.
  intros Hws. induction s as [|c s IH].
  - rewrite str_app_nil_l. by apply rstrip_all_spaces.
  - rewrite str_app_cons. simpl. by rewrite IH.
Qed.

(** [rstrip] goes no further than a character that is no white space. *)
Lemma rstrip_after s c t :
  isspace c = false -> rstrip (s +:+ String c t) = s +:+ String c (rstrip t).
Proof.
  intros Hc. induction s as [|a s IH].
  - rewrite !str_app_nil_l. simpl. rewrite Hc. by destruct (rstrip t).
  - rewrite !str_app_cons. simpl. rewrite IH. by destruct s.
Qed.

Lemma rstrip_idem s : rstrip (rstrip s) = rstrip s.
Proof.
  induction s as [|c s IH]; [done|]. simpl.
  destruct (rstrip s) as [|a r] eqn:E.
  - destruct (isspace c) eqn:Hc; [done|]. simpl. by rewrite Hc.
  - simpl in *. rewrite IH. done.
Qed.

Lemma lstrip_rstrip s : lstrip (rstrip s) = rstrip (lstrip s).
Proof.
  induction s as [|c s IH]; [done|]. simpl.
  destruct (isspace c) eqn:Hc.
  - rewrite <- IH. destruct (rstrip s) as [|a r]; [done|]. simpl. by rewrite Hc.
  - simpl. destruct (rstrip s) as [|a r]; simpl; by rewrite Hc.
Qed.

Lemma lstrip_idem s : lstrip (lstrip s) = lstrip s.
Proof.
  induction s as [|c s IH]; [done|]. simpl.
  destruct (isspace c) eqn:Hc; [done|]. simpl. by rewrite Hc.
Qed.

Lemma strip_idem s : strip (strip s) = strip s.
Proof. unfold strip. by rewrite lstrip_rstrip, lstrip_idem, rstrip_idem. Qed.

Lemma strip_rstrip s : strip (rstrip s) = strip s.
Proof. unfold strip. by rewrite lstrip_rstrip, rstrip_idem. Qed.

(** White space around a text does not change what [strip] leaves of it. *)
Lemma strip_spaces ws s ws' :
  all_chars isspace ws = true -> all_chars isspace ws' = true ->
  strip (ws +:+ s +:+ ws') = strip s.
Proof.
  intros Hws Hws'. unfold strip. rewrite lstrip_spaces by done.
  rewrite <- !lstrip_rstrip. by rewrite rstrip_spaces.
Qed.

Lemma all_chars_lstrip p s : all_chars p s = true -> all_chars p (lstrip s) = true.
Proof.
  induction s as [|c s IH]; [done|]. simpl. intros [Hc Hs]%andb_prop.
  destruct (isspace c); [by apply IH|]. simpl. by rewrite Hc, Hs.
Qed.

Lemma all_chars_rstrip p s : all_chars p s = true -> all_chars p (rstrip s) = true.
Proof.
  induction s as [|c s IH]; [done|]. simpl. intros [Hc Hs]%andb_prop.
  specialize (IH Hs). destruct (rstrip s) as [|a r].
  - destruct (isspace c); [done|]. simpl. by rewrite Hc.
  - simpl in *. by rewrite Hc, IH.
Qed.

Lemma all_chars_strip p s : all_chars p s = true -> all_chars p (strip s) = true.
Proof. intros. by apply all_chars_rstrip, all_chars_lstrip. Qed.

Lemma all_chars_impl p q s :
  (forall c, p c = true -> q c = true) -> all_chars p s = true -> all_chars q s = true.
Proof.
  intros Hpq. induction s as [|c s IH]; [done|]. simpl.
  intros [Hc Hs]%andb_prop. by rewrite (Hpq c Hc), IH.
Qed.

Lemma isword_not_space c : isword c = true -> isspace c = false.
Proof. destruct c as [[] [] [] [] [] [] [] []]; by vm_compute. Qed.

Lemma isword_not_stop c : isword c = true -> is_stop c = false.
Proof. destruct c as [[] [] [] [] [] [] [] []]; by vm_compute. Qed.

Lemma isspace_not_stop c : isspace c = true -> is_stop c = false.
Proof. destruct c as [[] [] [] [] [] [] [] []]; by vm_compute. Qed.

Lemma strip_no_space s : all_chars (fun c => negb (isspace c)) s = true -> strip s = s.
Proof.
  unfold strip. destruct s as [|c s]; [done|]. simpl.
  intros [Hc%negb_true_iff Hs]%andb_prop. rewrite Hc.
  revert c Hc. induction s as [|a s IH]; intros c Hc; simpl in *; [by rewrite Hc|].
  apply andb_prop in Hs as [Ha%negb_true_iff Hs]. by rewrite (IH Hs a Ha).
Qed.

Lemma strip_word s : all_chars isword s = true -> strip s = s.
Proof.
  intros H. apply strip_no_space. revert H. apply all_chars_impl.
  intros c Hc. by rewrite isword_not_space.
Qed.

Lemma span_word_all s : all_chars isword (span_word s).1 = true.
Proof.
  induction s as [|c s IH]; [done|]. simpl. destruct (isword c) eqn:Hc; [|done].
  destruct (span_word s). simpl in *. by rewrite Hc.
Qed.

Lemma span_body_all s : all_chars (fun c => negb (is_stop c)) (span_body s).1 = true.
Proof.
  induction s as [|c s IH]; [done|]. simpl. destruct (is_stop c) eqn:Hc; [done|].
  destruct (span_body s). simpl in *. by rewrite Hc.
Qed.
End Strip.

Section Scan.
Import Re.
Implicit Types (s t : string) (c : ascii) (caps : captures) (r : regex).
Local Open Scope string_scope.

Lemma scan_skip r pre rest : scan r (pre +:+ rest) (String.length pre) = scan r rest 0.
Proof. induction pre as [|c pre IH]; [done|]. rewrite str_app_cons. exact IH. Qed.

(** After a match the scan goes on behind it. *)
Lemma scan_match r pre rest caps :
  pre <> "" ->
  match_here r (pre +:+ rest) = Some (String.length pre, caps) ->
  scan r (pre +:+ rest) 0 = caps :: scan r rest 0.
Proof.
  destruct pre as [|c pre]; [done|]. intros _ Hm. rewrite str_app_cons in *.
  cbn [scan]. rewrite Hm. f_equal. cbn [String.length]. rewrite Nat.sub_succ, Nat.sub_0_r.
  apply scan_skip.
Qed.

(** Every entry of the scan is a match at some place of the text. *)
Lemma scan_elem r s skip caps :
  caps ∈ scan r s skip -> exists t n, match_here r t = Some (n, caps).
Proof.
  revert skip. induction s as [|c s IH]; intros skip.
  - destruct skip; cbn [scan]; [|by intros ?%elem_of_nil].
    destruct (match_here r "") as [[n caps']|] eqn:E; [|by intros ?%elem_of_nil].
    intros ->%list_elem_of_singleton. eauto.
  - destruct skip as [|skip]; cbn [scan]; [|apply IH].
    destruct (match_here r (String c s)) as [[n caps']|] eqn:E; [|apply IH].
    intros [->|Hin]%elem_of_cons; eauto.
Qed.

Lemma section_at_parts s name body rest :
  section_at s = Some (name, body, rest) ->
  s = "[" +:+ name +:+ "]" +:+ body +:+ rest
  /\ name <> ""
  /\ all_chars isword name = true
  /\ all_chars (fun c => negb (is_stop c)) body = true.
Proof.
  destruct s as [|c s1]; [done|]. rewrite section_at_cons.
  destruct (bool_decide (c = "["%char)) eqn:E; [|done].
  apply bool_decide_eq_true in E as ->.
  pose proof (span_word_all s1) as Hw. pose proof (span_word_app s1) as Happ.
  destruct (span_word s1) as [[|a w] [|c' s2]]; try done.
  destruct (bool_decide (c' = "]"%char)) eqn:E; [|done].
  apply bool_decide_eq_true in E as ->.
  pose proof (span_body_all s2) as Hb. pose proof (span_body_app s2) as Happ'.
  destruct (span_body s2) as [b r]. intros [= <- <- <-].
  rewrite (Happ _ _ eq_refl), (Happ' _ _ eq_refl). simpl in Hw, Hb.
  split; [reflexivity|done].
Qed.

(** A match of [pattern] has taken a section: its groups 2 and 3. *)
Lemma pattern_match_groups s n caps :
  pattern_match s = Some (n, caps) ->
  exists t name body rest,
    section_at t = Some (name, body, rest)
    /\ group caps 2 = name /\ group caps 3 = body.
Proof.
  destruct s as [|c s1]; [done|]. rewrite pattern_match_cons.
  destruct (bool_decide (c = "#"%char)).
  - destruct (find_section s1) as [[t [[name body] rest]]|] eqn:E; [|done].
    intros [= <- <-]. exists t, name, body, rest. split; [|done].
    clear -E. induction s1 as [|c s1 IH]; rewrite find_section_unfold in E.
    + discriminate E.
    + destruct (section_at (String c s1)) as [h|] eqn:Hs; [|by apply IH].
      by injection E as <- <-.
  - destruct (section_at (String c s1)) as [[[name body] rest]|] eqn:E; [|done].
    intros [= <- <-]. by exists (String c s1), name, body, rest.
Qed.

Lemma segment_of_match_canonical s n caps :
  pattern_match s = Some (n, caps) -> canonical_segment (segment_of_match caps) = true.
Proof.
  intros (t & name & body & rest & Hs & H2 & H3)%pattern_match_groups.
  apply section_at_parts in Hs as (_ & Hne & Hw & Hb).
  unfold canonical_segment, segment_of_match. cbn [SongSegment._name SongSegment._lyrics
    SongSegment.create]. rewrite H2, H3, strip_word by done.
  rewrite Hw, all_chars_strip, strip_idem by done.
  rewrite bool_decide_eq_false_2, bool_decide_eq_true_2 by done. done.
Qed.
End Scan.

Section Blocks.
Import Re.
Implicit Types (s t name body rest : string) (c : ascii) (caps : captures).
Implicit Types (l : list (string * string)).
Local Open Scope string_scope.

Lemma span_word_intro w r :
  all_chars isword w = true ->
  ends_or_starts (fun c => negb (isword c)) r = true ->
  span_word (w +:+ r) = (w, r).
Proof.
  intros Hw Hr. induction w as [|c w IH].
  - rewrite str_app_nil_l. destruct r as [|c r]; [done|]. simpl in *.
    by apply negb_true_iff in Hr as ->.
  - rewrite str_app_cons. simpl in *. apply andb_prop in Hw as [-> Hw]. by rewrite IH.
Qed.

Lemma span_body_intro b r :
  all_chars (fun c => negb (is_stop c)) b = true ->
  ends_or_starts is_stop r = true ->
  span_body (b +:+ r) = (b, r).
Proof.
  intros Hb Hr. induction b as [|c b IH].
  - rewrite str_app_nil_l. destruct r as [|c r]; [done|]. simpl in *. by rewrite Hr.
  - rewrite str_app_cons. simpl in *. apply andb_prop in Hb as [->%negb_true_iff Hb].
    by rewrite IH.
Qed.

Lemma section_at_block name body rest :
  name <> "" ->
  all_chars isword name = true ->
  all_chars (fun c => negb (is_stop c)) body = true ->
  ends_or_starts is_stop rest = true ->
  section_at ("[" +:+ name +:+ "]" +:+ body +:+ rest) = Some (name, body, rest).
Proof.
  intros Hne Hw Hb Hr. rewrite str_app_cons, str_app_nil_l, section_at_cons.
  rewrite bool_decide_eq_true_2 by done.
  rewrite span_word_intro by done. destruct name as [|a w]; [done|].
  rewrite str_app_cons, str_app_nil_l. rewrite bool_decide_eq_true_2 by done.
  by rewrite span_body_intro.
Qed.

Lemma match_block name body rest :
  name <> "" ->
  all_chars isword name = true ->
  all_chars (fun c => negb (is_stop c)) body = true ->
  ends_or_starts is_stop rest = true ->
  match_here pattern (("[" +:+ name +:+ "]" +:+ body) +:+ rest)
  = Some (String.length ("[" +:+ name +:+ "]" +:+ body), <[ 3 := body ]> (<[ 2 := name ]> ∅)).
Proof.
  intros Hne Hw Hb Hr. rewrite match_here_pattern.
  replace (("[" +:+ name +:+ "]" +:+ body) +:+ rest)
    with ("[" +:+ name +:+ "]" +:+ body +:+ rest) by (by rewrite !str_app_assoc).
  pose proof (section_at_block name body rest Hne Hw Hb Hr) as Hs.
  rewrite str_app_cons, str_app_nil_l in *. rewrite pattern_match_cons.
  rewrite bool_decide_eq_false_2 by done. rewrite Hs. do 2 f_equal.
  replace (String "[" (name +:+ "]" +:+ body +:+ rest))
    with (String "[" (name +:+ "]" +:+ body) +:+ rest)
    by (by rewrite str_app_cons, !str_app_assoc).
  rewrite str_app_length.
  change ("[" +:+ name +:+ "]" +:+ body) with (String "[" (name +:+ "]" +:+ body)). lia.
Qed.

Lemma blocks_app l1 l2 : blocks (l1 ++ l2) = blocks l1 +:+ blocks l2.
Proof.
  induction l1 as [|[n b] l1 IH]; [done|]. cbn [blocks app]. rewrite IH.
  by rewrite !str_app_assoc.
Qed.

Lemma blocks_head l : ends_or_starts is_stop (blocks l) = true.
Proof. by destruct l as [|[n b] l]. Qed.

(** The matches [findall] finds in a text made of sections. *)
Lemma findall_blocks l :
  Forall block_ok l ->
  findall pattern (blocks l) = map (fun nb => <[ 3 := nb.2 ]> (<[ 2 := nb.1 ]> ∅)) l.
Proof.
  unfold findall. induction 1 as [|[n b] l (Hne & Hw & Hb) _ IH]; [done|].
  cbn [blocks map fst snd] in *.
  replace ("[" +:+ n +:+ "]" +:+ b +:+ blocks l)
    with (("[" +:+ n +:+ "]" +:+ b) +:+ blocks l) by (by rewrite !str_app_assoc).
  rewrite (scan_match _ _ _ (<[ 3 := b ]> (<[ 2 := n ]> ∅))).
  - by rewrite IH.
  - done.
  - apply match_block; try done. apply blocks_head.
Qed.

Lemma segment_of_block name body :
  segment_of_match (<[ 3 := body ]> (<[ 2 := name ]> ∅))
  = SongSegment.create (strip name) ∅ (strip body).
Proof.
  set (m := <[ 3 := body ]> (<[ 2 := name ]> (∅ : captures))).
  assert (H1 : m !! 1 = None) by (unfold m; by rewrite !lookup_insert_ne, lookup_empty).
  assert (H2 : m !! 2 = Some name)
    by (unfold m; by rewrite lookup_insert_ne, lookup_insert_eq).
  assert (H3 : m !! 3 = Some body) by (unfold m; by rewrite lookup_insert_eq).
  unfold segment_of_match, group. by rewrite H1, H2, H3.
Qed.

Lemma parse_blocks l :
  Forall block_ok l ->
  parse_lyrics (blocks l)
  = Ok (map (fun nb => SongSegment.create (strip nb.1) ∅ (strip nb.2)) l).
Proof.
  intros Hl. rewrite parse_lyrics_Ok, findall_blocks by done. f_equal.
  rewrite map_map. apply map_ext. intros [n b]. apply segment_of_block.
Qed.
End Blocks.

Section ParserLaws.
Import Re.
Implicit Types (s t script : string) (c : ascii) (seg : SongSegment.t).
Implicit Types (segs : list SongSegment.t) (song : Song.t).
Local Open Scope string_scope.

(** Every segment the parser makes, of any script: its name is one word
    character or more; its lyrics hold no [[] and no [#] and no white space
    at their ends; its buffers are empty. *)
Theorem parsed_segments_are_canonical script :
  exists segs,
    parse_lyrics script = Ok segs
    /\ forall seg, seg ∈ segs ->
         SongSegment._name seg <> ""
         /\ all_chars isword (SongSegment._name seg) = true
         /\ all_chars (fun c => negb (bool_decide (c = "["%char) || bool_decide (c = "#"%char)))
                      (SongSegment._lyrics seg) = true
         /\ strip (SongSegment._lyrics seg) = SongSegment._lyrics seg
         /\ SongSegment._tracks seg = SongSegment.create_empty_tracks.
Proof.
  eexists. split; [apply parse_lyrics_Ok|].
  intros seg (caps & -> & Hin)%list_elem_of_fmap.
  apply scan_elem in Hin as (t & n & Hm). rewrite match_here_pattern in Hm.
  apply segment_of_match_canonical in Hm. unfold canonical_segment in Hm.
  apply andb_prop in Hm as [[[Hne Hw]%andb_prop Hb]%andb_prop Hs].
  apply negb_true_iff, bool_decide_eq_false in Hne. apply bool_decide_eq_true in Hs.
  done.
Qed.

Lemma find_section_tail c s : find_section (String c s) = None -> find_section s = None.
Proof. rewrite find_section_unfold. by destruct (section_at (String c s)). Qed.

Lemma pattern_match_none s : find_section s = None -> pattern_match s = None.
Proof.
  destruct s as [|c s1]; [done|]. intros H. pose proof (find_section_tail _ _ H) as H'.
  rewrite find_section_unfold in H. rewrite pattern_match_cons, H'.
  destruct (section_at (String c s1)); [done|]. by destruct (bool_decide _).
Qed.

Lemma scan_none s skip : find_section s = None -> scan pattern s skip = [].
Proof.
  revert skip. induction s as [|c s IH]; intros skip H.
  - by destruct skip.
  - pose proof (find_section_tail _ _ H) as H'.
    destruct skip as [|skip]; cbn [scan]; [|by apply IH].
    rewrite match_here_pattern, pattern_match_none by done. by apply IH.
Qed.

Lemma scan_some s h : find_section s = Some h -> scan pattern s 0 <> [].
Proof.
  induction s as [|c s IH]; [done|]. rewrite find_section_unfold. cbn [scan].
  rewrite match_here_pattern, pattern_match_cons.
  destruct (section_at (String c s)) as [[[name body] rest]|] eqn:Hs.
  - intros _. destruct (bool_decide (c = "#"%char)) eqn:E; [|done].
    apply bool_decide_eq_true in E as ->. done.
  - intros Hf. destruct (bool_decide (c = "#"%char)); [|by apply IH].
    destruct (find_section s) as [[t [[name body] rest]]|]; [done|by apply IH].
Qed.

Lemma no_bracket_no_section s :
  all_chars (fun c => negb (bool_decide (c = "["%char))) s = true -> find_section s = None.
Proof.
  induction s as [|c s IH]; [done|]. cbn [all_chars]. intros [Hc Hs]%andb_prop.
  rewrite find_section_unfold, section_at_cons. apply negb_true_iff in Hc. rewrite Hc.
  by apply IH.
Qed.

(** The parser makes no segment exactly when no section, [[], word
    characters, []], stands anywhere in the script; so a script without a
    [[] gives none, and [set_lyrics] with such a text leaves the song
    without segments and with empty lyrics, whatever it held before. *)
Theorem no_section_no_segment :
  (forall script, parse_lyrics script = Ok [] <-> find_section script = None)
  /\ (forall script,
        all_chars (fun c => negb (bool_decide (c = "["%char))) script = true ->
        parse_lyrics script = Ok [])
  /\ (forall song text,
        all_chars (fun c => negb (bool_decide (c = "["%char))) text = true ->
        exists song',
          Song.set_lyrics song text = Ok song'
          /\ Song.segments song' = [] /\ Song.str song' = "").
Proof.
  assert (Hiff : forall script, parse_lyrics script = Ok [] <-> find_section script = None).
  { intros script. rewrite parse_lyrics_Ok. unfold findall. split.
    - intros [= H]. destruct (find_section script) as [h|] eqn:E; [|done].
      apply scan_some in E. by destruct (scan pattern script 0).
    - intros H. by rewrite scan_none. }
  split; [exact Hiff|]. split.
  - intros script H. by apply Hiff, no_bracket_no_section.
  - intros song text H. eexists. split; [apply set_lyrics_Ok|].
    cbn [Song.segments Song.str Song._segments Song._lyrics Song.with_lyrics Song.with_segments].
    assert (Hnone : findall pattern (strip text) = []).
    { apply scan_none, no_bracket_no_section. by apply all_chars_strip. }
    rewrite Hnone. by destruct (Song._segments song).
Qed.
End ParserLaws.

Section StrRoundTrip.
Import Re.
Implicit Types (s t : string) (c : ascii) (seg : SongSegment.t).
Implicit Types (segs : list SongSegment.t) (song : Song.t).
Local Open Scope string_scope.

Lemma join_snoc init seg :
  join LF (map SongSegment.as_str (init ++ [seg]))
  = blocks (map printed init) +:+ SongSegment.as_str seg.
Proof.
  induction init as [|a init IH]; [done|]. cbn [app map].
  destruct (init ++ [seg])%list as [|x xs] eqn:E; [by destruct init|].
  cbn [map] in *.
  change (join LF (SongSegment.as_str a :: SongSegment.as_str x :: map SongSegment.as_str xs))
    with (SongSegment.as_str a +:+ LF
          +:+ join LF (SongSegment.as_str x :: map SongSegment.as_str xs)).
  rewrite IH. cbn [blocks printed fst snd]. unfold SongSegment.as_str.
  by rewrite !str_app_assoc.
Qed.

Lemma lstrip_bracket s : lstrip ("[" +:+ s) = "[" +:+ s.
Proof. reflexivity. Qed.

(** [strip] of the printed segments: the white space behind the last
    section goes. *)
Lemma strip_printed init seg :
  strip (blocks (map printed init) +:+ SongSegment.as_str seg)
  = blocks (map printed init
            ++ [(SongSegment._name seg,
                 rstrip (LF +:+ SongSegment._lyrics seg +:+ LF +:+ LF))]).
Proof.
  unfold strip.
  assert (Hl : lstrip (blocks (map printed init) +:+ SongSegment.as_str seg)
               = blocks (map printed init) +:+ SongSegment.as_str seg).
  { destruct init as [|a init]; reflexivity. }
  rewrite Hl, blocks_app. cbn [blocks]. unfold SongSegment.as_str.
  replace (blocks (map printed init)
           +:+ "[" +:+ SongSegment._name seg +:+ "]" +:+ LF
           +:+ SongSegment._lyrics seg +:+ LF +:+ LF)
    with ((blocks (map printed init) +:+ "[" +:+ SongSegment._name seg)
          +:+ String "]" (LF +:+ SongSegment._lyrics seg +:+ LF +:+ LF))
    by (by rewrite !str_app_assoc).
  rewrite rstrip_after by done. by rewrite !str_app_assoc, str_app_nil_r.
Qed.

Lemma canonical_parts seg :
  canonical_segment seg = true ->
  SongSegment._name seg <> ""
  /\ all_chars isword (SongSegment._name seg) = true
  /\ all_chars (fun c => negb (is_stop c)) (SongSegment._lyrics seg) = true
  /\ strip (SongSegment._lyrics seg) = SongSegment._lyrics seg.
Proof.
  unfold canonical_segment.
  intros [[[Hne%negb_true_iff%bool_decide_eq_false Hw]%andb_prop Hb]%andb_prop
          Hs%bool_decide_eq_true]%andb_prop.
  done.
Qed.

Lemma printed_ok seg : canonical_segment seg = true -> block_ok (printed seg).
Proof.
  intros (Hne & Hw & Hb & Hs)%canonical_parts. unfold block_ok, printed. cbn [fst snd].
  do 2 (split; [done|]). by rewrite !all_chars_app, Hb.
Qed.

Lemma printed_strip seg :
  canonical_segment seg = true ->
  strip (printed seg).1 = SongSegment._name seg
  /\ strip (printed seg).2 = SongSegment._lyrics seg.
Proof.
  intros (Hne & Hw & Hb & Hs)%canonical_parts. unfold printed. cbn [fst snd]. split.
  - by apply strip_word.
  - by rewrite (strip_spaces LF _ (LF +:+ LF +:+ LF)).
Qed.

(** The printed segments, read back by the parser as [_prepare_lyrics]
    calls it: the names and the lyrics, and no tag. *)
Lemma parse_printed segs :
  forallb canonical_segment segs = true ->
  parse_lyrics (strip (join LF (map SongSegment.as_str segs)))
  = Ok (map (fun seg => SongSegment.create (SongSegment._name seg) ∅ (SongSegment._lyrics seg))
            segs).
Proof.
  destruct segs as [|seg init _] using rev_ind; [done|].
  rewrite forallb_app. cbn [forallb]. rewrite andb_true_r.
  intros [Hinit Hseg]%andb_prop.
  rewrite join_snoc, strip_printed, parse_blocks.
  - f_equal. rewrite !map_app, map_map. cbn [map fst snd]. f_equal.
    + apply map_ext_in. intros a Ha. rewrite forallb_forall in Hinit.
      by destruct (printed_strip a (Hinit a Ha)) as [-> ->].
    + destruct (canonical_parts _ Hseg) as (Hne & Hw & Hb & Hs).
      rewrite strip_word by done. rewrite strip_rstrip.
      rewrite (strip_spaces LF _ (LF +:+ LF)) by done. by rewrite Hs.
  - apply Forall_app. split.
    + apply Forall_forall. intros nb (a & -> & Ha)%list_elem_of_fmap.
      apply printed_ok. rewrite forallb_forall in Hinit. by apply Hinit, list_elem_of_In.
    + apply Forall_singleton. destruct (canonical_parts _ Hseg) as (Hne & Hw & Hb & Hs).
      unfold block_ok. cbn [fst snd]. do 2 (split; [done|]).
      apply all_chars_rstrip. by rewrite !all_chars_app, Hb.
Qed.

Lemma merge_forward_without_tags segs :
  merge_forward segs
    (map (fun seg => SongSegment.create (SongSegment._name seg) ∅ (SongSegment._lyrics seg))
         segs)
  = map without_tags segs.
Proof. induction segs as [|seg segs IH]; [done|]. simpl. by rewrite IH. Qed.

(** [set_lyrics] with the text the segments are printed as. *)
Lemma set_lyrics_printed song :
  forallb canonical_segment (Song._segments song) = true ->
  Song.set_lyrics song (join LF (map SongSegment.as_str (Song._segments song)))
  = Ok (Song.with_lyrics
          (Song.with_segments
             (Song.with_raw_lyrics song (join LF (map SongSegment.as_str (Song._segments song))))
             (map without_tags (Song._segments song)))
          (join LF (map SongSegment.as_str (Song._segments song)))).
Proof.
  intros Hc. unfold Song.set_lyrics, Song._prepare_lyrics.
  cbn [Song._raw_lyrics Song.with_raw_lyrics Song._segments].
  rewrite parse_printed by done. cbn [bind]. rewrite merge_loop_Ok. cbn [bind].
  rewrite merge_forward_without_tags. cbn [Song._segments Song.with_segments].
  do 2 f_equal. rewrite map_map. done.
Qed.

(** The segments [set_lyrics] leaves are canonical, whatever the song held. *)
Lemma set_lyrics_canonical song text song' :
  Song.set_lyrics song text = Ok song' ->
  forallb canonical_segment (Song._segments song') = true.
Proof.
  rewrite set_lyrics_Ok. intros [= <-]. cbn [Song._segments Song.with_lyrics Song.with_segments].
  apply forallb_forall. intros seg Hin%list_elem_of_In%list_elem_of_lookup.
  destruct Hin as [i Hi]. rewrite merge_forward_lookup in Hi.
  destruct (map segment_of_match _ !! i) as [n|] eqn:Hn; [|by destruct (Song._segments song !! i)].
  assert (Hcn : canonical_segment n = true).
  { apply list_lookup_fmap_Some in Hn as (caps & -> & Hcaps).
    apply list_elem_of_lookup_2, scan_elem in Hcaps as (t & k & Hm).
    rewrite match_here_pattern in Hm. by eapply segment_of_match_canonical. }
  destruct (Song._segments song !! i); by injection Hi as <-.
Qed.

(** The lyrics field of a song is a text [set_lyrics] reads back: every
    segment keeps its name, its lyrics and its buffers, and the lyrics field
    stays as it is; the tags are not in that text, and are gone. *)
Theorem set_lyrics_of_str_keeps_segments song text song' :
  Song.set_lyrics song text = Ok song' ->
  exists song'',
    Song.set_lyrics song' (Song.str song') = Ok song''
    /\ Song.str song'' = Song.str song'
    /\ Song.segments song''
       = map (fun seg =>
                {| SongSegment._name := SongSegment._name seg;
                   SongSegment._tags := ∅;
                   SongSegment._lyrics := SongSegment._lyrics seg;
                   SongSegment._tracks := SongSegment._tracks seg |})
             (Song.segments song').
Proof.
  intros Hset. pose proof (set_lyrics_canonical _ _ _ Hset) as Hc.
  assert (Hstr : Song.str song' = join LF (map SongSegment.as_str (Song._segments song'))).
  { rewrite set_lyrics_Ok in Hset. by injection Hset as <-. }
  eexists. rewrite Hstr. split; [by apply set_lyrics_printed|]. done.
Qed.

Lemma set_lyrics_of_str_keeps_segments_witness :
  let text := ("#length 2" +:+ LF +:+ "[verse]" +:+ LF +:+ "  hello" +:+ LF
               +:+ "world  " +:+ LF +:+ "[chorus]")%string in
  exists song' song'',
    Song.set_lyrics Song.init text = Ok song'
    /\ Song.str song'
       = "[verse]" +:+ LF +:+ "hello" +:+ LF +:+ "world" +:+ LF +:+ LF +:+ LF
         +:+ "[chorus]" +:+ LF +:+ LF +:+ LF
    /\ Song.set_lyrics song' (Song.str song') = Ok song''
    /\ Song.str song'' = Song.str song'
    /\ map SongSegment._tags (Song.segments song') = [{[ "length" := TagInt 100 ]}; ∅]
    /\ map SongSegment._tags (Song.segments song'') = [∅; ∅].
Proof.
  intros text.
  destruct (Song.set_lyrics Song.init text) as [song'|] eqn:Hset; [|by vm_compute in Hset].
  destruct (set_lyrics_of_str_keeps_segments Song.init text song' Hset)
    as (song'' & Hset' & Hstr & Hsegs).
  exists song', song''. split; [done|]. rewrite Hsegs.
  rewrite set_lyrics_Ok in Hset. injection Hset as <-.
  repeat split; try done; by vm_compute.
Defined.
End StrRoundTrip.

Section Tags.
Import Re.
Implicit Types (s t : string) (c : ascii) (caps : captures).
Local Open Scope string_scope.

Lemma span_value_app s v r : span_value s = (v, r) -> s = v +:+ r.
Proof.
  revert v r. induction s as [|c s IH]; intros v r; simpl.
  - by intros [= <- <-].
  - destruct (bool_decide (c = "#"%char)); [by intros [= <- <-]|].
    destruct (span_value s) as [v' r']. intros [= <- <-]. by rewrite str_app_cons, (IH v' r').
Qed.

(** [\w+] in front of a continuation that accepts: the longest run. *)
Lemma exec_word_run_total {R} s caps (k : string -> captures -> option R) :
  (forall t caps', is_Some (k t caps')) ->
  exec (PlusGreedy CWord) s caps k
  = match span_word s with
    | (String _ _, r) => k r caps
    | _ => None
    end.
Proof.
  intros Hk. induction s as [|c s IH]; [done|].
  rewrite exec_plus_greedy. cbn [cset_mem span_word].
  destruct (isword c) eqn:Hc; [|done]. rewrite IH.
  destruct (span_word s) as [[|a w] r] eqn:Hs.
  - apply span_word_app in Hs as ->. by rewrite str_app_nil_l.
  - by destruct (Hk r caps) as [x ->].
Qed.

(** [(.*?)(?=#|\Z)] in front of a continuation that accepts: the text up to
    the first [#]. *)
Lemma exec_value_run {R} s0 s caps (f : string -> captures -> R) :
  exec (StarLazy CAny) s caps
    (fun s' caps' =>
       exec (LookAhead (Alt (One (CChar "#")) EndZ))
         s' (<[ 2 := consumed s0 s' ]> caps') (fun rest caps'' => Some (f rest caps'')))
  = Some (f (span_value s).2 (<[ 2 := consumed s0 (span_value s).2 ]> caps)).
Proof.
  induction s as [|c s IH]; [done|].
  rewrite exec_star_lazy. cbn [cset_mem span_value]. rewrite IH.
  cbn [exec cset_mem or_else].
  rewrite (bool_decide_ext (c = "#"%char) ("#"%char = c)) by done.
  destruct (bool_decide ("#"%char = c)) eqn:E; [done|].
  by destruct (span_value s).
Qed.

Lemma tag_at_cons c s1 :
  tag_at (String c s1)
  = if bool_decide (c = "#"%char) then
      match span_word s1 with
      | (String a w, r) => let '(v, rest) := span_value r in Some (String a w, v, rest)
      | _ => None
      end
    else None.
Proof.
  destruct (bool_decide (c = "#"%char)) eqn:E.
  - by apply bool_decide_eq_true in E as ->.
  - apply bool_decide_eq_false in E. destruct c as [[] [] [] [] [] [] [] []]; done.
Qed.

(** [re.match(tag_pattern, s)] is the tag at the front of [s]. *)
Lemma match_here_tag_pattern s :
  match_here tag_pattern s
  = match tag_at s with
    | Some (name, value, rest) =>
        Some (String.length s - String.length rest, <[ 2 := value ]> (<[ 1 := name ]> ∅))
    | None => None
    end.
Proof.
  unfold match_here, tag_pattern. rewrite exec_seq, exec_char.
  destruct s as [|c s1]; [done|]. rewrite tag_at_cons.
  rewrite (bool_decide_ext (c = "#"%char) ("#"%char = c)) by done.
  destruct (bool_decide ("#"%char = c)) eqn:E; [|done].
  rewrite exec_seq, exec_group, exec_word_run_total.
  2: { intros t caps'. rewrite exec_seq, exec_group, exec_value_run. eauto. }
  destruct (span_word s1) as [[|a w] r] eqn:Hw; [done|].
  apply span_word_app in Hw as ->.
  rewrite exec_seq, exec_group, exec_value_run, consumed_app.
  destruct (span_value r) as [v rest] eqn:Hv. apply span_value_app in Hv as ->.
  cbn [snd]. by rewrite consumed_app.
Qed.
End Tags.

Section Script.
Import Re.
Implicit Types (s t : string) (c : ascii) (caps : captures).
Implicit Types (tags : list (string * string)).
Implicit Types (items : list (list (string * string) * string * string)).
Local Open Scope string_scope.

Lemma span_value_intro v r :
  all_chars (fun c => negb (is_stop c)) v = true ->
  ends_or_starts (fun c => bool_decide (c = "#"%char)) r = true ->
  span_value (v +:+ r) = (v, r).
Proof.
  intros Hv Hr. induction v as [|c v IH].
  - rewrite str_app_nil_l. destruct r as [|c r]; [done|]. simpl in *. by rewrite Hr.
  - rewrite str_app_cons. simpl in *. apply andb_prop in Hv as [Hc Hv].
    unfold is_stop in Hc. apply negb_true_iff, orb_false_elim in Hc as [_ ->].
    by rewrite IH.
Qed.

Lemma tags_text_head tags :
  ends_or_starts (fun c => bool_decide (c = "#"%char)) (tags_text tags) = true.
Proof. by destruct tags. Qed.

Lemma tag_at_intro k v rest :
  tag_ok (k, v) ->
  ends_or_starts (fun c => bool_decide (c = "#"%char)) rest = true ->
  tag_at ("#" +:+ k +:+ v +:+ rest) = Some (k, v, rest).
Proof.
  intros (Hne & Hw & Hhead & Hv) Hr. cbn [fst snd] in *.
  rewrite str_app_cons, str_app_nil_l, tag_at_cons, bool_decide_eq_true_2 by done.
  rewrite span_word_intro; [|done|].
  - destruct k as [|a w]; [done|]. by rewrite span_value_intro.
  - destruct v as [|c v]; [|done]. rewrite str_app_nil_l.
    destruct rest as [|c rest]; [done|]. simpl in *.
    apply bool_decide_eq_true in Hr as ->. done.
Qed.

Lemma match_tag k v rest :
  tag_ok (k, v) ->
  ends_or_starts (fun c => bool_decide (c = "#"%char)) rest = true ->
  match_here tag_pattern (("#" +:+ k +:+ v) +:+ rest)
  = Some (String.length ("#" +:+ k +:+ v), <[ 2 := v ]> (<[ 1 := k ]> ∅)).
Proof.
  intros Hok Hr. rewrite match_here_tag_pattern.
  replace (("#" +:+ k +:+ v) +:+ rest) with ("#" +:+ k +:+ v +:+ rest)
    by (by rewrite !str_app_assoc).
  rewrite tag_at_intro by done. do 2 f_equal.
  replace ("#" +:+ k +:+ v +:+ rest) with (("#" +:+ k +:+ v) +:+ rest)
    by (by rewrite !str_app_assoc).
  rewrite str_app_length. lia.
Qed.

(** The raw tags [findall] finds in a block of written tags. *)
Lemma findall_tags tags :
  Forall tag_ok tags ->
  findall tag_pattern (tags_text tags)
  = map (fun kv => <[ 2 := kv.2 ]> (<[ 1 := kv.1 ]> ∅)) tags.
Proof.
  unfold findall. induction 1 as [|[k v] tags Hok _ IH]; [done|].
  cbn [tags_text foldr map fst snd] in *. fold (tags_text tags) in *.
  replace ("#" +:+ k +:+ v +:+ tags_text tags)
    with (("#" +:+ k +:+ v) +:+ tags_text tags) by (by rewrite !str_app_assoc).
  rewrite (scan_match _ _ _ (<[ 2 := v ]> (<[ 1 := k ]> ∅))).
  - by rewrite IH.
  - done.
  - apply match_tag; [done|]. apply tags_text_head.
Qed.

Lemma kept_tags_written tags (m : gmap string TagValue) :
  Forall tag_ok tags ->
  foldl (fun m e => <[ e.1 := e.2 ]> m) m
    (kept_tags (map (fun kv => <[ 2 := kv.2 ]> (<[ 1 := kv.1 ]> ∅)) tags))
  = foldl (fun m kv =>
             match parse_tag (lower kv.1) (strip kv.2) with
             | Ok v => <[ lower kv.1 := v ]> m
             | Raise _ => m
             end) m tags.
Proof.
  intros Hok. revert m. induction Hok as [|[k v] tags (Hne & Hw & _) _ IH]; intros m; [done|].
  cbn [map fst snd] in *. unfold kept_tags in *. cbn [omap list_omap foldl].
  set (caps := <[ 2 := v ]> (<[ 1 := k ]> (∅ : captures))).
  assert (Hname : tag_name_of caps = lower k).
  { unfold tag_name_of, group, caps.
    by rewrite lookup_insert_ne, lookup_insert_eq, strip_word by done. }
  assert (Hdata : tag_data_of caps = strip v).
  { unfold tag_data_of, group, caps. by rewrite lookup_insert_eq. }
  rewrite Hname, Hdata. cbn [fst snd].
  destruct (parse_tag (lower k) (strip v)) as [val|]; cbn [foldl fst snd]; apply IH.
Qed.

Lemma tags_text_no_bracket tags :
  Forall tag_ok tags ->
  all_chars (fun c => negb (bool_decide (c = "["%char))) (tags_text tags) = true.
Proof.
  induction 1 as [|[k v] tags (Hne & Hw & _ & Hv) _ IH]; [done|].
  cbn [tags_text foldr fst snd] in *. fold (tags_text tags).
  assert (Hk : all_chars (fun c => negb (bool_decide (c = "["%char))) k = true).
  { revert Hw. apply all_chars_impl. intros c Hc%isword_not_stop.
    unfold is_stop in Hc. by apply orb_false_elim in Hc as [-> _]. }
  assert (Hv' : all_chars (fun c => negb (bool_decide (c = "["%char))) v = true).
  { revert Hv. apply all_chars_impl. intros c Hc%negb_true_iff.
    unfold is_stop in Hc. by apply orb_false_elim in Hc as [-> _]. }
  by rewrite !all_chars_app, IH, Hk, Hv'.
Qed.

Lemma find_section_skip x t :
  all_chars (fun c => negb (bool_decide (c = "["%char))) x = true ->
  find_section (x +:+ t) = find_section t.
Proof.
  induction x as [|c x IH]; [done|]. cbn [all_chars]. intros [Hc Hx]%andb_prop.
  rewrite str_app_cons, find_section_unfold, section_at_cons.
  apply negb_true_iff in Hc. rewrite Hc. by apply IH.
Qed.

(** The match of [pattern] at a written section, and the segment made of
    it. *)
Lemma match_item tags name lyrics rest :
  item_ok (tags, name, lyrics) ->
  ends_or_starts is_stop rest = true ->
  exists caps,
    match_here pattern ((tags_text tags +:+ "[" +:+ name +:+ "]" +:+ lyrics) +:+ rest)
    = Some (String.length (tags_text tags +:+ "[" +:+ name +:+ "]" +:+ lyrics), caps)
    /\ segment_of_match caps
       = SongSegment.create name (tags_written tags) (strip lyrics).
Proof.
  intros (Htags & Hne & Hw & Hb) Hr. cbn [fst snd] in *.
  pose proof (section_at_block name lyrics rest Hne Hw Hb Hr) as Hs.
  destruct tags as [|[k v] tags].
  - exists (<[ 3 := lyrics ]> (<[ 2 := name ]> ∅)). rewrite segment_of_block, strip_word by done.
    split; [|done]. cbn [tags_text foldr]. rewrite str_app_nil_l. by apply match_block.
  - exists (<[ 3 := lyrics ]> (<[ 2 := name ]>
              (<[ 1 := tags_text ((k, v) :: tags) ]> ∅))). split.
    + rewrite match_here_pattern.
      set (block := tags_text ((k, v) :: tags)).
      set (sect := "[" +:+ name +:+ "]" +:+ lyrics +:+ rest) in *.
      replace ((block +:+ "[" +:+ name +:+ "]" +:+ lyrics) +:+ rest) with (block +:+ sect)
        by (unfold sect; by rewrite !str_app_assoc).
      assert (Hfind : find_section (block +:+ sect) = Some (sect, (name, lyrics, rest))).
      { rewrite find_section_skip by (by apply tags_text_no_bracket).
        by rewrite find_section_unfold, Hs. }
      assert (Hblock : block +:+ sect
                       = String "#" ((k +:+ v +:+ tags_text tags) +:+ sect)).
      { unfold block. cbn [tags_text foldr fst snd]. fold (tags_text tags).
        by rewrite !str_app_cons, !str_app_nil_l, !str_app_assoc. }
      rewrite Hblock, pattern_match_cons, bool_decide_eq_true_2 by done.
      rewrite <- Hblock.
      assert (Htail : find_section ((k +:+ v +:+ tags_text tags) +:+ sect)
                      = Some (sect, (name, lyrics, rest))).
      { rewrite Hblock, find_section_unfold, section_at_cons in Hfind.
        by rewrite bool_decide_eq_false_2 in Hfind by done. }
      rewrite Htail, consumed_app. do 2 f_equal.
      replace (block +:+ sect) with ((block +:+ "[" +:+ name +:+ "]" +:+ lyrics) +:+ rest)
        by (unfold sect; by rewrite !str_app_assoc).
      rewrite str_app_length. lia.
    + set (m := <[ 3 := lyrics ]> (<[ 2 := name ]>
                  (<[ 1 := tags_text ((k, v) :: tags) ]> (∅ : captures)))).
      assert (H1 : m !! 1 = Some (tags_text ((k, v) :: tags)))
        by (unfold m; do 2 (rewrite lookup_insert_ne by done); by rewrite lookup_insert_eq).
      assert (H2 : m !! 2 = Some name)
        by (unfold m; by rewrite lookup_insert_ne, lookup_insert_eq).
      assert (H3 : m !! 3 = Some lyrics) by (unfold m; by rewrite lookup_insert_eq).
      unfold segment_of_match, group. rewrite H1, H2, H3. cbn [default from_option id].
      rewrite findall_tags, strip_word by done. f_equal.
      unfold tags_of, tags_written. by apply kept_tags_written.
Qed.

Lemma script_of_head items : ends_or_starts is_stop (script_of items) = true.
Proof. by destruct items as [|[[[|[k v] tags] name] lyrics] items]. Qed.

(** A script written down section by section is read back as written:
    one segment for each section, under its name, with its lyrics without
    the white space around them and with the tags of the section that
    coerce, the later of two tags of one name. *)
Theorem written_script_is_read_back items :
  Forall item_ok items ->
  parse_lyrics (script_of items)
  = Ok (map (fun item => SongSegment.create item.1.2 (tags_written item.1.1) (strip item.2))
            items).
Proof.
  intros Hok. rewrite parse_lyrics_Ok. f_equal. unfold findall.
  induction Hok as [|[[tags name] lyrics] items Hitem _ IH]; [done|].
  cbn [script_of map fst snd].
  destruct (match_item tags name lyrics (script_of items) Hitem (script_of_head items))
    as (caps & Hm & Hseg).
  replace (tags_text tags +:+ "[" +:+ name +:+ "]" +:+ lyrics +:+ script_of items)
    with ((tags_text tags +:+ "[" +:+ name +:+ "]" +:+ lyrics) +:+ script_of items)
    by (by rewrite !str_app_assoc).
  rewrite (scan_match _ _ _ caps); [|by destruct tags as [|[k v] tags]|done].
  cbn [map]. by rewrite Hseg, IH.
Qed.

Lemma written_script_is_read_back_witness :
  let items := [([("Genre", " upbeat pop" +:+ LF); ("length", " 2" +:+ LF)],
                 "verse", LF +:+ "hello" +:+ LF);
                ([], "chorus", " la la ");
                ([("length", " soon "); ("mood", "")], "outro", "")] in
  script_of items
  = "#Genre upbeat pop" +:+ LF +:+ "#length 2" +:+ LF +:+ "[verse]" +:+ LF +:+ "hello" +:+ LF
    +:+ "[chorus] la la #length soon #mood[outro]"
  /\ parse_lyrics (script_of items)
     = Ok [SongSegment.create "verse"
             {[ "genre" := TagStr "upbeat pop"; "length" := TagInt 100 ]} "hello";
           SongSegment.create "chorus" ∅ "la la";
           SongSegment.create "outro" {[ "mood" := TagStr "" ]} ""].
Proof.
  intros items. split; [reflexivity|].
  rewrite (written_script_is_read_back items).
  - reflexivity.
  - unfold item_ok, tag_ok. repeat first [done | constructor].
Defined.
End Script.

(** ** [Song.length_seconds] *)

Section LengthSeconds.
Implicit Types (song : Song.t).
Local Open Scope Z_scope.

Lemma div_eucl_exact a b q : 0 < b -> a = b * q -> Z.div_eucl a b = (q, 0).
Proof.
  intros Hb ->. pose proof (Z.div_mul q b ltac:(lia)) as Hd.
  pose proof (Z.mod_mul q b ltac:(lia)) as Hm.
  rewrite Z.mul_comm in Hd, Hm. unfold Z.div, Z.modulo in *.
  destruct (Z.div_eucl (b * q) b) as [q' r']. congruence.
Qed.

(** Fifty times a whole number, divided by fifty, is that number as a
    float. *)
Lemma truediv_fifty (n : positive) :
  Zpos n < 2 ^ 53 -> truediv (50 * Zpos n) 50 = Ok (binary64_of_pos n).
Proof.
  intros Hn. change (50 * Zpos n) with (Zpos (50 * n)). cbn [truediv]. unfold round_quotient.
  destruct (digits2_pos_spec n) as [Hn1 Hn2]. destruct (digits2_pos_spec (50 * n)) as [Hm1 Hm2].
  set (dn := Zpos (digits2_pos n)) in *. set (dm := Zpos (digits2_pos (50 * n))) in *.
  assert (Hdn : 1 <= dn <= 53).
  { split; [unfold dn; lia|]. apply digits2_pos_le. lia. }
  assert (Hhi : dm <= dn + 6).
  { apply digits2_pos_le. rewrite Z.pow_add_r by lia. change (2 ^ 6) with 64. lia. }
  assert (Hlo : dn + 5 <= dm).
  { destruct (Z.le_gt_cases (dn + 5) dm) as [|Hgt]; [done|].
    assert (2 ^ dm <= 2 ^ (dn + 4)) by (apply Z.pow_le_mono_r; lia).
    replace (dn + 4) with ((dn - 1) + 5) in * by lia.
    rewrite Z.pow_add_r in * by lia. change (2 ^ 5) with 32 in *. lia. }
  unfold SFdiv_core_binary. cbn [Zdigits2]. fold dm.
  change (Zpos (digits2_pos 50)) with 6.
  assert (Hfexp : fexp prec emax (dm + 0 - (6 + 0)) = dm - 59)
    by (unfold fexp, emin, prec, emax; lia).
  rewrite Hfexp. rewrite Z.min_l by lia.
  replace (0 - 0 - (dm - 59)) with (59 - dm) by lia.
  set (T := Pos.shiftl n (Z.to_N (53 - dn))).
  set (k := Z.to_N (6 + dn - dm)).
  assert (HT : Zpos (Pos.shiftl T k) = Zpos n * 2 ^ (59 - dm)).
  { unfold T, k. rewrite !Zpos_shiftl, !Z2N.id by lia.
    rewrite <- Z.mul_assoc, <- Z.pow_add_r by lia. do 2 f_equal. lia. }
  assert (Hdiv : Z.div_eucl (match 59 - dm with
                             | 0 => Zpos (50 * n)
                             | Zpos _ => Z.shiftl (Zpos (50 * n)) (59 - dm)
                             | Zneg _ => 0
                             end) 50
                 = (Zpos (Pos.shiftl T k), 0)).
  { apply div_eucl_exact; [lia|]. rewrite HT.
    destruct (59 - dm) as [|s|s] eqn:Es; [|rewrite Z.shiftl_mul_pow2 by lia|lia].
    - change (2 ^ 0) with 1. lia.
    - rewrite Pos2Z.inj_mul. lia. }
  rewrite Hdiv. change (new_location 50 0) with loc_Exact.
  replace (dm - 59) with ((dn - 53) - Z.of_N k) by (unfold k; lia).
  rewrite binary_round_aux_exact; [done| |lia].
  unfold T. rewrite digits2_pos_shiftl. fold dn. lia.
Qed.

(** A song whose length is fifty tokens for each of a whole number of
    seconds: [length_seconds] is that number, exactly. *)
Theorem length_seconds_of_whole_seconds song (n : Z) :
  Song.length song = Some (50 * n) ->
  0 <= n < 2 ^ 53 ->
  Song.length_seconds song = Some (Ok (float_of_int n)).
Proof.
  intros Hlen Hn. unfold Song.length_seconds. rewrite Hlen. cbn [mbind option_bind].
  do 2 f_equal. destruct n as [|p|p]; [done| |lia].
  rewrite truediv_fifty by lia. f_equal. unfold float_of_int.
  symmetry. apply binary_normalize_pos. apply digits2_pos_le. lia.
Qed.

Lemma length_seconds_of_whole_seconds_witness :
  let text := ("#length 3" +:+ LF +:+ "[verse]" +:+ LF +:+ "hello" +:+ LF
               +:+ "#length 100t" +:+ LF +:+ "[chorus]")%string in
  exists song,
    Song.set_lyrics Song.init text = Ok song
    /\ Song.length song = Some 250
    /\ Song.length_seconds song = Some (Ok (float_of_int 5)).
Proof.
  intros text. eexists. split; [apply set_lyrics_Ok|]. split; [reflexivity|].
  apply (length_seconds_of_whole_seconds _ 5); [reflexivity|lia].
Defined.
End LengthSeconds.

Section Patterns.
Import Re.
Local Open Scope string_scope.

(** What the two patterns match at the front of a text, for every text.
    [pattern]: a section, [[], the longest run of word characters, one at
    least, and []]; or a [#] with the first section that stands behind it.
    Group 2 is the name, group 3 the text behind the []] up to the next [[]
    or [#] or to the end, group 1 the text from the [#] up to the section.
    [tag_pattern]: a [#], the longest run of word characters, one at least,
    and the text up to the next [#] or to the end. *)
Theorem patterns_match_sections_and_tags :
  (forall s, match_here pattern s = pattern_match s)
  /\ (forall s,
        match_here tag_pattern s
        = match tag_at s with
          | Some (name, value, rest) =>
              Some (String.length s - String.length rest,
                    <[ 2 := value ]> (<[ 1 := name ]> ∅))
          | None => None
          end)
  /\ (forall s name body rest,
        section_at s = Some (name, body, rest) ->
        s = "[" +:+ name +:+ "]" +:+ body +:+ rest
        /\ name <> ""
        /\ all_chars isword name = true
        /\ all_chars (fun c => negb (is_stop c)) body = true
        /\ ends_or_starts is_stop rest = true).
Proof.
  split; [exact match_here_pattern|]. split; [exact match_here_tag_pattern|].
  intros s name body rest Hs.
  destruct (section_at_parts _ _ _ _ Hs) as (H1 & H2 & H3 & H4). do 4 (split; [done|]).
  destruct s as [|c s1]; [done|]. rewrite section_at_cons in Hs.
  destruct (bool_decide (c = "["%char)); [|done].
  destruct (span_word s1) as [[|a w] [|c' s2]]; try done.
  destruct (bool_decide (c' = "]"%char)); [|done].
  destruct (span_body s2) as [b r] eqn:Hb. injection Hs as <- <- <-.
  clear -Hb. revert b r Hb. induction s2 as [|c s2 IH]; intros b r; simpl.
  - by intros [= <- <-].
  - destruct (is_stop c) eqn:Hc; [intros [= <- <-]; by simpl|].
    destruct (span_body s2) as [b' r']. intros [= <- <-]. by eapply IH.
Qed.
End Patterns.

(** ** The lists of the cache as shared objects *)

Section SharedLists.
Import Shared.
Implicit Types (h : store) (self : Shared.t) (segs : list GenerationCache.boundary).
Local Open Scope Z_scope.

Lemma read_write_records h (r : nat) segs :
  (r < length (records h))%nat -> read_records (write_records h r segs) r = segs.
Proof. intros Hr. unfold read_records, write_records. simpl. by rewrite list_lookup_insert_eq. Qed.

Lemma read_write_records_ne h (r r' : nat) segs :
  r <> r' -> read_records (write_records h r segs) r' = read_records h r'.
Proof. intros Hr. unfold read_records, write_records. simpl. by rewrite list_lookup_insert_ne. Qed.

Lemma read_new_records h segs :
  read_records (new_records h segs).1 (new_records h segs).2 = segs.
Proof. unfold read_records, new_records. simpl. by rewrite lookup_app_r, Nat.sub_diag. Qed.

Lemma read_new_records_old h segs (r : nat) :
  (r < length (records h))%nat ->
  read_records (new_records h segs).1 r = read_records h r.
Proof. intros Hr. unfold read_records, new_records. simpl. by rewrite lookup_app_l. Qed.

Lemma new_records_length h segs :
  length (records (new_records h segs).1) = S (length (records h))
  /\ (new_records h segs).2 = length (records h)
  /\ stages (new_records h segs).1 = stages h.
Proof. unfold new_records. simpl. rewrite length_app. simpl. split; [lia|done]. Qed.

(** The loop of [rewind] on the store: the list the cache holds in the end
    is the table [GenerationCache.rewind] leaves; a record that is dropped
    leaves the list it was in as it is, and the record whose end moves is
    written into the list the cache holds then. *)
Lemma shared_rewind_loop segs tokens h self :
  read_records h (_segments self) = segs ->
  (_segments self < length (records h))%nat ->
  exists h' self' segs',
    rewind_loop (length segs) tokens h self = Ok (h', self')
    /\ GenerationCache.rewind_loop (length segs) tokens segs = Ok segs'
    /\ read_records h' (_segments self') = segs'
    /\ _tracks self' = _tracks self
    /\ stages h' = stages h
    /\ (_segments self' < length (records h'))%nat
    /\ (length (records h) <= length (records h'))%nat
    /\ (forall r : nat, (r < length (records h))%nat -> r <> _segments self ->
          read_records h' r = read_records h r)
    /\ read_records h' (_segments self)
       = match last segs with
         | Some (name, start, end_) =>
             if tokens >? end_ - start then segs else segs'
         | None => segs
         end.
Proof.
  revert tokens h self.
  induction segs as [|[[name start] end_] segs IH] using rev_ind; intros tokens h self Hread Hlt.
  - exists h, self, []. by repeat split.
  - rewrite rewind_loop_snoc, last_snoc.
    rewrite length_app, Nat.add_1_r. cbn [rewind_loop]. rewrite Hread.
    rewrite getitem_snoc. cbn [bind]. rewrite drop_last_snoc, setitem_snoc.
    destruct (tokens >? end_ - start) eqn:E.
    + set (h1 := (new_records h segs).1). set (r1 := (new_records h segs).2).
      change (new_records h segs) with (h1, r1). cbn [fst snd].
      set (self1 := {| _tracks := _tracks self; _segments := r1 |}).
      destruct (IH (tokens - (end_ - start)) h1 self1) as
        (h' & self' & segs' & Hloop & Hval & Hr & Htr & Hst & Hlt' & Hlen & Hframe & _).
      { apply read_new_records. }
      { destruct (new_records_length h segs) as (Hn1 & Hn2 & _).
        change (r1 < length (records h1))%nat. unfold h1, r1. rewrite Hn1, Hn2. lia. }
      exists h', self', segs'. rewrite Hloop, Hval.
      destruct (new_records_length h segs) as (Hlen1 & Hr1 & Hst1).
      fold h1 r1 in Hlen1, Hr1, Hst1.
      assert (Hold : forall r : nat, (r < length (records h))%nat ->
                       read_records h' r = read_records h r).
      { intros r Hr'. rewrite Hframe; [by apply read_new_records_old|lia|].
        unfold self1. simpl. lia. }
      repeat split; try done; try lia.
      * intros r Hr' _. by apply Hold.
      * by rewrite Hold.
    + cbn [bind]. exists (write_records h (_segments self) (segs ++ [(name, start, end_ - tokens)])),
        self, (segs ++ [(name, start, end_ - tokens)]).
      repeat split; try done.
      * by apply read_write_records.
      * unfold write_records. simpl. by rewrite length_insert.
      * unfold write_records. simpl. by rewrite length_insert.
      * intros r Hr' Hne. by apply read_write_records_ne.
      * by apply read_write_records.
Qed.
End SharedLists.

Section SharedViews.
Import Shared.
Implicit Types (h : store) (self : Shared.t).

(** The other operations on the store, seen through [view]. *)
Lemma shared_init h (nr_stages : nat) :
  view (init h nr_stages).1 (init h nr_stages).2 = GenerationCache.init nr_stages
  /\ allocated (init h nr_stages).1 (init h nr_stages).2.
Proof.
  unfold init, view, allocated, read_stages, read_records, GenerationCache.init. simpl.
  rewrite !lookup_app_r, !Nat.sub_diag, !length_app by done. simpl. split; [done|lia].
Qed.

Lemma shared_add_segment h self name start end_ :
  allocated h self ->
  view (add_segment h self name start end_) self
  = GenerationCache.add_segment (view h self) name start end_.
Proof.
  intros [_ Hsg]. unfold view, add_segment, GenerationCache.add_segment. simpl.
  by rewrite read_write_records.
Qed.

Lemma shared_add_tracks h self (stageidx : nat) tracks :
  allocated h self ->
  match add_tracks h self stageidx tracks with
  | Ok h' => GenerationCache.add_tracks (view h self) stageidx tracks = Ok (view h' self)
  | Raise e => GenerationCache.add_tracks (view h self) stageidx tracks = Raise e
  end.
Proof.
  intros [Htr _]. unfold add_tracks, GenerationCache.add_tracks, view. simpl.
  destruct (setitem _ _ _) as [trs|]; simpl; [|done].
  unfold read_stages, write_stages. simpl. by rewrite list_lookup_insert_eq.
Qed.

Lemma shared_track h self (stageidx trackidx : nat) :
  track h self stageidx trackidx = GenerationCache.track (view h self) stageidx trackidx.
Proof. reflexivity. Qed.
End SharedViews.

Section SharedClaims.
Import Shared.
Implicit Types (h : store) (self : Shared.t) (segs : list GenerationCache.boundary).
Implicit Types (data : gmap string nat).
Local Open Scope Z_scope.

(** [rewind] on the store does to the lists of the cache what
    [GenerationCache.rewind] does to their content; it leaves the lists of
    stages alone, and every list of records but the one the cache holds. *)
Theorem shared_rewind_is_rewind h self timems :
  allocated h self ->
  exists h' self',
    Shared.rewind h self timems = Ok (h', self')
    /\ GenerationCache.rewind (view h self) timems = Ok (view h' self')
    /\ allocated h' self'
    /\ stages h' = stages h
    /\ (forall r : nat, (r < length (records h))%nat -> r <> _segments self ->
          read_records h' r = read_records h r).
Proof.
  intros [Htr Hsg].
  destruct (shared_rewind_loop (read_records h (_segments self)) (timems / 20) h self eq_refl Hsg)
    as (h' & self' & segs' & Hloop & Hval & Hr & Htr' & Hst & Hlt & Hlen & Hframe & _).
  exists h', self'. split; [exact Hloop|]. split; [|split; [|split]].
  - unfold GenerationCache.rewind, view. cbn [GenerationCache._segments GenerationCache._tracks].
    rewrite Hval. cbn [bind]. unfold read_stages. by rewrite Hr, Htr', Hst.
  - split; [by rewrite Htr', Hst|done].
  - done.
  - done.
Qed.

Lemma shared_rewind_is_rewind_witness :
  let h := {| records := [[("intro"%string, 0, 4); ("verse"%string, 4, 10)]];
              stages := [[[[1; 2]; [3]]; [[]; []]]] |} in
  let self := {| _tracks := 0%nat; _segments := 0%nat |} in
  exists h' self',
    Shared.rewind h self 160 = Ok (h', self')
    /\ GenerationCache.rewind (view h self) 160 = Ok (view h' self')
    /\ records h' = [[("intro"%string, 0, 4); ("verse"%string, 4, 10)]; [("intro"%string, 0, 2)]]
    /\ _segments self' = 1%nat.
Proof.
  intros h self.
  destruct (shared_rewind_is_rewind h self 160) as (h' & self' & Hr & Hv & _);
    [split; simpl; lia|].
  exists h', self'. split; [exact Hr|]. split; [exact Hv|].
  vm_compute in Hr. injection Hr as <- <-. split; reflexivity.
Defined.

Lemma save_parts h self :
  exists h1,
    save h self
    = (h1, {[ "tracks"%string := length (stages h); "segments"%string := length (records h) ]})
    /\ records h1 = records h ++ [read_records h (_segments self)]
    /\ stages h1 = stages h ++ [read_stages h (_tracks self)].
Proof. eexists. split; [reflexivity|]. done. Qed.

(** [save] copies the lists: a rewind after it does not reach the
    snapshot, and [load] gives the cache the content it had when it was
    saved. *)
Theorem load_after_rewind_restores h self h1 data timems h2 self' :
  allocated h self ->
  save h self = (h1, data) ->
  Shared.rewind h1 self timems = Ok (h2, self') ->
  view h2 (load self' data) = view h self.
Proof.
  intros [Htr Hsg] Hsave Hrew.
  destruct (save_parts h self) as (h1' & Hsave' & Hrec1 & Hst1).
  rewrite Hsave in Hsave'. injection Hsave' as <- ->.
  assert (Hsg1 : (_segments self < length (records h1))%nat).
  { rewrite Hrec1, length_app. simpl. lia. }
  destruct (shared_rewind_loop (read_records h1 (_segments self)) (timems / 20) h1 self eq_refl Hsg1)
    as (h' & self'' & segs' & Hloop & _ & _ & _ & Hst & _ & _ & Hframe & _).
  unfold Shared.rewind in Hrew. rewrite Hloop in Hrew. injection Hrew as <- <-.
  set (data := {[ "tracks"%string := length (stages h);
                  "segments"%string := length (records h) ]} : gmap string nat).
  assert (Ht : data !! "tracks"%string = Some (length (stages h))) by done.
  assert (Hs : data !! "segments"%string = Some (length (records h))) by done.
  unfold load, view. rewrite Ht, Hs.
  cbn [default from_option id _tracks _segments]. f_equal.
  - unfold read_stages. rewrite Hst, Hst1. by rewrite lookup_app_r, Nat.sub_diag.
  - rewrite Hframe.
    + unfold read_records at 1. rewrite Hrec1. by rewrite lookup_app_r, Nat.sub_diag.
    + rewrite Hrec1, length_app. simpl. lia.
    + lia.
Qed.

Lemma load_after_rewind_restores_witness :
  let h := {| records := [[("intro"%string, 0, 4); ("verse"%string, 4, 10)]];
              stages := [[[[1; 2]; [3]]; [[]; []]]] |} in
  let self := {| _tracks := 0%nat; _segments := 0%nat |} in
  let h1 := {| records := [[("intro"%string, 0, 4); ("verse"%string, 4, 10)];
                           [("intro"%string, 0, 4); ("verse"%string, 4, 10)]];
               stages := [[[[1; 2]; [3]]; [[]; []]]; [[[1; 2]; [3]]; [[]; []]]] |} in
  let data : gmap string nat := {[ "tracks"%string := 1%nat; "segments"%string := 1%nat ]} in
  let h2 := {| records := [[("intro"%string, 0, 4); ("verse"%string, 4, 5)];
                           [("intro"%string, 0, 4); ("verse"%string, 4, 10)]];
               stages := [[[[1; 2]; [3]]; [[]; []]]; [[[1; 2]; [3]]; [[]; []]]] |} in
  save h self = (h1, data)
  /\ Shared.rewind h1 self 100 = Ok (h2, self)
  /\ GenerationCache._segments (view h2 self)
     = [("intro"%string, 0, 4); ("verse"%string, 4, 5)]
  /\ view h2 (load self data) = view h self.
Proof.
  intros h self h1 data h2. split; [reflexivity|]. split; [reflexivity|]. split; [reflexivity|].
  apply (load_after_rewind_restores h self h1 data 100 h2 self);
    [split; simpl; lia|reflexivity|reflexivity].
Defined.

(** [load] takes the lists of the snapshot themselves: a rewind after it
    that moves the end of the last record writes into the list of the
    snapshot, which holds the rewound table afterwards; a rewind that drops
    the last record leaves the snapshot as it is. *)
Theorem rewind_after_load_writes_snapshot h self data (r : nat) timems :
  data !! "segments"%string = Some r ->
  allocated h (load self data) ->
  exists h' self',
    Shared.rewind h (load self data) timems = Ok (h', self')
    /\ GenerationCache.rewind (view h (load self data)) timems = Ok (view h' self')
    /\ read_records h' r
       = match last (read_records h r) with
         | Some (name, start, end_) =>
             if timems / 20 >? end_ - start then read_records h r
             else GenerationCache._segments (view h' self')
         | None => read_records h r
         end.
Proof.
  intros Hdata [Htr Hsg].
  assert (Hr : _segments (load self data) = r) by (unfold load; simpl; by rewrite Hdata).
  destruct (shared_rewind_loop (read_records h r) (timems / 20) h (load self data))
    as (h' & self' & segs' & Hloop & Hval & Hread & Htr' & Hst & Hlt & Hlen & Hframe & Hold);
    [by rewrite Hr|done|].
  exists h', self'. unfold Shared.rewind. rewrite Hr in *. split; [exact Hloop|]. split.
  - unfold GenerationCache.rewind, view. cbn [GenerationCache._segments GenerationCache._tracks].
    rewrite Hr, Hval. cbn [bind]. unfold read_stages. by rewrite Hread, Htr', Hst.
  - rewrite Hold. unfold view. cbn [GenerationCache._segments]. by rewrite Hread.
Qed.

Lemma rewind_after_load_writes_snapshot_witness :
  let h := {| records := [[("intro"%string, 0, 4); ("verse"%string, 4, 10)];
                          [("intro"%string, 0, 4); ("verse"%string, 4, 10)]];
              stages := [[[[1; 2]; [3]]; [[]; []]]; [[[1; 2]; [3]]; [[]; []]]] |} in
  let self := {| _tracks := 0%nat; _segments := 0%nat |} in
  let data : gmap string nat := {[ "tracks"%string := 1%nat; "segments"%string := 1%nat ]} in
  exists h' self',
    Shared.rewind h (load self data) 100 = Ok (h', self')
    /\ read_records h 1 = [("intro"%string, 0, 4); ("verse"%string, 4, 10)]
    /\ read_records h' 1 = [("intro"%string, 0, 4); ("verse"%string, 4, 5)]
    /\ view h' (load self' data) = view h' self'.
Proof.
  intros h self data.
  destruct (rewind_after_load_writes_snapshot h self data 1 100) as (h' & self' & Hr & _ & _);
    [reflexivity|split; vm_compute; lia|].
  exists h', self'. split; [exact Hr|].
  vm_compute in Hr. injection Hr as <- <-. by vm_compute.
Defined.
End SharedClaims.
